(** * DMclean-tool: analysis pipeline and judgment engine of [main.js]

    A shallow embedding of the handlers of [src/main.js]: the analyze
    handler (energy envelope, onset detection), the note generator
    (grid snapping, merge, sort), the play/stop handlers, the key
    listeners and [handleHit].

    Numbers.  JavaScript numbers are IEEE doubles, and the file embeds
    them twice.

    The first embedding idealises times, energies and thresholds as
    exact rationals [Q]; counters (score, combo) and indices are
    integers.  Every comparison and every arithmetic expression is
    written as in the source; what rounding would change is not
    captured.  It carries the properties of structure: what a handler
    writes, what stays sorted, what is merged or counted.  Division is
    [Qdiv]; the statements that depend on a quotient whose divisor is an
    input assume that divisor non-zero (a sample rate, a subdivision),
    or use the window with its infinities ([Unbounded]), since JavaScript
    yields an infinity there and [Qdiv] yields 0.  [Math.sqrt] has no
    rational counterpart and is a parameter of the envelope extractor.

    The second embedding, the module [Double], is on binary64 floats,
    operation for operation.  It carries the properties in which
    rounding decides: the judgment windows of [handleHit] and the gap
    test of the onset loop. *)

From Stdlib Require Import Floats Zpower.
From Stdlib Require Import String Ascii DecimalString.
From Stdlib Require Import QArith Qabs Qround Qminmax ZArith List Bool Lia Lqa.
From Stdlib Require Import Permutation Sorted.
Import ListNotations.

Set Warnings "-inexact-float".

Local Open Scope Q_scope.

(** ** Comparisons on numbers *)

(** [x < y] as the source evaluates it. *)
Definition Qltb (x y : Q) : bool := negb (Qle_bool y x).

(** ** Data model *)

(** A note of the chart: [{time, lane}]. *)
Record Note : Type := mkNote { time : Q; lane : nat }.

(** The module-level variables the play, stop and key handlers share.
    [audioBuffer] records whether a track has been loaded (the handlers
    only test it); [notes] is the one chart array, which [handleHit]
    splices in place. *)
Record Player : Type := mkPlayer {
  audioBuffer : bool;
  notes : list Note;
  startTime : Q;
  playing : bool;
  score : Z;
  combo : Z;
  idxNextNote : nat
}.

(** The outcome of one press.  The source returns nothing; the tag names
    the branch of [handleHit] that ran. *)
Inductive HitResult : Type := Perfect | Good | Miss.

(** ** Judgment engine: [handleHit] *)

Definition perfect : Q := 0.08.
Definition good : Q := 0.18.
Definition missWindow : Q := 0.30.

(** The scan loop of [handleHit] over [notes[i..]]: [bestIdx] is [None]
    for the source's -1.  A note of another lane is skipped; a same-lane
    note closer than [bestDiff] becomes the best; the loop breaks after a
    same-lane note more than [missWindow] in the future. *)
Fixpoint scan (ln : nat) (now : Q) (rest : list Note) (i : nat)
    (bestIdx : option nat) (bestDiff : Q) : option nat * Q :=
  match rest with
  | [] => (bestIdx, bestDiff)
  | n :: rest' =>
      if negb (Nat.eqb (lane n) ln) then scan ln now rest' (S i) bestIdx bestDiff
      else
        let d := Qabs (time n - now) in
        let best := if Qltb d bestDiff then (Some i, d) else (bestIdx, bestDiff) in
        if Qltb missWindow (time n - now) then best
        else scan ln now rest' (S i) (fst best) (snd best)
  end.

(** [let bestIdx = -1, bestDiff = 999; for (i = idxNextNote; ...)]. *)
Definition find_best (ln : nat) (now : Q) (s : Player) : option nat * Q :=
  scan ln now (skipn (idxNextNote s) (notes s)) (idxNextNote s) None 999.

(** [notes.splice(i, 1)]. *)
Definition splice1 {A : Type} (i : nat) (l : list A) : list A :=
  firstn i l ++ skipn (S i) l.

Definition with_combo (c : Z) (s : Player) : Player :=
  mkPlayer (audioBuffer s) (notes s) (startTime s) (playing s) (score s) c
    (idxNextNote s).

(** [score += pts; combo += 1; notes.splice(bestIdx, 1)]. *)
Definition consume (pts : Z) (bestIdx : nat) (s : Player) : Player :=
  mkPlayer (audioBuffer s) (splice1 bestIdx (notes s)) (startTime s) (playing s)
    (score s + pts)%Z (combo s + 1)%Z (idxNextNote s).

(** [handleHit(lane)] with [audioCtx.currentTime] passed in. *)
Definition handleHit (ln : nat) (currentTime : Q) (s : Player)
    : Player * HitResult :=
  let now := currentTime - startTime s in
  match fst (find_best ln now s) with
  | None => (with_combo 0 s, Miss)
  | Some bestIdx =>
      match nth_error (notes s) bestIdx with
      | None => (s, Miss) (* notes[bestIdx] is always defined: find_best_some *)
      | Some n =>
          if Qle_bool (Qabs (time n - now)) perfect then
            (consume 1000 bestIdx s, Perfect)
          else if Qle_bool (Qabs (time n - now)) good then
            (consume 500 bestIdx s, Good)
          else (with_combo 0 s, Miss)
      end
  end.

(** ** Play and stop handlers *)

(** [startBtn] click: nothing without a track; otherwise schedules the
    source 0.15 s ahead and resets score, combo and cursor.  The chart is
    not touched. *)
Definition start (currentTime : Q) (s : Player) : Player :=
  if negb (audioBuffer s) then s
  else mkPlayer (audioBuffer s) (notes s) (currentTime + 0.15) true 0%Z 0%Z 0%nat.

(** [stopBtn] click: [playing = false]. *)
Definition stop (s : Player) : Player :=
  mkPlayer (audioBuffer s) (notes s) (startTime s) false (score s) (combo s)
    (idxNextNote s).

(** The events of a session and their handlers. *)
Inductive Event : Type :=
| EvStart (currentTime : Q)
| EvStop
| EvHit (ln : nat) (currentTime : Q).

Definition dispatch (s : Player) (e : Event) : Player :=
  match e with
  | EvStart t => start t s
  | EvStop => stop s
  | EvHit ln t => fst (handleHit ln t s)
  end.

Definition run (s : Player) (evs : list Event) : Player :=
  fold_left dispatch evs s.

(** ** Analyzer: energy envelope *)

Definition win : nat := 1024.
Definition step : nat := 512.

(** The inner loop: [sum = 0; for (j = 0; j < w; j++) { s = raw[i+j]; sum += s*s }]. *)
Definition window_sum (raw : list Q) (i w : nat) : Q :=
  fold_left (fun sum j => let s := nth (i + j) raw 0 in sum + s * s) (seq 0 w) 0.

(** The outer loop [for (i = 0; i < raw.length - w; i += st)], one
    iteration per unit of fuel. *)
Fixpoint env_loop (sqrt : Q -> Q) (w st : nat) (raw : list Q)
    (fuel i : nat) (env : list Q) : list Q :=
  match fuel with
  | O => env
  | S fuel' =>
      if (Z.of_nat i <? Z.of_nat (length raw) - Z.of_nat w)%Z then
        env_loop sqrt w st raw fuel' (i + st)
          (env ++ [sqrt (window_sum raw i w / inject_Z (Z.of_nat w))])
      else env
  end.

(** With a positive hop the loop runs fewer than [raw.length] times. *)
Definition energy_envelope (sqrt : Q -> Q) (w st : nat) (raw : list Q) : list Q :=
  env_loop sqrt w st raw (length raw) 0 [].

(** Step 1 of the analyze handler. *)
Definition analyze_env (sqrt : Q -> Q) (raw : list Q) : list Q :=
  energy_envelope sqrt win step raw.

(** ** Analyzer: onset detection *)

(** [for (i = 1; i < env.length; i++) diffs.push(Math.max(0, env[i]-env[i-1]))]. *)
Fixpoint diffs (env : list Q) : list Q :=
  match env with
  | a :: (b :: _) as tl => Qmax 0 (b - a) :: diffs tl
  | _ => []
  end.

(** [Math.max(...l)]; [None] stands for the -Infinity of an empty spread. *)
Definition Math_max_all (l : list Q) : option Q :=
  fold_left (fun m d => match m with
                        | None => Some d
                        | Some x => Some (Qmax x d)
                        end) l None.

(** [diffs.map(d => d / (maxd || 1))].  When [diffs] is empty, [maxd] is
    -Infinity and the map runs over nothing. *)
Definition normalize (ds : list Q) : list Q :=
  match Math_max_all ds with
  | None => []
  | Some maxd => map (fun d => d / (if Qeq_bool maxd 0 then 1 else maxd)) ds
  end.

(** [parseFloat(sensitivitySlider.value) || 1.5]; [None] is NaN. *)
Definition sensitivity (parsed : option Q) : Q :=
  match parsed with
  | Some k => if Qeq_bool k 0 then 1.5 else k
  | None => 1.5
  end.

Definition thresh (parsed : option Q) : Q := 0.18 / sensitivity parsed.

(** [((i+1)*step)/sampleRate]. *)
Definition frame_sec (sampleRate : Q) (i : nat) : Q :=
  (inject_Z (Z.of_nat (i + 1)) * inject_Z (Z.of_nat step)) / sampleRate.

(** One iteration of the onset loop on frame [i] with flux [x]. *)
Definition onset_step (th sampleRate : Q) (i : nat) (x : Q) (onsets : list Q)
    : list Q :=
  if Qltb th x then
    let sec := frame_sec sampleRate i in
    if Nat.eqb (length onsets) 0 || Qltb 0.12 (sec - last onsets 0)
    then onsets ++ [sec] else onsets
  else onsets.

Fixpoint onset_loop (th sampleRate : Q) (norm : list Q) (i : nat)
    (onsets : list Q) : list Q :=
  match norm with
  | [] => onsets
  | x :: norm' =>
      onset_loop th sampleRate norm' (S i) (onset_step th sampleRate i x onsets)
  end.

(** Step 2 of the analyze handler. *)
Definition detect_onsets (parsed : option Q) (sampleRate : Q) (env : list Q)
    : list Q :=
  onset_loop (thresh parsed) sampleRate (normalize (diffs env)) 0 [].

(** ** Note generator *)

(** A snapped onset, [{time: nearest, lane}].  [nearest] starts as
    [null] and stays so when no grid time comes closer than 999. *)
Record Candidate : Type := mkCandidate { ctime : option Q; clane : nat }.

(** [bpmEstimate || 120]: [null] ([None]) and 0 are falsy. *)
Definition bpm_or_default (bpmEstimate : option Q) : Q :=
  match bpmEstimate with
  | Some b => if Qeq_bool b 0 then 120 else b
  | None => 120
  end.

(** [(60/(bpmEstimate||120)) / (subdiv/4) / 2]. *)
Definition snapWindow (bpmEstimate : option Q) (subdiv : Z) : Q :=
  (60 / bpm_or_default bpmEstimate) / (inject_Z subdiv / 4) / 2.

(** [for (const g of grid) { d = |g - t|; if (d < mind) { mind = d; nearest = g } }]. *)
Fixpoint nearest_scan (t : Q) (grid : list Q) (nearest : option Q) (mind : Q)
    : option Q * Q :=
  match grid with
  | [] => (nearest, mind)
  | g :: grid' =>
      let d := Qabs (g - t) in
      if Qltb d mind then nearest_scan t grid' (Some g) d
      else nearest_scan t grid' nearest mind
  end.

(** The body of the loop over onsets: [None] is the [continue]. *)
Definition snap (freqToLane : Q -> nat) (grid : list Q) (sw t : Q)
    : option Candidate :=
  let r := nearest_scan t grid None 999 in
  if Qltb sw (snd r) then None
  else Some (mkCandidate (fst r) (freqToLane t)).

Fixpoint gen_candidates (freqToLane : Q -> nat) (grid : list Q) (sw : Q)
    (onsets : list Q) (candidates : list Candidate) : list Candidate :=
  match onsets with
  | [] => candidates
  | t :: onsets' =>
      match snap freqToLane grid sw t with
      | None => gen_candidates freqToLane grid sw onsets' candidates
      | Some c => gen_candidates freqToLane grid sw onsets' (candidates ++ [c])
      end
  end.

Definition string_of_Z (z : Z) : string := NilZero.string_of_int (Z.to_int z).

(** The three fraction digits of [toFixed(3)]. *)
Definition pad3 (n : Z) : string :=
  ((if (n <? 10)%Z then "00" else if (n <? 100)%Z then "0" else "")
   ++ string_of_Z n)%string.

(** [x.toFixed(3)] for |x| below 1e21: the integer [n] nearest to
    [1000 * |x|] (the larger on a tie), printed with three decimals and
    the sign of [x]. *)
Definition toFixed3 (x : Q) : string :=
  let neg := Qltb x 0 in
  let a := if neg then - x else x in
  let n := Qfloor (a * 1000 + (1 # 2)) in
  ((if neg then "-" else "") ++ string_of_Z (n / 1000) ++ "."
   ++ pad3 (n mod 1000))%string.

(** The template string [`${c.time.toFixed(3)}|${c.lane}`]. *)
Definition key_of (t : Q) (ln : nat) : string :=
  (toFixed3 t ++ "|" ++ string_of_Z (Z.of_nat ln))%string.

(** [merged[k] = v] on an object whose keys are no array indices: an
    existing key keeps its place, a new one goes last. *)
Fixpoint obj_set {A : Type} (k : string) (v : A) (o : list (string * A))
    : list (string * A) :=
  match o with
  | [] => [(k, v)]
  | (k', v') :: o' =>
      if String.eqb k' k then (k', v) :: o' else (k', v') :: obj_set k v o'
  end.

(** [Object.values(o)]: the values in insertion order. *)
Definition obj_values {A : Type} (o : list (string * A)) : list A := map snd o.

(** The merge loop.  [c.time.toFixed] throws a TypeError on a [null]
    time: [None]. *)
Fixpoint merge (candidates : list Candidate) (merged : list (string * Note))
    : option (list (string * Note)) :=
  match candidates with
  | [] => Some merged
  | c :: rest =>
      match ctime c with
      | None => None
      | Some t => merge rest (obj_set (key_of t (clane c)) (mkNote t (clane c)) merged)
      end
  end.

(** The comparator [(a,b) => a.time - b.time]. *)
Definition by_time (a b : Note) : Q := time a - time b.

(** [Array.prototype.sort] is stable, and on rational times the
    comparator is a consistent order, so the sorted array is determined:
    a stable insertion sort computes it. *)
Fixpoint insert_note (x : Note) (l : list Note) : list Note :=
  match l with
  | [] => [x]
  | y :: l' => if Qltb 0 (by_time x y) then y :: insert_note x l' else x :: l
  end.

Definition sort_notes (l : list Note) : list Note := fold_right insert_note [] l.

(** [genNotesBtn] click past its guard: the chart assigned to [notes],
    or [None] when the merge loop throws (then [notes] keeps its old
    value).  [buildBeatGrid] and [freqToLane] are functions of the
    program that the source file at hand does not contain. *)
Definition genNotes (buildBeatGrid : Q -> Z -> Q -> list Q) (freqToLane : Q -> nat)
    (bpmEstimate : option Q) (subdiv : Z) (duration : Q) (onsets : list Q)
    : option (list Note) :=
  let grid := buildBeatGrid (bpm_or_default bpmEstimate) subdiv duration in
  let sw := snapWindow bpmEstimate subdiv in
  let candidates := gen_candidates freqToLane grid sw onsets [] in
  match merge candidates [] with
  | None => None
  | Some merged => Some (sort_notes (obj_values merged))
  end.

(** Modelled from the spec: [buildBeatGrid], whose body is not in the
    source file.  "t_n = n * (60/bpm) * (4/d) for n = 0, 1, ... while
    t_n <= duration"; a non-positive spacing is rejected (empty grid). *)
Definition buildBeatGrid_spec (bpm : Q) (d : Z) (duration : Q) : list Q :=
  let interval := (60 / bpm) * (4 / inject_Z d) in
  if Qle_bool interval 0 then []
  else
    filter (fun t => Qle_bool t duration)
      (map (fun n => inject_Z (Z.of_nat n) * interval)
         (seq 0 (Z.to_nat (Qfloor (duration / interval)) + 1))).

(** ** Vocabulary of the statements *)

(** The number of passes of [for (i = i0; i < len - w; i += st)]. *)
Definition passes (len w st i0 : nat) : nat :=
  Z.to_nat ((Z.of_nat len - Z.of_nat w - Z.of_nat i0 + Z.of_nat st - 1)
            / Z.of_nat st).

(** The sum of the squares of [raw[i .. i+w)], added left to right. *)
Definition sum_squares (raw : list Q) (i w : nat) : Q :=
  fold_left Qplus (map (fun s => s * s) (firstn w (skipn i raw))) 0.

(** Two consecutive onsets: the later one more than 0.12 s after the earlier. *)
Definition gap (a b : Q) : Prop := 0.12 < b - a.

(** The last accepted onset, if any. *)
Definition last_onset (onsets : list Q) : option Q :=
  match onsets with
  | [] => None
  | _ => Some (last onsets 0)
  end.

(** The gap test of the loop, on the last accepted onset. *)
Definition far_enough (prev : option Q) (sec : Q) : bool :=
  match prev with
  | None => true
  | Some a => Qltb 0.12 (sec - a)
  end.

(** How many onsets the loop appends from frame [i] on. *)
Fixpoint accepted (th rate : Q) (norm : list Q) (i : nat) (prev : option Q) : nat :=
  match norm with
  | [] => 0
  | x :: norm' =>
      if Qltb th x && far_enough prev (frame_sec rate i)
      then S (accepted th rate norm' (S i) (Some (frame_sec rate i)))
      else accepted th rate norm' (S i) prev
  end.

(** [prev2] is no later than [prev1]; no onset yet counts as earliest. *)
Definition no_later (prev2 prev1 : option Q) : Prop :=
  match prev2, prev1 with
  | None, _ => True
  | Some a2, Some a1 => a2 <= a1
  | Some _, None => False
  end.

(** [prev] is no later than the time [t]. *)
Definition not_after (prev : option Q) (t : Q) : Prop :=
  match prev with
  | None => True
  | Some a => a <= t
  end.

(** [g] is a grid time nearest to [t]. *)
Definition nearest_to (grid : list Q) (t g : Q) : Prop :=
  In g grid /\ forall g', In g' grid -> Qabs (g - t) <= Qabs (g' - t).

(** The key under which a note is merged. *)
Definition note_key (n : Note) : string := key_of (time n) (lane n).

(** Every entry of the merge object sits under the key of its value. *)
Definition keyed (o : list (string * Note)) : Prop :=
  forall k v, In (k, v) o -> k = note_key v.

(** Ascending by time. *)
Definition time_le (a b : Note) : Prop := time a <= time b.

(** The notes at time [tau]. *)
Definition at_time (tau : Q) (n : Note) : bool := Qeq_bool (time n) tau.

(** The tempo estimator has no estimate: [null], or a 0. *)
Definition no_estimate (bpmEstimate : option Q) : Prop :=
  match bpmEstimate with
  | None => True
  | Some b => b == 0
  end.

(** ** Inputs used in the examples *)

(** A one-note chart with the note at 1 s in lane 0, the clock origin
    [startTime] at 0 and a combo of 5. *)
Definition one_note : Player :=
  mkPlayer true [mkNote 1 0] 0 true 0 5 0.

(** The same with the note at 0 s, so that [|n.time - now|] is the clock. *)
Definition note_at_zero : Player :=
  mkPlayer true [mkNote 0 0] 0 true 0 5 0.

(** A replay that consumes the only note of a chart: start, a Perfect
    press, stop, start again. *)
Definition replay_session : list Event :=
  [EvStart 0; EvHit 0 1.15; EvStop; EvStart 10].

(** An envelope with a large rise and, two frames later, a rise a tenth
    as large. *)
Definition two_rises : list Q := [0; 1; 1; 1.1].

(** Two onsets that snap to the beat at 0.5 s, the earlier one mapped to
    lane 2 and the later one to lane 1. *)
Definition high_then_low (t : Q) : nat := if Qltb t 0.5 then 2%nat else 1%nat.

(** ** Helper and key handlers *)

(** [clamp(v,a,b)]: [Math.max(a, Math.min(b, v))]. *)
Definition clamp (v a b : Q) : Q := Qmax a (Qmin b v).

(** [e.key.toLowerCase()] on a one-character key.  Named keys ("Shift",
    "Enter") and characters outside the Latin letters lower-case to
    nothing [keyMap] holds, as do the characters left unchanged here. *)
Definition toLowerCase (c : ascii) : ascii :=
  let n := nat_of_ascii c in
  if Nat.leb 65 n && Nat.leb n 90 then ascii_of_nat (n + 32) else c.

(** [keyMap = {'f':0,'g':1,'h':2,'j':3}]; [None] is [undefined]. *)
Definition keyMap (k : ascii) : option nat :=
  if Ascii.eqb k "f" then Some 0%nat
  else if Ascii.eqb k "g" then Some 1%nat
  else if Ascii.eqb k "h" then Some 2%nat
  else if Ascii.eqb k "j" then Some 3%nat
  else None.

(** [a[i] = v] on an array of flags: a write past the end extends the
    array, the holes reading as falsy. *)
Fixpoint array_set (i : nat) (v : bool) (a : list bool) : list bool :=
  match i, a with
  | O, [] => [v]
  | O, _ :: a' => v :: a'
  | S i', [] => false :: array_set i' v []
  | S i', x :: a' => x :: array_set i' v a'
  end.

(** The player together with the [pressed] flags of the key handlers
    and whether [audioCtx] holds an audio context: it is [undefined]
    until a file is chosen or a handler past its guard creates one. *)
Record Game : Type := mkGame {
  player : Player;
  pressed : list bool;
  audioCtx : bool
}.

(** The [keydown] listener, [currentTime] being what
    [audioCtx.currentTime] reads when there is a context.  A lane key
    whose flag is clear calls [handleHit]; without a context
    [audioCtx.currentTime] throws a TypeError there, the listener ends
    before the flag is written and nothing has changed.  Otherwise the
    flag is set. *)
Definition keydown (key : ascii) (currentTime : Q) (g : Game) : Game :=
  match keyMap (toLowerCase key) with
  | None => g
  | Some l =>
      if negb (nth l (pressed g) false) then
        if audioCtx g then
          mkGame (fst (handleHit l currentTime (player g)))
                 (array_set l true (pressed g)) (audioCtx g)
        else g
      else mkGame (player g) (array_set l true (pressed g)) (audioCtx g)
  end.

(** The [keyup] listener: a lane key clears its flag. *)
Definition keyup (key : ascii) (g : Game) : Game :=
  match keyMap (toLowerCase key) with
  | None => g
  | Some l => mkGame (player g) (array_set l false (pressed g)) (audioCtx g)
  end.

(** ** Vocabulary of the further statements *)

(** A press leaves the chart alone or splices one note out. *)
Definition at_most_one_removed (before after : list Note) : Prop :=
  after = before \/ exists i n, nth_error before i = Some n /\ after = splice1 i before.

(** What every session keeps true of score and combo, against the chart
    [chart0] the session started with. *)
Definition score_invariant (chart0 : list Note) (s : Player) : Prop :=
  (0 <= combo s)%Z /\ (500 * combo s <= score s)%Z /\
  (exists k, score s = 500 * k)%Z /\
  (score s + 1000 * Z.of_nat (length (notes s))
   <= 1000 * Z.of_nat (length chart0))%Z.

(** The millisecond an instant rounds to in [toFixed(3)]. *)
Definition millis (t : Q) : Z := Qfloor (t * 1000 + (1 # 2)).

(** ** Inputs used in the further examples *)

(** A chart with two notes of lane 0, at 1 s and 2 s. *)
Definition two_notes : Player :=
  mkPlayer true [mkNote 1 0; mkNote 2 0] 0 false 0 0 0.

(** A fade-out. *)
Definition fade_out : list Q := [1; 0.5; 0.5; 0].

(** Two onsets 0.4 ms apart on a grid of 0.1 ms, both mapped to lane 0. *)
Definition fine_grid (bpm : Q) (d : Z) (duration : Q) : list Q :=
  [0; 0.5001; 0.5004; 1].

(** Two notes of lane 0, a quarter second before and after 1 s. *)
Definition around_one : Player :=
  mkPlayer true [mkNote 0.75 0; mkNote 1.25 0] 0 true 0 0 0.

(** ** The note generator with an unbounded window

    At a subdivision of 0 the window [(60/bpm)/(subdiv/4)/2] is a
    quotient by zero: JavaScript yields an infinity of the sign of
    [60/bpm], [Qdiv] yields 0.  This module embeds the generator with
    the window as the source computes it there. *)
Module Unbounded.

(** A snap window: a rational, or an infinity. *)
Inductive Window : Type :=
| Finite (w : Q)
| Infinity (negative : bool).

(** [(60/(bpmEstimate||120)) / (subdiv/4) / 2]. *)
Definition snapWindow (bpmEstimate : option Q) (subdiv : Z) : Window :=
  if (subdiv =? 0)%Z then Infinity (Qltb (bpm_or_default bpmEstimate) 0)
  else Finite ((60 / bpm_or_default bpmEstimate) / (inject_Z subdiv / 4) / 2).

(** [mind > snapWindow]. *)
Definition beyond (mind : Q) (sw : Window) : bool :=
  match sw with
  | Finite w => Qltb w mind
  | Infinity negative => negative
  end.

(** The body of the loop over onsets: [None] is the [continue]. *)
Definition snap (freqToLane : Q -> nat) (grid : list Q) (sw : Window) (t : Q)
    : option Candidate :=
  let r := nearest_scan t grid None 999 in
  if beyond (snd r) sw then None
  else Some (mkCandidate (fst r) (freqToLane t)).

Fixpoint gen_candidates (freqToLane : Q -> nat) (grid : list Q) (sw : Window)
    (onsets : list Q) (candidates : list Candidate) : list Candidate :=
  match onsets with
  | [] => candidates
  | t :: onsets' =>
      match snap freqToLane grid sw t with
      | None => gen_candidates freqToLane grid sw onsets' candidates
      | Some c => gen_candidates freqToLane grid sw onsets' (candidates ++ [c])
      end
  end.

(** [genNotesBtn] click past its guard: the chart assigned to [notes],
    or [None] when the merge loop throws. *)
Definition genNotes (buildBeatGrid : Q -> Z -> Q -> list Q) (freqToLane : Q -> nat)
    (bpmEstimate : option Q) (subdiv : Z) (duration : Q) (onsets : list Q)
    : option (list Note) :=
  let grid := buildBeatGrid (bpm_or_default bpmEstimate) subdiv duration in
  let sw := snapWindow bpmEstimate subdiv in
  let candidates := gen_candidates freqToLane grid sw onsets [] in
  match merge candidates [] with
  | None => None
  | Some merged => Some (sort_notes (obj_values merged))
  end.

(** The distance [d] is within the window: not [d > snapWindow]. *)
Definition within (d : Q) (sw : Window) : Prop :=
  match sw with
  | Finite w => d <= w
  | Infinity negative => negative = false
  end.

(** A grid of two beats, whatever the tempo. *)
Definition two_beats (bpm : Q) (d : Z) (duration : Q) : list Q := [0; 2].

(** No grid at all. *)
Definition no_beats (bpm : Q) (d : Z) (duration : Q) : list Q := [].

End Unbounded.

(** ** The judgment engine and the onset loop on doubles

    Which judgment a press gets and whether two onsets are far enough
    apart depend on how the doubles round.  This module embeds
    [handleHit], the play and stop handlers and the onset detector on
    the kernel's binary64 floats, every operation as the source computes
    it; a decimal literal stands for the double nearest to it, as in
    JavaScript.  Score and combo stay integers (they are whole numbers
    far below 2^53), and a loop variable is the double the source
    increments. *)
Module Double.

Local Open Scope float_scope.

(** A note of the chart: [{time, lane}]. *)
Record Note : Type := mkNote { time : float; lane : nat }.

(** The variables the play, stop and key handlers share. *)
Record Player : Type := mkPlayer {
  audioBuffer : bool;
  notes : list Note;
  startTime : float;
  playing : bool;
  score : Z;
  combo : Z;
  idxNextNote : nat
}.

Definition perfect : float := 0.08.
Definition good : float := 0.18.
Definition missWindow : float := 0.30.

(** The scan loop of [handleHit] over [notes[i..]]; [None] is the
    source's -1.  A comparison with a NaN is false. *)
Fixpoint scan (ln : nat) (now : float) (rest : list Note) (i : nat)
    (bestIdx : option nat) (bestDiff : float) : option nat * float :=
  match rest with
  | [] => (bestIdx, bestDiff)
  | n :: rest' =>
      if negb (Nat.eqb (lane n) ln) then scan ln now rest' (S i) bestIdx bestDiff
      else
        let d := abs (time n - now) in
        let best := if d <? bestDiff then (Some i, d) else (bestIdx, bestDiff) in
        if missWindow <? time n - now then best
        else scan ln now rest' (S i) (fst best) (snd best)
  end.

(** [let bestIdx = -1, bestDiff = 999; for (i = idxNextNote; ...)]. *)
Definition find_best (ln : nat) (now : float) (s : Player) : option nat * float :=
  scan ln now (skipn (idxNextNote s) (notes s)) (idxNextNote s) None 999.

Definition with_combo (c : Z) (s : Player) : Player :=
  mkPlayer (audioBuffer s) (notes s) (startTime s) (playing s) (score s) c
    (idxNextNote s).

(** [score += pts; combo += 1; notes.splice(bestIdx, 1)]. *)
Definition consume (pts : Z) (bestIdx : nat) (s : Player) : Player :=
  mkPlayer (audioBuffer s) (splice1 bestIdx (notes s)) (startTime s) (playing s)
    (score s + pts)%Z (combo s + 1)%Z (idxNextNote s).

(** [handleHit(lane)] with [audioCtx.currentTime] passed in. *)
Definition handleHit (ln : nat) (currentTime : float) (s : Player)
    : Player * HitResult :=
  let now := currentTime - startTime s in
  match fst (find_best ln now s) with
  | None => (with_combo 0 s, Miss)
  | Some bestIdx =>
      match nth_error (notes s) bestIdx with
      | None => (s, Miss) (* notes[bestIdx] is always defined *)
      | Some n =>
          if abs (time n - now) <=? perfect then
            (consume 1000 bestIdx s, Perfect)
          else if abs (time n - now) <=? good then
            (consume 500 bestIdx s, Good)
          else (with_combo 0 s, Miss)
      end
  end.

(** [startBtn] click: [startTime = audioCtx.currentTime + 0.15]. *)
Definition start (currentTime : float) (s : Player) : Player :=
  if negb (audioBuffer s) then s
  else mkPlayer (audioBuffer s) (notes s) (currentTime + 0.15) true 0%Z 0%Z 0%nat.

(** [stopBtn] click: [playing = false]. *)
Definition stop (s : Player) : Player :=
  mkPlayer (audioBuffer s) (notes s) (startTime s) false (score s) (combo s)
    (idxNextNote s).

(** The events of a session and their handlers. *)
Inductive Event : Type :=
| EvStart (currentTime : float)
| EvStop
| EvHit (ln : nat) (currentTime : float).

Definition dispatch (s : Player) (e : Event) : Player :=
  match e with
  | EvStart t => start t s
  | EvStop => stop s
  | EvHit ln t => fst (handleHit ln t s)
  end.

Definition run (s : Player) (evs : list Event) : Player :=
  fold_left dispatch evs s.

(** [Math.max(x, y)]: NaN when either is, and +0 over -0. *)
Definition Math_max (x y : float) : float :=
  if is_nan x || is_nan y then nan
  else if x <? y then y
  else if is_zero x && is_zero y then (if get_sign x then y else x)
  else x.

(** [for (i = 1; i < env.length; i++) diffs.push(Math.max(0, env[i]-env[i-1]))]. *)
Fixpoint diffs (env : list float) : list float :=
  match env with
  | a :: (b :: _) as tl => Math_max 0 (b - a) :: diffs tl
  | _ => []
  end.

(** [Math.max(...l)], from -Infinity. *)
Definition Math_max_all (l : list float) : float :=
  fold_left Math_max l neg_infinity.

(** [x || dflt] on a number: 0, -0 and NaN are falsy. *)
Definition or_default (x dflt : float) : float :=
  if is_zero x || is_nan x then dflt else x.

(** [diffs.map(d => d / (maxd || 1))]. *)
Definition normalize (ds : list float) : list float :=
  map (fun d => d / or_default (Math_max_all ds) 1) ds.

(** [0.18 / (parseFloat(sensitivitySlider.value) || 1.5)], [parsed]
    being what [parseFloat] returned. *)
Definition thresh (parsed : float) : float := 0.18 / or_default parsed 1.5.

Definition step : float := 512.

(** One pass of the onset loop, [i] being the loop variable. *)
Definition onset_step (th sampleRate i x : float) (onsets : list float)
    : list float :=
  if th <? x then
    let sec := ((i + 1) * step) / sampleRate in
    if Nat.eqb (length onsets) 0 || (0.12 <? sec - last onsets 0)
    then onsets ++ [sec] else onsets
  else onsets.

(** [for (let i = 0; i < norm.length; i++)], from the value [i] on. *)
Fixpoint onset_loop (th sampleRate : float) (norm : list float) (i : float)
    (onsets : list float) : list float :=
  match norm with
  | [] => onsets
  | x :: norm' =>
      onset_loop th sampleRate norm' (i + 1) (onset_step th sampleRate i x onsets)
  end.

(** Step 2 of the analyze handler. *)
Definition detect_onsets (parsed sampleRate : float) (env : list float)
    : list float :=
  onset_loop (thresh parsed) sampleRate (normalize (diffs env)) 0 [].

(** *** Vocabulary of the statements on doubles *)

(** The loop variable after [n] increments of [i++] from [i0]. *)
Fixpoint counter_from (i0 : float) (n : nat) : float :=
  match n with
  | O => i0
  | S k => counter_from i0 k + 1
  end.

(** The loop variable [i] at frame [n]. *)
Definition counter (n : nat) : float := counter_from 0 n.

(** The distance [Math.abs(n.time - now)] the scan computes for a note. *)
Definition distance (now : float) (n : Note) : float := abs (time n - now).

(** The scan reaches index [k]: it starts at the cursor [idx] and has
    not left the loop before [k], no note of the lane at an index from
    [idx] up to [k] being more than 0.30 s ahead. *)
Definition reaches (ln : nat) (now : float) (chart : list Note) (idx k : nat)
    : Prop :=
  (idx <= k)%nat /\
  forall j m, (idx <= j < k)%nat -> nth_error chart j = Some m -> lane m = ln ->
              (0.30 <? time m - now) = false.

(** The state a press leaves: chart, score and combo as given, the rest
    as in [s]. *)
Definition after_press (s : Player) (chart : list Note) (sc c : Z) : Player :=
  mkPlayer (audioBuffer s) chart (startTime s) (playing s) sc c (idxNextNote s).

(** Consecutive onsets: the later one more than 0.12 s after the earlier,
    as the loop computes it. *)
Definition gap (a b : float) : Prop := (0.12 <? b - a) = true.

(** Strictly earlier. *)
Definition earlier (a b : float) : Prop := (a <? b) = true.

(** Ascending by time, as doubles compare. *)
Definition time_leb (a b : Note) : Prop := (time a <=? time b) = true.

(** *** Inputs used in the examples on doubles *)

(** A one-note chart with the note at 1 s in lane 0 and a combo of 5. *)
Definition one_note : Player := mkPlayer true [mkNote 1 0] 0 true 0 5 0.

(** The same with the note at 0 s. *)
Definition note_at_zero : Player := mkPlayer true [mkNote 0 0] 0 true 0 5 0.

(** An envelope that rises at frames 5 and 50 of the flux. *)
Definition rises_5_50 : list float := repeat 0 6 ++ repeat 1 45 ++ [2].

(** A chart with two notes of lane 0, at 1 s and 2 s. *)
Definition two_notes : Player :=
  mkPlayer true [mkNote 1 0; mkNote 2 0] 0 false 0 0 0.

End Double.

(** ** Vocabulary of rounding

    A subtraction of doubles is the exact difference rounded to the
    nearest double, ties to even.  The statements about it count values
    in units of 2^-1074, the spacing of the smallest doubles, in which
    every finite double is an integer. *)
Section RoundingVocabulary.

Local Open Scope Z_scope.

(** Rounding to the nearest multiple of [S], ties to even, as a quotient. *)
Definition rne_div (N S : Z) : Z :=
  match 2 * (N mod S) ?= S with
  | Lt => N / S
  | Eq => if Z.even (N / S) then N / S else N / S + 1
  | Gt => N / S + 1
  end.

(** The number of low bits a double drops from [N] units of 2^-1074. *)
Definition dropped_bits (N : Z) : Z := Z.max (Zdigits2 N - 53) 0.

(** The mantissa of the double nearest to [N] units, and its exponent
    counted from -1074: a mantissa rounded up to 2^53 is renormalized. *)
Definition nearest_mantissa (N : Z) : Z * Z :=
  let s := dropped_bits N in
  let k := rne_div N (2 ^ s) in
  if k =? 2 ^ 53 then (2 ^ 52, s + 1) else (k, s).

(** The double nearest to [N] units of 2^-1074, for [N] positive: an
    infinity past the largest exponent. *)
Definition nearest_double (N : Z) : spec_float :=
  if snd (nearest_mantissa N) - 1074 <=? 971
  then S754_finite false (Z.to_pos (fst (nearest_mantissa N)))
         (snd (nearest_mantissa N) - 1074)
  else S754_infinity false.

(** The value of a finite double in units of 2^-1074. *)
Definition units (f : spec_float) : Z :=
  match f with
  | S754_finite s m e => cond_Zopp s (Zpos m * 2 ^ (e + 1074))
  | _ => 0
  end.

Definition finite_or_zero (f : spec_float) : bool :=
  match f with
  | S754_finite _ _ _ | S754_zero _ => true
  | _ => false
  end.

End RoundingVocabulary.

(** ** Proof automation for the order on doubles *)

Ltac sf_cases :=
  repeat match goal with
  | x : spec_float |- _ => destruct x as [[]|[]| |[] ? ?]
  end.

Ltac cmp_solve :=
  cbn;
  repeat match goal with
  | |- context [Z.compare ?a ?b] => destruct (Z.compare_spec a b)
  | |- context [PosDef.Pos.compare_cont Eq ?a ?b] =>
      change (PosDef.Pos.compare_cont Eq a b) with (Pos.compare a b);
      destruct (Pos.compare_spec a b)
  | |- context [Pos.compare ?a ?b] => destruct (Pos.compare_spec a b)
  end; cbn; intros; subst; try discriminate; try reflexivity; try lia; auto.

(** Cases on infinities and NaN that computation settles. *)
Ltac sf_contradiction :=
  repeat match goal with
  | H : finite_or_zero _ = _ |- _ => try discriminate H; clear H
  end;
  repeat match goal with
  | H : SFleb _ _ = true |- _ => try discriminate H; clear H
  | H : SFltb _ _ = true |- _ => try discriminate H; clear H
  end;
  try reflexivity.

(** * Properties *)

(** ** Comparisons *)

Lemma Qltb_lt (x y : Q) : Qltb x y = true <-> x < y.
Proof.
  unfold Qltb. rewrite negb_true_iff.
  split; intro H.
  - apply Qnot_le_lt. intro Hle. apply Qle_bool_iff in Hle. congruence.
  - destruct (Qle_bool y x) eqn:E; [|reflexivity].
    apply Qle_bool_iff in E. exfalso. apply (Qlt_not_le _ _ H E).
Qed.

Lemma Qltb_ge (x y : Q) : Qltb x y = false <-> y <= x.
Proof.
  unfold Qltb. rewrite negb_false_iff. apply Qle_bool_iff.
Qed.

(** ** Judgment engine *)

Lemma scan_spec (ln : nat) (now : Q) (rest : list Note) :
  forall (i : nat) (bestIdx : option nat) (bestDiff : Q),
    let r := scan ln now rest i bestIdx bestDiff in
    r = (bestIdx, bestDiff) \/
    exists k n, fst r = Some k /\ (i <= k)%nat /\
                nth_error rest (k - i) = Some n /\ lane n = ln /\
                snd r = Qabs (time n - now) /\ snd r < bestDiff.
Proof.
  induction rest as [|m rest IH]; intros i bestIdx bestDiff; cbn [scan].
  - left; reflexivity.
  - assert (Hshift : forall k n, (S i <= k)%nat ->
              nth_error rest (k - S i) = Some n ->
              nth_error (m :: rest) (k - i) = Some n).
    { intros k n Hk Hn. replace (k - i)%nat with (S (k - S i)) by lia. exact Hn. }
    destruct (Nat.eqb (lane m) ln) eqn:El; cbn [negb].
    + apply Nat.eqb_eq in El.
      destruct (Qltb (Qabs (time m - now)) bestDiff) eqn:Ed; cbn [fst snd].
      * apply Qltb_lt in Ed.
        destruct (Qltb missWindow (time m - now)).
        { right. exists i, m. cbn [fst snd]. rewrite Nat.sub_diag.
          repeat split; auto. }
        { destruct (IH (S i) (Some i) (Qabs (time m - now))) as [E|(k & n & H1 & H2 & H3 & H4 & H5 & H6)].
          - cbv zeta in E. rewrite E. right. exists i, m. cbn [fst snd].
            rewrite Nat.sub_diag. repeat split; auto.
          - right. exists k, n. repeat split; auto; try lia.
            eapply Qlt_trans; eauto. }
      * destruct (Qltb missWindow (time m - now)); [left; reflexivity|].
        destruct (IH (S i) bestIdx bestDiff) as [E|(k & n & H1 & H2 & H3 & H4 & H5 & H6)].
        { left; exact E. }
        { right. exists k, n. repeat split; auto; lia. }
    + destruct (IH (S i) bestIdx bestDiff) as [E|(k & n & H1 & H2 & H3 & H4 & H5 & H6)].
      { left; exact E. }
      { right. exists k, n. repeat split; auto; lia. }
Qed.

(** The index [find_best] returns is that of a note of the pressed lane,
    at or after the cursor, and [bestDiff] is its distance to [now]. *)
Lemma find_best_some (ln : nat) (now : Q) (s : Player) (k : nat) :
  fst (find_best ln now s) = Some k ->
  exists n, nth_error (notes s) k = Some n /\ lane n = ln /\
            (idxNextNote s <= k)%nat /\
            snd (find_best ln now s) = Qabs (time n - now) /\
            Qabs (time n - now) < 999.
Proof.
  unfold find_best. intro Hk.
  destruct (scan_spec ln now (skipn (idxNextNote s) (notes s)) (idxNextNote s) None 999)
    as [E|(k' & n & H1 & H2 & H3 & H4 & H5 & H6)].
  - cbv zeta in E. rewrite E in Hk. discriminate.
  - cbv zeta in H1. rewrite H1 in Hk. injection Hk as <-.
    exists n. rewrite nth_error_skipn in H3.
    replace (idxNextNote s + (k' - idxNextNote s))%nat with k' in H3 by lia.
    rewrite <- H5. repeat split; auto.
Qed.

Lemma handleHit_unfold (ln : nat) (currentTime : Q) (s : Player) (i : nat) (n : Note) :
  fst (find_best ln (currentTime - startTime s) s) = Some i ->
  nth_error (notes s) i = Some n ->
  handleHit ln currentTime s =
    if Qle_bool (Qabs (time n - (currentTime - startTime s))) perfect then
      (consume 1000 i s, Perfect)
    else if Qle_bool (Qabs (time n - (currentTime - startTime s))) good then
      (consume 500 i s, Good)
    else (with_combo 0 s, Miss).
Proof.
  intros Hb Hn. unfold handleHit. cbv zeta. rewrite Hb, Hn. reflexivity.
Qed.

(** A note half a second away is still what the scan returns; the press
    is a Miss and the note stays. *)
Example press_far_from_note :
  fst (find_best 0 0.5 note_at_zero) = Some 0%nat /\
  handleHit 0 0.5 note_at_zero = (with_combo 0 note_at_zero, Miss).
Proof. split; reflexivity. Qed.

Example press_other_lane :
  fst (find_best 1 1 one_note) = None /\
  handleHit 1 1 one_note = (with_combo 0 one_note, Miss).
Proof. split; reflexivity. Qed.

(** A press writes neither the cursor, nor the clock origin, nor the flags. *)
Lemma handleHit_frame (ln : nat) (currentTime : Q) (s : Player) :
  let s' := fst (handleHit ln currentTime s) in
  idxNextNote s' = idxNextNote s /\ startTime s' = startTime s /\
  playing s' = playing s /\ audioBuffer s' = audioBuffer s.
Proof.
  cbv zeta. unfold handleHit. cbv zeta.
  destruct (fst (find_best ln (currentTime - startTime s) s)) as [i|];
    [destruct (nth_error (notes s) i) as [n|];
       [destruct (Qle_bool _ perfect); [|destruct (Qle_bool _ good)]|]|];
    cbn; auto.
Qed.

(** ** Sessions: start, stop, replay *)

Lemma handleHit_cursor (ln : nat) (t : Q) (s : Player) :
  idxNextNote (fst (handleHit ln t s)) = idxNextNote s.
Proof. apply (handleHit_frame ln t s). Qed.

(** Only the start handler writes the cursor. *)
Lemma dispatch_cursor (s : Player) (e : Event) :
  idxNextNote (dispatch s e) = idxNextNote s \/
  (exists t, e = EvStart t) /\ idxNextNote (dispatch s e) = 0%nat.
Proof.
  destruct e as [t| |ln t]; cbn [dispatch].
  - unfold start. destruct (audioBuffer s); cbn; [right; eauto|left; reflexivity].
  - left; reflexivity.
  - left; apply handleHit_cursor.
Qed.

Lemma run_cursor_zero (evs : list Event) :
  forall s, idxNextNote s = 0%nat -> idxNextNote (run s evs) = 0%nat.
Proof.
  unfold run. induction evs as [|e evs IH]; intros s Hs; cbn [fold_left].
  - exact Hs.
  - apply IH. destruct (dispatch_cursor s e) as [E|[_ E]]; congruence.
Qed.

(** C5, as stated, fails: the second start finds the chart without the
    note the first session consumed. *)
Lemma replay_misses_consumed_note :
  let s0 := mkPlayer true [mkNote 1 0] 0 false 0 0 0 in
  notes s0 = [mkNote 1 0] /\
  notes (run s0 replay_session) = [] /\
  score (run s0 [EvStart 0; EvHit 0 1.15; EvStop]) = 1000%Z /\
  combo (run s0 [EvStart 0; EvHit 0 1.15; EvStop]) = 1%Z.
Proof. cbv zeta. repeat split; reflexivity. Qed.

(** C5, amended.  With a track loaded: stop clears [playing] and leaves
    chart, score, combo and cursor as they are; the next start sets
    score, combo and cursor to 0 and plays against the chart as it is
    then, that is, the one array the earlier presses spliced. *)
Theorem stop_then_start (t : Q) (s : Player) :
  audioBuffer s = true ->
  (playing (stop s) = false /\ notes (stop s) = notes s /\
   score (stop s) = score s /\ combo (stop s) = combo s /\
   idxNextNote (stop s) = idxNextNote s) /\
  (playing (start t (stop s)) = true /\
   score (start t (stop s)) = 0%Z /\ combo (start t (stop s)) = 0%Z /\
   idxNextNote (start t (stop s)) = 0%nat /\
   notes (start t (stop s)) = notes s).
Proof.
  intro Hl. split.
  - repeat split; reflexivity.
  - unfold start. cbn [stop audioBuffer]. rewrite Hl. cbn. repeat split; reflexivity.
Qed.

Lemma stop_then_start_witness :
  audioBuffer one_note = true /\
  notes (start 10 (stop one_note)) = [mkNote 1 0] /\
  score (start 10 (stop one_note)) = 0%Z.
Proof.
  split; [reflexivity|].
  pose proof (stop_then_start 10 one_note eq_refl) as [_ (_ & Hs & _ & _ & Hn)].
  split; [exact Hn|exact Hs].
Defined.

(** C10.  With a track loaded, start sets the cursor to 0; stop and
    [handleHit] do not write it, and a later start sets it to 0 again.  So
    after any events of a session the cursor is 0, the next event leaves
    it no smaller, and every press scans the chart from index 0. *)
Theorem cursor_stays_zero (t : Q) (s : Player) (evs : list Event) :
  audioBuffer s = true ->
  let s' := run (start t s) evs in
  idxNextNote (start t s) = 0%nat /\
  idxNextNote s' = 0%nat /\
  (forall e, (idxNextNote s' <= idxNextNote (dispatch s' e))%nat) /\
  (forall ln currentTime,
      idxNextNote (fst (handleHit ln currentTime s')) = idxNextNote s' /\
      find_best ln (currentTime - startTime s') s' =
        scan ln (currentTime - startTime s') (notes s') 0 None 999) /\
  idxNextNote (stop s') = idxNextNote s'.
Proof.
  intros Hl s'.
  assert (H0 : idxNextNote (start t s) = 0%nat).
  { unfold start. rewrite Hl. reflexivity. }
  assert (Hs' : idxNextNote s' = 0%nat) by (apply run_cursor_zero; exact H0).
  split; [exact H0|]. split; [exact Hs'|]. split; [|split].
  - intro e. rewrite Hs'. lia.
  - intros ln ct. split; [apply handleHit_cursor|].
    unfold find_best. rewrite Hs'. reflexivity.
  - reflexivity.
Qed.

Lemma cursor_stays_zero_witness :
  audioBuffer one_note = true /\
  idxNextNote (run (start 0 one_note) [EvHit 0 1.15; EvStop; EvHit 0 2]) = 0%nat.
Proof.
  split; [reflexivity|].
  apply (cursor_stays_zero 0 one_note [EvHit 0 1.15; EvStop; EvHit 0 2] eq_refl).
Defined.

(** ** Energy envelope *)

Lemma passes_more (len w st i : nat) :
  (0 < st)%nat ->
  (Z.of_nat i < Z.of_nat len - Z.of_nat w)%Z ->
  passes len w st i = S (passes len w st (i + st)).
Proof.
  intros Hst Hi. unfold passes.
  replace (Z.of_nat len - Z.of_nat w - Z.of_nat i + Z.of_nat st - 1)%Z
    with ((Z.of_nat len - Z.of_nat w - Z.of_nat (i + st) + Z.of_nat st - 1)
          + 1 * Z.of_nat st)%Z by lia.
  rewrite Z.div_add by lia.
  rewrite <- Z2Nat.inj_succ; [f_equal; lia|].
  apply Z.div_pos; lia.
Qed.

Lemma passes_done (len w st i : nat) :
  (0 < st)%nat ->
  ~ (Z.of_nat i < Z.of_nat len - Z.of_nat w)%Z ->
  passes len w st i = 0%nat.
Proof.
  intros Hst Hi. unfold passes.
  assert (H : ((Z.of_nat len - Z.of_nat w - Z.of_nat i + Z.of_nat st - 1)
               / Z.of_nat st <= 0)%Z).
  { apply Z.lt_succ_r. apply Z.div_lt_upper_bound; lia. }
  lia.
Qed.

Lemma passes_le_len (len w st i : nat) :
  (0 < st)%nat -> (passes len w st i <= len - i)%nat.
Proof.
  intro Hst. unfold passes.
  destruct (Z_lt_dec (Z.of_nat i) (Z.of_nat len - Z.of_nat w)) as [Hi|Hi].
  - assert (H : ((Z.of_nat len - Z.of_nat w - Z.of_nat i + Z.of_nat st - 1)
                 / Z.of_nat st < Z.of_nat (len - i) + 1)%Z).
    { apply Z.div_lt_upper_bound; [lia|]. nia. }
    lia.
  - pose proof (passes_done len w st i Hst Hi) as H. unfold passes in H. lia.
Qed.

(** The loop in closed form: one frame per pass, frame [k] over the
    window that starts at [i + k * st]. *)
Lemma env_loop_closed (sqrt : Q -> Q) (w st : nat) (raw : list Q) :
  (0 < st)%nat ->
  forall fuel i env,
    (passes (length raw) w st i <= fuel)%nat ->
    env_loop sqrt w st raw fuel i env =
      env ++ map (fun k => sqrt (window_sum raw (i + k * st) w
                                 / inject_Z (Z.of_nat w)))
                 (seq 0 (passes (length raw) w st i)).
Proof.
  intro Hst. induction fuel as [|fuel IH]; intros i env Hf.
  - replace (passes (length raw) w st i) with 0%nat by lia.
    cbn. rewrite app_nil_r. reflexivity.
  - cbn [env_loop].
    destruct (Z.ltb_spec (Z.of_nat i) (Z.of_nat (length raw) - Z.of_nat w)) as [Hi|Hi].
    + rewrite (passes_more _ _ _ _ Hst Hi) in Hf |- *.
      rewrite IH by lia.
      rewrite <- app_assoc. f_equal. cbn [seq map app].
      rewrite Nat.mul_0_l, Nat.add_0_r. f_equal.
      rewrite <- seq_shift, map_map.
      apply map_ext. intro k. do 3 f_equal. lia.
    + rewrite passes_done by lia. cbn. rewrite app_nil_r. reflexivity.
Qed.

Lemma fold_left_map_in {A B C : Type} (f : A -> C -> A) (g : B -> C) (l : list B) :
  forall a, fold_left f (map g l) a = fold_left (fun x y => f x (g y)) l a.
Proof. induction l as [|b l IH]; intro a; cbn; [reflexivity|apply IH]. Qed.

Lemma fold_left_pointwise {A B : Type} (f g : A -> B -> A) (l : list B) :
  (forall a b, f a b = g a b) ->
  forall a, fold_left f l a = fold_left g l a.
Proof.
  intro H. induction l as [|b l IH]; intro a; cbn; [reflexivity|].
  rewrite H. apply IH.
Qed.

Lemma fold_nth_firstn (w : nat) :
  forall (l : list Q) (acc : Q),
    (w <= length l)%nat ->
    fold_left (fun sum j => let s := nth j l 0 in sum + s * s) (seq 0 w) acc =
    fold_left Qplus (map (fun s => s * s) (firstn w l)) acc.
Proof.
  induction w as [|w IH]; intros l acc Hw; [reflexivity|].
  destruct l as [|x l]; [cbn in Hw; lia|].
  cbn [seq fold_left firstn map nth].
  rewrite <- seq_shift, fold_left_map_in. cbn [nth].
  apply (IH l). cbn in Hw. lia.
Qed.

(** The inner loop reads exactly the window [raw[i .. i+w)]. *)
Lemma window_sum_squares (raw : list Q) (i w : nat) :
  (i + w <= length raw)%nat ->
  window_sum raw i w = sum_squares raw i w.
Proof.
  intro H. unfold window_sum, sum_squares.
  rewrite <- fold_nth_firstn by (rewrite length_skipn; lia).
  apply fold_left_pointwise. intros sum j. cbv zeta.
  rewrite nth_skipn. reflexivity.
Qed.

Lemma energy_envelope_closed (sqrt : Q -> Q) (w st : nat) (raw : list Q) :
  (0 < st)%nat ->
  energy_envelope sqrt w st raw =
    map (fun k => sqrt (window_sum raw (k * st) w / inject_Z (Z.of_nat w)))
        (seq 0 (passes (length raw) w st 0)).
Proof.
  intro Hst. unfold energy_envelope.
  rewrite (env_loop_closed sqrt w st raw Hst).
  - reflexivity.
  - pose proof (passes_le_len (length raw) w st 0 Hst). lia.
Qed.

(** More fuel than [raw.length] changes nothing: the loop has ended. *)
Lemma env_loop_fuel (sqrt : Q -> Q) (w st : nat) (raw : list Q) (fuel : nat) :
  (0 < st)%nat -> (length raw <= fuel)%nat ->
  env_loop sqrt w st raw fuel 0 [] = energy_envelope sqrt w st raw.
Proof.
  intros Hst Hf. rewrite energy_envelope_closed by exact Hst.
  rewrite (env_loop_closed sqrt w st raw Hst).
  - reflexivity.
  - pose proof (passes_le_len (length raw) w st 0 Hst). lia.
Qed.

Lemma passes_window (len w st k : nat) :
  (0 < st)%nat -> (k < passes len w st 0)%nat -> (k * st + w < len)%nat.
Proof.
  intros Hst Hk. unfold passes in Hk.
  set (a := (Z.of_nat len - Z.of_nat w - Z.of_nat 0 + Z.of_nat st - 1)%Z) in *.
  assert (Hq : (Z.of_nat k + 1 <= a / Z.of_nat st)%Z) by lia.
  pose proof (Z.mul_div_le a (Z.of_nat st) ltac:(lia)) as Hm.
  assert (Hp : (Z.of_nat st * (Z.of_nat k + 1) <= a)%Z) by nia.
  subst a. nia.
Qed.

Lemma analyze_env_length (sqrt : Q -> Q) (raw : list Q) :
  length (analyze_env sqrt raw) = passes (length raw) win step 0.
Proof.
  unfold analyze_env. rewrite energy_envelope_closed by (unfold step; lia).
  rewrite length_map, length_seq. reflexivity.
Qed.

(** C3, as stated, fails on the length: 1025 samples give one frame,
    and floor((1025 - 1024) / 512) is 0. *)
Lemma envelope_length_not_floor :
  length (analyze_env (fun x => x) (repeat 0 1025)) = 1%nat /\
  ((Z.of_nat (length (repeat 0 1025)) - Z.of_nat win) / Z.of_nat step)%Z = 0%Z.
Proof.
  split.
  - rewrite analyze_env_length, repeat_length. reflexivity.
  - rewrite repeat_length. reflexivity.
Qed.

(** C3, amended.  The envelope has one frame per window start
    [i = 0, S, 2S, ...] with [i < len - W] (W = 1024, S = 512), that is
    ceil((len - W) / S) frames when [len > W] and none otherwise; frame
    [k] is [sqrt] of the mean of the squares of [raw[kS .. kS + W)], a
    window that lies inside the buffer; a buffer of at most W samples
    gives the empty envelope. *)
Theorem envelope_frames (sqrt : Q -> Q) (raw : list Q) :
  let env := analyze_env sqrt raw in
  length env = Z.to_nat ((Z.of_nat (length raw) - 1024 + 511) / 512) /\
  (forall k, (k < length env)%nat ->
     (k * step + win < length raw)%nat /\
     nth k env 0 = sqrt (sum_squares raw (k * step) win / 1024)) /\
  ((length raw <= win)%nat -> env = []).
Proof.
  cbv zeta.
  assert (Hst : (0 < step)%nat) by (unfold step; lia).
  assert (Hlen : length (analyze_env sqrt raw) = passes (length raw) win step 0)
    by apply analyze_env_length.
  split; [|split].
  - rewrite Hlen. unfold passes.
    change (Z.of_nat win) with 1024%Z. change (Z.of_nat step) with 512%Z.
    do 2 f_equal. lia.
  - intros k Hk. rewrite Hlen in Hk.
    pose proof (passes_window _ _ _ _ Hst Hk) as Hw.
    split; [exact Hw|].
    unfold analyze_env. rewrite energy_envelope_closed by exact Hst.
    set (f := fun k0 : nat => sqrt (window_sum raw (k0 * step) win
                                    / inject_Z (Z.of_nat win))).
    rewrite (nth_indep _ 0 (f 0%nat)) by (rewrite length_map, length_seq; exact Hk).
    rewrite map_nth, seq_nth by exact Hk. subst f. cbn beta.
    rewrite Nat.add_0_l, window_sum_squares by lia. reflexivity.
  - intro Hle. apply length_zero_iff_nil. rewrite Hlen.
    apply passes_done; [exact Hst|lia].
Qed.

(** ** Onset detection *)

Lemma Sorted_snoc {A : Type} (R : A -> A -> Prop) (d x : A) (l : list A) :
  Sorted R l -> (l = [] \/ R (last l d) x) -> Sorted R (l ++ [x]).
Proof.
  induction l as [|a l IH]; intros Hs Hl.
  - cbn. repeat constructor.
  - apply Sorted_inv in Hs. destruct Hs as [Hs Hh].
    destruct Hl as [Hl|Hl]; [discriminate|].
    destruct l as [|b l].
    + cbn in *. repeat constructor. exact Hl.
    + change ((a :: b :: l) ++ [x]) with (a :: ((b :: l) ++ [x])).
      constructor.
      * apply IH; [exact Hs|right; exact Hl].
      * cbn. constructor. inversion Hh; assumption.
Qed.

Lemma onset_step_cases (th rate : Q) (i : nat) (x : Q) (onsets : list Q) :
  (onset_step th rate i x onsets = onsets ++ [frame_sec rate i] /\
   th < x /\ (onsets = [] \/ gap (last onsets 0) (frame_sec rate i)))
  \/
  (onset_step th rate i x onsets = onsets /\
   (x <= th \/
    (th < x /\ onsets <> [] /\ frame_sec rate i - last onsets 0 <= 0.12))).
Proof.
  unfold onset_step, gap.
  destruct (Qltb th x) eqn:Ec.
  - apply Qltb_lt in Ec. cbv zeta.
    destruct (Nat.eqb (length onsets) 0) eqn:El; cbn [orb].
    + apply Nat.eqb_eq, length_zero_iff_nil in El. left. auto.
    + destruct (Qltb 0.12 (frame_sec rate i - last onsets 0)) eqn:Eg.
      * apply Qltb_lt in Eg. left. auto.
      * apply Qltb_ge in Eg. right. split; [reflexivity|]. right.
        repeat split; auto.
        intro Hn. subst onsets. discriminate.
  - apply Qltb_ge in Ec. right. auto.
Qed.



(** Every accepted onset is the time of a frame whose flux is over the
    threshold. *)
Lemma onset_loop_origin (th rate : Q) (norm : list Q) :
  forall i onsets t,
    In t (onset_loop th rate norm i onsets) ->
    In t onsets \/
    exists j, (j < length norm)%nat /\ th < nth j norm 0 /\
              t = frame_sec rate (i + j).
Proof.
  induction norm as [|x norm IH]; intros i onsets t Ht; cbn [onset_loop] in Ht.
  - left; exact Ht.
  - destruct (IH _ _ _ Ht) as [Hin|(j & Hj & Hth & Hsec)].
    + destruct (onset_step_cases th rate i x onsets) as [(E & Hx & _)|(E & _)];
        rewrite E in Hin; [|left; exact Hin].
      apply in_app_or in Hin. destruct Hin as [Hin|[<-|[]]]; [left; exact Hin|].
      right. exists 0%nat. cbn [length nth]. rewrite Nat.add_0_r.
      repeat split; [lia|exact Hx].
    + right. exists (S j). cbn [length nth].
      replace (i + S j)%nat with (S i + j)%nat by lia.
      repeat split; [lia|exact Hth|exact Hsec].
Qed.

(** *** Sensitivity *)

Lemma last_onset_snoc (onsets : list Q) (x : Q) :
  last_onset (onsets ++ [x]) = Some x.
Proof.
  unfold last_onset. rewrite last_last.
  destruct onsets; reflexivity.
Qed.

Lemma onset_step_far (th rate : Q) (i : nat) (x : Q) (onsets : list Q) :
  onset_step th rate i x onsets =
    if Qltb th x && far_enough (last_onset onsets) (frame_sec rate i)
    then onsets ++ [frame_sec rate i] else onsets.
Proof.
  unfold onset_step. destruct (Qltb th x); cbn [andb]; [|reflexivity].
  cbv zeta. destruct onsets as [|a l]; reflexivity.
Qed.

Lemma onset_loop_length (th rate : Q) (norm : list Q) :
  forall i onsets,
    length (onset_loop th rate norm i onsets) =
    (length onsets + accepted th rate norm i (last_onset onsets))%nat.
Proof.
  induction norm as [|x norm IH]; intros i onsets; cbn [onset_loop accepted].
  - lia.
  - rewrite IH, onset_step_far.
    destruct (Qltb th x && far_enough (last_onset onsets) (frame_sec rate i)).
    + rewrite last_onset_snoc, length_app. cbn [length]. lia.
    + reflexivity.
Qed.

Lemma frame_sec_mono (rate : Q) (i : nat) :
  0 < rate -> frame_sec rate i <= frame_sec rate (S i).
Proof.
  intro Hr. unfold frame_sec, Qdiv.
  apply Qmult_le_compat_r.
  - apply Qmult_le_compat_r.
    + rewrite <- Zle_Qle. lia.
    + rewrite <- (Zle_Qle 0). lia.
  - apply Qlt_le_weak, Qinv_lt_0_compat, Hr.
Qed.

Lemma far_enough_mono (p2 p1 : option Q) (t : Q) :
  no_later p2 p1 -> far_enough p1 t = true -> far_enough p2 t = true.
Proof.
  destruct p2 as [a2|], p1 as [a1|]; cbn; intros H H1; try reflexivity;
    try contradiction.
  apply Qltb_lt in H1. apply Qltb_lt. lra.
Qed.

(** A run with the lower threshold never falls behind: started no later
    it accepts at least as many onsets, and started anywhere before the
    current frame it accepts at most one fewer. *)
Lemma accepted_mono (th1 th2 rate : Q) (norm : list Q) :
  0 < rate -> th2 <= th1 ->
  forall i p1 p2,
    (no_later p2 p1 ->
       (accepted th1 rate norm i p1 <= accepted th2 rate norm i p2)%nat) /\
    (not_after p2 (frame_sec rate i) ->
       (accepted th1 rate norm i p1 <= S (accepted th2 rate norm i p2))%nat).
Proof.
  intros Hr Hth. induction norm as [|x norm IH]; intros i p1 p2;
    cbn [accepted]; [split; intros; lia|].
  set (t := frame_sec rate i).
  assert (Hnext : t <= frame_sec rate (S i)) by (apply frame_sec_mono, Hr).
  assert (Hc : Qltb th1 x = true -> Qltb th2 x = true).
  { intro H. apply Qltb_lt in H. apply Qltb_lt. lra. }
  assert (Hself : no_later (Some t) (Some t)) by (cbn; lra).
  assert (Hafter : not_after (Some t) (frame_sec rate (S i))) by exact Hnext.
  destruct (Qltb th1 x && far_enough p1 t) eqn:E1;
    destruct (Qltb th2 x && far_enough p2 t) eqn:E2.
  - split; intros _.
    + apply le_n_S, (IH (S i) (Some t) (Some t)), Hself.
    + apply le_n_S, le_S, (IH (S i) (Some t) (Some t)), Hself.
  - apply andb_true_iff in E1. destruct E1 as [E1a E1b].
    split; intro H.
    + rewrite (Hc E1a), (far_enough_mono _ _ _ H E1b) in E2. discriminate.
    + apply le_n_S, (IH (S i) (Some t) p2).
      destruct p2 as [a2|]; [exact H|exact I].
  - split; intros _; [|apply le_S]; apply (IH (S i) p1 (Some t)), Hafter.
  - split; intro H.
    + apply (IH (S i) p1 p2), H.
    + apply (IH (S i) p1 p2).
      destruct p2 as [a2|]; [|exact I].
      unfold not_after in *. fold t in H. lra.
Qed.

Lemma thresh_decreasing (k1 k2 : Q) :
  0 < k1 -> k1 < k2 -> thresh (Some k2) < thresh (Some k1).
Proof.
  intros H1 H2.
  assert (E1 : Qeq_bool k1 0 = false).
  { destruct (Qeq_bool k1 0) eqn:E; [|reflexivity].
    apply Qeq_bool_iff in E. lra. }
  assert (E2 : Qeq_bool k2 0 = false).
  { destruct (Qeq_bool k2 0) eqn:E; [|reflexivity].
    apply Qeq_bool_iff in E. lra. }
  unfold thresh, sensitivity. rewrite E1, E2. unfold Qdiv.
  apply Qmult_lt_l; [reflexivity|].
  apply -> Qinv_lt_contravar; [exact H2|lra|exact H1].

Qed.

(** C9.  For a fixed envelope and sample rate, a higher sensitivity
    [k2 > k1 > 0] gives a lower threshold [0.18/k2 < 0.18/k1] and at
    least as many accepted onsets. *)
Theorem more_sensitive_more_onsets (k1 k2 sampleRate : Q) (env : list Q) :
  0 < sampleRate -> 0 < k1 -> k1 < k2 ->
  thresh (Some k2) < thresh (Some k1) /\
  (length (detect_onsets (Some k1) sampleRate env)
   <= length (detect_onsets (Some k2) sampleRate env))%nat.
Proof.
  intros Hr H1 H2.
  pose proof (thresh_decreasing k1 k2 H1 H2) as Hth.
  split; [exact Hth|].
  unfold detect_onsets. rewrite !onset_loop_length. cbn [length last_onset plus].
  apply (accepted_mono (thresh (Some k1)) (thresh (Some k2)) sampleRate
           (normalize (diffs env)) Hr (Qlt_le_weak _ _ Hth) 0 None None).
  exact I.
Qed.

(** At one frame per second the small rise is over the threshold at
    sensitivity 2 and not at sensitivity 1. *)
Lemma more_sensitive_more_onsets_witness :
  0 < 512 /\ 0 < 1 /\ 1 < 2 /\
  detect_onsets (Some 1) 512 two_rises = [512 # 512] /\
  length (detect_onsets (Some 2) 512 two_rises) = 2%nat /\
  le (length (detect_onsets (Some 1) 512 two_rises))
     (length (detect_onsets (Some 2) 512 two_rises)).
Proof.
  assert (Hr : 0 < 512) by reflexivity.
  assert (H1 : 0 < 1) by reflexivity.
  assert (H2 : 1 < 2) by reflexivity.
  repeat split; try reflexivity.
  apply (more_sensitive_more_onsets 1 2 512 two_rises Hr H1 H2).
Defined.

(** ** Note generator: snapping *)

Lemma nearest_scan_spec (t : Q) (grid : list Q) :
  forall nearest mind,
    let r := nearest_scan t grid nearest mind in
    snd r <= mind /\
    (forall g, In g grid -> snd r <= Qabs (g - t)) /\
    (r = (nearest, mind) \/
     exists g, In g grid /\ fst r = Some g /\ snd r = Qabs (g - t) /\ snd r < mind).
Proof.
  induction grid as [|g0 grid IH]; intros nearest mind; cbn [nearest_scan].
  - cbn. split; [lra|]. split; [intros g []|left; reflexivity].
  - destruct (Qltb (Qabs (g0 - t)) mind) eqn:E.
    + apply Qltb_lt in E.
      destruct (IH (Some g0) (Qabs (g0 - t))) as (H1 & H2 & H3). cbv zeta in *.
      split; [lra|]. split.
      * intros g [<-|Hg]; [exact H1|apply H2, Hg].
      * right. destruct H3 as [H3|(g & Hg & Hf & Hs & Hlt)].
        { exists g0. rewrite H3. cbn [fst snd].
          split; [left; reflexivity|]. repeat split. exact E. }
        { exists g. split; [right; exact Hg|]. split; [exact Hf|].
          split; [exact Hs|lra]. }
    + apply Qltb_ge in E.
      destruct (IH nearest mind) as (H1 & H2 & H3). cbv zeta in *.
      split; [exact H1|]. split.
      * intros g [<-|Hg]; [lra|apply H2, Hg].
      * destruct H3 as [H3|(g & Hg & Hf & Hs & Hlt)]; [left; exact H3|].
        right. exists g. split; [right; exact Hg|]. repeat split; assumption.
Qed.


(** What the scan from [(null, 999)] returns: a nearest grid time when
    one lies closer than 999, else [null] and 999. *)
Lemma nearest_scan_start (t : Q) (grid : list Q) :
  let r := nearest_scan t grid None 999 in
  (r = (None, 999) /\ forall g, In g grid -> 999 <= Qabs (g - t)) \/
  (exists g, nearest_to grid t g /\ r = (Some g, Qabs (g - t)) /\
             Qabs (g - t) < 999).
Proof.
  destruct (nearest_scan_spec t grid None 999) as (H1 & H2 & H3). cbv zeta in *.
  destruct H3 as [H3|(g & Hg & Hf & Hs & Hlt)].
  - left. split; [exact H3|]. intros g Hg. specialize (H2 g Hg).
    rewrite H3 in H2. exact H2.
  - right. exists g. split; [|split].
    + split; [exact Hg|]. intros g' Hg'. rewrite <- Hs. apply H2, Hg'.
    + destruct (nearest_scan t grid None 999) as [a b]. cbn in *. congruence.
    + rewrite <- Hs. exact Hlt.
Qed.

Lemma gen_candidates_flat (freqToLane : Q -> nat) (grid : list Q) (sw : Q)
    (onsets : list Q) :
  forall candidates,
    gen_candidates freqToLane grid sw onsets candidates =
    candidates ++ flat_map (fun t => match snap freqToLane grid sw t with
                                     | Some c => [c]
                                     | None => []
                                     end) onsets.
Proof.
  induction onsets as [|t onsets IH]; intro candidates;
    cbn [gen_candidates flat_map].
  - rewrite app_nil_r. reflexivity.
  - destruct (snap freqToLane grid sw t) as [c|]; rewrite IH.
    + rewrite <- app_assoc. reflexivity.
    + reflexivity.
Qed.




Example snap_inside_window :
  snap (fun _ => 2%nat) [0; 0.5; 1] (snapWindow None 4) 0.375 =
    Some (mkCandidate (Some 0.5) 2).
Proof. reflexivity. Qed.

Example snap_outside_window :
  snap (fun _ => 2%nat) [0; 2] (snapWindow None 4) 1 = None.
Proof. reflexivity. Qed.

(** ** Note generator: merge and sort *)

Lemma toFixed3_compat (x y : Q) : x == y -> toFixed3 x = toFixed3 y.
Proof.
  intro H. unfold toFixed3.
  assert (Hneg : Qltb x 0 = Qltb y 0) by (unfold Qltb; rewrite H; reflexivity).
  rewrite Hneg. cbv zeta.
  assert (Hn : Qfloor ((if Qltb y 0 then - x else x) * 1000 + (1 # 2)) =
               Qfloor ((if Qltb y 0 then - y else y) * 1000 + (1 # 2))).
  { destruct (Qltb y 0); rewrite H; reflexivity. }
  rewrite Hn. reflexivity.
Qed.

Lemma note_key_compat (a b : Note) :
  time a == time b -> lane a = lane b -> note_key a = note_key b.
Proof.
  intros Ht Hl. unfold note_key, key_of.
  rewrite (toFixed3_compat _ _ Ht), Hl. reflexivity.
Qed.

Lemma obj_set_keys {A : Type} (k : string) (v : A) (o : list (string * A)) :
  forall k', In k' (map fst (obj_set k v o)) <-> k' = k \/ In k' (map fst o).
Proof.
  induction o as [|[k0 v0] o IH]; intro k'; cbn [obj_set map fst In].
  - intuition.
  - destruct (String.eqb_spec k0 k) as [->|Hne]; cbn [map fst In].
    + intuition.
    + rewrite IH. intuition.
Qed.

Lemma obj_set_NoDup {A : Type} (k : string) (v : A) (o : list (string * A)) :
  NoDup (map fst o) -> NoDup (map fst (obj_set k v o)).
Proof.
  induction o as [|[k0 v0] o IH]; intro Hnd; cbn [obj_set map fst].
  - repeat constructor. intros [].
  - apply NoDup_cons_iff in Hnd. destruct Hnd as [Hnotin Hnd]. cbn [fst] in Hnotin.
    destruct (String.eqb_spec k0 k) as [->|Hne]; cbn [map fst].
    + constructor; assumption.
    + constructor; [|apply IH, Hnd].
      rewrite obj_set_keys. intros [E|Hin]; [congruence|contradiction].
Qed.

Lemma obj_set_in {A : Type} (k : string) (v : A) (o : list (string * A)) :
  forall k' v', In (k', v') (obj_set k v o) ->
                (k' = k /\ v' = v) \/ In (k', v') o.
Proof.
  induction o as [|[k0 v0] o IH]; intros k' v' Hin; cbn [obj_set] in Hin.
  - destruct Hin as [E|[]]. left. split; congruence.
  - destruct (String.eqb_spec k0 k) as [->|Hne]; destruct Hin as [E|Hin].
    + left. split; congruence.
    + right. right. exact Hin.
    + right. left. exact E.
    + destruct (IH _ _ Hin) as [H|H]; [left; exact H|right; right; exact H].
Qed.

Lemma merge_invariant (candidates : list Candidate) :
  forall merged merged',
    merge candidates merged = Some merged' ->
    NoDup (map fst merged) -> keyed merged ->
    NoDup (map fst merged') /\ keyed merged'.
Proof.
  induction candidates as [|c rest IH]; intros merged merged' Hm Hnd Hk;
    cbn [merge] in Hm.
  - injection Hm as <-. split; assumption.
  - destruct (ctime c) as [t|]; [|discriminate].
    apply (IH _ _ Hm).
    + apply obj_set_NoDup, Hnd.
    + intros k v Hin. apply obj_set_in in Hin.
      destruct Hin as [[-> ->]|Hin]; [reflexivity|apply Hk, Hin].
Qed.

Lemma keyed_values (o : list (string * Note)) :
  keyed o -> map note_key (obj_values o) = map fst o.
Proof.
  unfold obj_values. intro Hk. rewrite map_map.
  apply map_ext_in. intros [k v] Hin. cbn. symmetry. apply Hk, Hin.
Qed.

Lemma insert_note_perm (x : Note) (l : list Note) :
  Permutation (insert_note x l) (x :: l).
Proof.
  induction l as [|y l IH]; cbn [insert_note]; [reflexivity|].
  destruct (Qltb 0 (by_time x y)); [|reflexivity].
  rewrite IH. apply perm_swap.
Qed.

Lemma sort_notes_perm (l : list Note) : Permutation (sort_notes l) l.
Proof.
  induction l as [|x l IH]; cbn [sort_notes fold_right]; [reflexivity|].
  rewrite insert_note_perm. apply perm_skip, IH.
Qed.

Lemma insert_note_sorted (x : Note) (l : list Note) :
  Sorted time_le l -> Sorted time_le (insert_note x l).
Proof.
  induction l as [|y l IH]; intro Hs; cbn [insert_note].
  - repeat constructor.
  - destruct (Qltb 0 (by_time x y)) eqn:E.
    + apply Qltb_lt in E. unfold by_time in E.
      apply Sorted_inv in Hs. destruct Hs as [Hs Hh].
      constructor; [apply IH, Hs|].
      destruct l as [|z l]; cbn [insert_note].
      * constructor. unfold time_le. lra.
      * destruct (Qltb 0 (by_time x z)); constructor.
        { inversion Hh; assumption. }
        { unfold time_le. lra. }
    + apply Qltb_ge in E. unfold by_time in E.
      constructor; [exact Hs|]. constructor. unfold time_le. lra.
Qed.

Lemma sort_notes_sorted (l : list Note) : StronglySorted time_le (sort_notes l).
Proof.
  apply Sorted_StronglySorted.
  - intros a b c. unfold time_le. apply Qle_trans.
  - induction l as [|x l IH]; cbn [sort_notes fold_right]; [constructor|].
    apply insert_note_sorted, IH.
Qed.

(** The sort is stable: among the notes of one time it changes nothing. *)
Lemma insert_note_stable (tau : Q) (x : Note) (l : list Note) :
  filter (at_time tau) (insert_note x l) = filter (at_time tau) (x :: l).
Proof.
  induction l as [|y l IH]; cbn [insert_note]; [reflexivity|].
  destruct (Qltb 0 (by_time x y)) eqn:E; [|reflexivity].
  apply Qltb_lt in E. unfold by_time in E.
  cbn [filter] in IH |- *. rewrite IH.
  destruct (at_time tau x) eqn:Ex; [|reflexivity].
  destruct (at_time tau y) eqn:Ey; [|reflexivity].
  unfold at_time in Ex, Ey. apply Qeq_bool_iff in Ex, Ey. exfalso. lra.
Qed.

Lemma sort_notes_stable (tau : Q) (l : list Note) :
  filter (at_time tau) (sort_notes l) = filter (at_time tau) l.
Proof.
  induction l as [|x l IH]; cbn [sort_notes fold_right]; [reflexivity|].
  rewrite insert_note_stable. cbn [filter]. fold (sort_notes l).
  rewrite IH. reflexivity.
Qed.

Lemma NoDup_map_distinct {A B : Type} (f : A -> B) (l : list A) (i j : nat) (a b : A) :
  NoDup (map f l) -> (i < j)%nat ->
  nth_error l i = Some a -> nth_error l j = Some b -> f a <> f b.
Proof.
  intros Hnd Hij Ha Hb Hf.
  assert (Hi : (i < length (map f l))%nat).
  { rewrite length_map. apply nth_error_Some. congruence. }
  assert (E : nth_error (map f l) i = nth_error (map f l) j).
  { rewrite !nth_error_map, Ha, Hb. cbn. congruence. }
  pose proof (proj1 (NoDup_nth_error (map f l)) Hnd i j Hi E). lia.
Qed.

Lemma genNotes_merged (buildBeatGrid : Q -> Z -> Q -> list Q)
    (freqToLane : Q -> nat) (bpmEstimate : option Q) (subdiv : Z)
    (duration : Q) (os : list Q) (c : list Note) :
  genNotes buildBeatGrid freqToLane bpmEstimate subdiv duration os = Some c ->
  exists merged,
    merge (gen_candidates freqToLane
             (buildBeatGrid (bpm_or_default bpmEstimate) subdiv duration)
             (snapWindow bpmEstimate subdiv) os []) [] = Some merged /\
    c = sort_notes (obj_values merged).
Proof.
  unfold genNotes. cbv zeta.
  destruct (merge _ []) as [merged|]; [|discriminate].
  intro H. injection H as <-. exists merged. split; reflexivity.
Qed.

(** C2, as stated, fails on the order of equal times: the chart holds
    the two notes of time 0.5 with lane 2 before lane 1. *)
Lemma equal_times_not_by_lane :
  let first := mkNote (240 # 480) 2 in
  let second := mkNote (240 # 480) 1 in
  genNotes buildBeatGrid_spec high_then_low None 4 1 [0.375; 0.625] =
    Some [first; second] /\
  time first == time second /\ (lane second < lane first)%nat.
Proof. cbv zeta. split; [reflexivity|]. split; [reflexivity|]. cbn. lia. Qed.

(** C2, amended.  A chart the generator produces has no two notes with
    the same time and lane and is sorted ascending by time; it is the
    stable sort of the merged candidates, so notes of equal time stand
    in the order in which their keys were first merged, whatever their
    lanes. *)
Theorem chart_well_formed (buildBeatGrid : Q -> Z -> Q -> list Q)
    (freqToLane : Q -> nat) (bpmEstimate : option Q) (subdiv : Z)
    (duration : Q) (onsets : list Q) (chart : list Note) :
  genNotes buildBeatGrid freqToLane bpmEstimate subdiv duration onsets
    = Some chart ->
  (forall i j a b, (i < j)%nat ->
     nth_error chart i = Some a -> nth_error chart j = Some b ->
     ~ (time a == time b /\ lane a = lane b)) /\
  StronglySorted time_le chart /\
  exists merged,
    merge (gen_candidates freqToLane
             (buildBeatGrid (bpm_or_default bpmEstimate) subdiv duration)
             (snapWindow bpmEstimate subdiv) onsets []) [] = Some merged /\
    Permutation chart (obj_values merged) /\
    forall tau, filter (at_time tau) chart = filter (at_time tau) (obj_values merged).
Proof.
  intro Hgen.
  destruct (genNotes_merged _ _ _ _ _ _ _ Hgen) as (merged & Hm & ->).
  destruct (merge_invariant _ _ _ Hm) as [Hnd Hk];
    [constructor|intros k v []|].
  assert (Hkeys : NoDup (map note_key (sort_notes (obj_values merged)))).
  { apply (Permutation_NoDup (l := map note_key (obj_values merged))).
    - apply Permutation_map, Permutation_sym, sort_notes_perm.
    - rewrite keyed_values by exact Hk. exact Hnd. }
  split; [|split].
  - intros i j a b Hij Ha Hb [Ht Hl].
    apply (NoDup_map_distinct note_key _ i j a b Hkeys Hij Ha Hb).
    apply note_key_compat; assumption.
  - apply sort_notes_sorted.
  - exists merged. split; [exact Hm|]. split.
    + apply sort_notes_perm.
    + intro tau. apply sort_notes_stable.
Qed.

Lemma chart_well_formed_witness :
  genNotes buildBeatGrid_spec high_then_low None 4 1 [0.375; 0.625] =
    Some [mkNote (240 # 480) 2; mkNote (240 # 480) 1] /\
  StronglySorted time_le [mkNote (240 # 480) 2; mkNote (240 # 480) 1].
Proof.
  assert (H : genNotes buildBeatGrid_spec high_then_low None 4 1 [0.375; 0.625] =
              Some [mkNote (240 # 480) 2; mkNote (240 # 480) 1]) by reflexivity.
  split; [exact H|].
  apply (chart_well_formed buildBeatGrid_spec high_then_low None 4 1
           [0.375; 0.625] _ H).
Defined.

(** ** Note generator: default tempo *)

Lemma bpm_default (bpmEstimate : option Q) :
  no_estimate bpmEstimate -> bpm_or_default bpmEstimate = 120.
Proof.
  destruct bpmEstimate as [b|]; cbn; [|reflexivity].
  intro H. apply Qeq_bool_iff in H. rewrite H. reflexivity.
Qed.

Lemma default_window_small (subdiv : Z) :
  (60 / 120) / (inject_Z subdiv / 4) / 2 < 999.
Proof.
  destruct subdiv as [|p|p]; unfold Qlt, Qdiv, Qmult, Qinv, inject_Z;
    cbn; lia.
Qed.

(** Below 999 a candidate always carries a grid time. *)
Lemma snap_time (freqToLane : Q -> nat) (grid : list Q) (sw t : Q) (c : Candidate) :
  sw < 999 -> snap freqToLane grid sw t = Some c ->
  exists g, In g grid /\ c = mkCandidate (Some g) (freqToLane t).
Proof.
  intros Hsw. unfold snap.
  destruct (nearest_scan_start t grid) as [(Hr & _)|(g & [Hg _] & Hr & _)];
    cbv zeta in Hr; rewrite Hr; cbn [fst snd].
  - assert (E : Qltb sw 999 = true) by (apply Qltb_lt, Hsw). rewrite E.
    discriminate.
  - destruct (Qltb sw (Qabs (g - t))); [discriminate|].
    intro H. injection H as <-. exists g. split; [exact Hg|reflexivity].
Qed.

Lemma gen_candidates_timed (freqToLane : Q -> nat) (grid : list Q) (sw : Q)
    (onsets : list Q) :
  sw < 999 ->
  Forall (fun c => exists g, ctime c = Some g)
         (gen_candidates freqToLane grid sw onsets []).
Proof.
  intro Hsw. rewrite gen_candidates_flat. cbn [app].
  apply Forall_flat_map, Forall_forall. intros t _.
  destruct (snap freqToLane grid sw t) as [c|] eqn:E; [|constructor].
  destruct (snap_time _ _ _ _ _ Hsw E) as (g & _ & ->).
  repeat constructor. exists g. reflexivity.
Qed.

(** The merge loop does not throw when every candidate has a time. *)
Lemma merge_defined (candidates : list Candidate) :
  Forall (fun c => exists g, ctime c = Some g) candidates ->
  forall merged, exists merged', merge candidates merged = Some merged'.
Proof.
  induction 1 as [|c rest (g & Hg) _ IH]; intro merged; cbn [merge].
  - exists merged. reflexivity.
  - rewrite Hg. apply IH.
Qed.

(** C8.  When the estimator has no estimate, the generator builds the
    grid for 120 BPM, snaps with the window of 120 BPM, and produces a
    chart: the merge loop does not throw. *)
Theorem default_tempo_on_failure (buildBeatGrid : Q -> Z -> Q -> list Q)
    (freqToLane : Q -> nat) (bpmEstimate : option Q) (subdiv : Z)
    (duration : Q) (onsets : list Q) :
  no_estimate bpmEstimate -> subdiv <> 0%Z ->
  bpm_or_default bpmEstimate = 120 /\
  snapWindow bpmEstimate subdiv = (60 / 120) / (inject_Z subdiv / 4) / 2 /\
  exists merged,
    merge (gen_candidates freqToLane (buildBeatGrid 120 subdiv duration)
             ((60 / 120) / (inject_Z subdiv / 4) / 2) onsets []) []
      = Some merged /\
    genNotes buildBeatGrid freqToLane bpmEstimate subdiv duration onsets
      = Some (sort_notes (obj_values merged)).
Proof.
  intros He _.
  pose proof (bpm_default _ He) as Hb.
  assert (Hw : snapWindow bpmEstimate subdiv
               = (60 / 120) / (inject_Z subdiv / 4) / 2)
    by (unfold snapWindow; rewrite Hb; reflexivity).
  split; [exact Hb|]. split; [exact Hw|].
  destruct (merge_defined _
              (gen_candidates_timed freqToLane
                 (buildBeatGrid 120 subdiv duration) _ onsets
                 (default_window_small subdiv)) [])
    as [merged Hm].
  exists merged. split; [exact Hm|].
  unfold genNotes. cbv zeta. rewrite Hb, Hw, Hm. reflexivity.
Qed.

Lemma default_tempo_on_failure_witness :
  no_estimate None /\ 4%Z <> 0%Z /\
  bpm_or_default None = 120 /\
  snapWindow None 4 = (60 / 120) / (inject_Z 4 / 4) / 2.
Proof.
  assert (Hd : 4%Z <> 0%Z) by discriminate.
  split; [exact I|]. split; [exact Hd|].
  destruct (default_tempo_on_failure buildBeatGrid_spec high_then_low None 4 1
              [0.375; 0.625] I Hd) as (Hb & Hw & _).
  split; [exact Hb|exact Hw].
Defined.

(** * The judgment windows and the onset gap on doubles *)

(** ** The order on doubles *)

Lemma SFltb_trans (x y z : spec_float) :
  SFltb x y = true -> SFltb y z = true -> SFltb x z = true.
Proof. unfold SFltb, SFcompare. sf_cases; cmp_solve. Qed.

Lemma SFleb_ltb_trans (x y z : spec_float) :
  SFleb x y = true -> SFltb y z = true -> SFltb x z = true.
Proof. unfold SFltb, SFleb, SFcompare. sf_cases; cmp_solve. Qed.

Lemma SFltb_leb_trans (x y z : spec_float) :
  SFltb x y = true -> SFleb y z = true -> SFltb x z = true.
Proof. unfold SFltb, SFleb, SFcompare. sf_cases; cmp_solve. Qed.

Lemma SFltb_not_leb (x y : spec_float) : SFltb x y = true -> SFleb y x = false.
Proof. unfold SFltb, SFleb, SFcompare. sf_cases; cmp_solve. Qed.

Lemma SFltb_asym (x y : spec_float) : SFltb x y = true -> SFltb y x = false.
Proof. unfold SFltb, SFcompare. sf_cases; cmp_solve. Qed.

Lemma SFltb_irrefl (x : spec_float) : SFltb x x = false.
Proof.
  unfold SFltb, SFcompare. destruct x as [[]|[]| |[] m e]; cbn; try reflexivity;
    rewrite Z.compare_refl; cbn;
    change (PosDef.Pos.compare_cont Eq m m) with (Pos.compare m m);
    rewrite Pos.compare_refl; reflexivity.
Qed.

Section DoubleOrder.

Local Open Scope float_scope.

Lemma double_ltb_trans (x y z : float) :
  (x <? y) = true -> (y <? z) = true -> (x <? z) = true.
Proof. rewrite !ltb_spec. apply SFltb_trans. Qed.

Lemma double_leb_ltb_trans (x y z : float) :
  (x <=? y) = true -> (y <? z) = true -> (x <? z) = true.
Proof. rewrite !ltb_spec, leb_spec. apply SFleb_ltb_trans. Qed.

Lemma double_ltb_leb_trans (x y z : float) :
  (x <? y) = true -> (y <=? z) = true -> (x <? z) = true.
Proof. rewrite !ltb_spec, leb_spec. apply SFltb_leb_trans. Qed.

Lemma double_ltb_not_leb (x y : float) : (x <? y) = true -> (y <=? x) = false.
Proof. rewrite ltb_spec, leb_spec. apply SFltb_not_leb. Qed.

Lemma double_ltb_asym (x y : float) : (x <? y) = true -> (y <? x) = false.
Proof. rewrite !ltb_spec. apply SFltb_asym. Qed.

Lemma double_ltb_irrefl (x : float) : (x <? x) = false.
Proof. rewrite ltb_spec. apply SFltb_irrefl. Qed.

(** Not below a bound: not below anything under the bound either. *)
Lemma double_not_ltb_below (x y z : float) :
  (x <? y) = false -> (z <? y) = true -> (x <? z) = false /\ (x <=? z) = false.
Proof.
  intros Hxy Hzy. split.
  - destruct (x <? z) eqn:E; [|reflexivity].
    rewrite (double_ltb_trans _ _ _ E Hzy) in Hxy. discriminate.
  - destruct (x <=? z) eqn:E; [|reflexivity].
    rewrite (double_leb_ltb_trans _ _ _ E Hzy) in Hxy. discriminate.
Qed.

End DoubleOrder.

(** ** The scan of [handleHit] on doubles *)

Section DoubleJudgment.

Import Double.
Local Open Scope float_scope.

Lemma reaches_start (ln : nat) (now : float) (chart : list Note) (idx : nat) :
  reaches ln now chart idx idx.
Proof. split; [lia|]. intros j m Hj. lia. Qed.

Lemma reaches_tail (ln : nat) (now : float) (n : Note) (rest : list Note) (j : nat) :
  reaches ln now (n :: rest) 0 (S j) -> reaches ln now rest 0 j.
Proof.
  intros [_ H]. split; [lia|]. intros j' m Hj Hn Hl.
  apply (H (S j') m); [lia|exact Hn|exact Hl].
Qed.

Lemma reaches_head (ln : nat) (now : float) (n : Note) (rest : list Note) (j : nat) :
  reaches ln now (n :: rest) 0 (S j) -> lane n = ln ->
  (0.30 <? time n - now) = false.
Proof. intros [_ H] Hl. apply (H 0%nat n); [lia|reflexivity|exact Hl]. Qed.

Lemma reaches_cons (ln : nat) (now : float) (n : Note) (rest : list Note) (j : nat) :
  (lane n = ln -> (0.30 <? time n - now) = false) ->
  reaches ln now rest 0 j -> reaches ln now (n :: rest) 0 (S j).
Proof.
  intros Hn [_ H]. split; [lia|]. intros [|j'] m Hj Hm Hl.
  - cbn in Hm. injection Hm as <-. apply Hn, Hl.
  - apply (H j' m); [lia|exact Hm|exact Hl].
Qed.

(** What the scan returns: the initial best, no note it reaches being
    closer; or the first of the closest notes of the lane it reaches. *)
Lemma double_scan_spec (ln : nat) (now : float) (rest : list Note) :
  forall i bestIdx bestDiff,
    let r := scan ln now rest i bestIdx bestDiff in
    (r = (bestIdx, bestDiff) /\
     forall j m, nth_error rest j = Some m -> lane m = ln ->
                 reaches ln now rest 0 j ->
                 (distance now m <? bestDiff) = false)
    \/
    (exists k m, nth_error rest k = Some m /\ lane m = ln /\
       r = (Some (i + k)%nat, distance now m) /\
       (distance now m <? bestDiff) = true /\ reaches ln now rest 0 k /\
       forall j m', nth_error rest j = Some m' -> lane m' = ln ->
                    reaches ln now rest 0 j ->
         (distance now m' <? distance now m) = false /\
         ((j < k)%nat -> (distance now m' <=? distance now m) = false)).
Proof.
  induction rest as [|n rest IH]; intros i bestIdx bestDiff; cbn [scan]; cbv zeta.
  - left. split; [reflexivity|]. intros [|j] m H; discriminate.
  - destruct (Nat.eqb (lane n) ln) eqn:El; cbn [negb].
    + apply Nat.eqb_eq in El.
      fold (distance now n). change missWindow with 0.30.
      destruct (distance now n <? bestDiff) eqn:Ed;
        destruct (0.30 <? time n - now) eqn:Eb; cbn [fst snd].
      * (* closer, and the loop breaks *)
        right. exists 0%nat, n. rewrite Nat.add_0_r.
        split; [reflexivity|]. split; [exact El|]. split; [reflexivity|].
        split; [exact Ed|]. split; [apply reaches_start|].
        intros [|j] m' Hm' Hl' Hre'.
        -- cbn in Hm'. injection Hm' as <-.
           split; [apply double_ltb_irrefl|intro; lia].
        -- apply reaches_head in Hre'; [congruence|exact El].
      * (* closer, and the loop goes on *)
        right.
        destruct (IH (S i) (Some i) (distance now n))
          as [(Hr & Hall)|(k & m & Hk & Hl & Hr & Hlt & Hre & Hall)];
          cbv zeta in Hr; rewrite Hr.
        -- exists 0%nat, n. rewrite Nat.add_0_r.
           split; [reflexivity|]. split; [exact El|]. split; [reflexivity|].
           split; [exact Ed|]. split; [apply reaches_start|].
           intros [|j] m' Hm' Hl' Hre'.
           ++ cbn in Hm'. injection Hm' as <-.
              split; [apply double_ltb_irrefl|intro; lia].
           ++ split; [|intro; lia].
              apply (Hall j m' Hm' Hl'). eapply reaches_tail; exact Hre'.
        -- exists (S k), m. replace (i + S k)%nat with (S i + k)%nat by lia.
           split; [exact Hk|]. split; [exact Hl|]. split; [reflexivity|].
           split; [eapply double_ltb_trans; eassumption|].
           split; [apply reaches_cons; [intros _; exact Eb|exact Hre]|].
           intros [|j] m' Hm' Hl' Hre'.
           ++ cbn in Hm'. injection Hm' as <-.
              split; [apply double_ltb_asym, Hlt|intros _; apply double_ltb_not_leb, Hlt].
           ++ destruct (Hall j m' Hm' Hl' (reaches_tail _ _ _ _ _ Hre')) as [H1 H2].
              split; [exact H1|intro; apply H2; lia].
      * (* not closer, and the loop breaks *)
        left. split; [reflexivity|].
        intros [|j] m Hm Hl Hre.
        -- cbn in Hm. injection Hm as <-. exact Ed.
        -- apply reaches_head in Hre; [congruence|exact El].
      * (* not closer, and the loop goes on *)
        destruct (IH (S i) bestIdx bestDiff)
          as [(Hr & Hall)|(k & m & Hk & Hl & Hr & Hlt & Hre & Hall)];
          cbv zeta in Hr; rewrite Hr.
        -- left. split; [reflexivity|].
           intros [|j] m Hm Hl Hre.
           ++ cbn in Hm. injection Hm as <-. exact Ed.
           ++ apply (Hall j m Hm Hl). eapply reaches_tail; exact Hre.
        -- right. exists (S k), m. replace (i + S k)%nat with (S i + k)%nat by lia.
           split; [exact Hk|]. split; [exact Hl|]. split; [reflexivity|].
           split; [exact Hlt|].
           split; [apply reaches_cons; [intros _; exact Eb|exact Hre]|].
           intros [|j] m' Hm' Hl' Hre'.
           ++ cbn in Hm'. injection Hm' as <-.
              destruct (double_not_ltb_below _ _ _ Ed Hlt) as [H1 H2].
              split; [exact H1|intros _; exact H2].
           ++ destruct (Hall j m' Hm' Hl' (reaches_tail _ _ _ _ _ Hre')) as [H1 H2].
              split; [exact H1|intro; apply H2; lia].
    + (* a note of another lane *)
      apply Nat.eqb_neq in El.
      destruct (IH (S i) bestIdx bestDiff)
        as [(Hr & Hall)|(k & m & Hk & Hl & Hr & Hlt & Hre & Hall)];
        cbv zeta in Hr; rewrite Hr.
      * left. split; [reflexivity|].
        intros [|j] m Hm Hl Hre.
        -- cbn in Hm. injection Hm as <-. contradiction.
        -- apply (Hall j m Hm Hl). eapply reaches_tail; exact Hre.
      * right. exists (S k), m. replace (i + S k)%nat with (S i + k)%nat by lia.
        split; [exact Hk|]. split; [exact Hl|]. split; [reflexivity|].
        split; [exact Hlt|].
        split; [apply reaches_cons; [intro; contradiction|exact Hre]|].
        intros [|j] m' Hm' Hl' Hre'.
        -- cbn in Hm'. injection Hm' as <-. contradiction.
        -- destruct (Hall j m' Hm' Hl' (reaches_tail _ _ _ _ _ Hre')) as [H1 H2].
           split; [exact H1|intro; apply H2; lia].
Qed.


Lemma reaches_skipn (ln : nat) (now : float) (chart : list Note) (idx k : nat) :
  reaches ln now (skipn idx chart) 0 k <-> reaches ln now chart idx (idx + k).
Proof.
  unfold reaches. split; intros [_ H]; (split; [lia|]); intros j m Hj Hm Hl.
  - apply (H (j - idx)%nat m); [lia| |exact Hl].
    rewrite nth_error_skipn. replace (idx + (j - idx))%nat with j by lia. exact Hm.
  - apply (H (idx + j)%nat m); [lia| |exact Hl].
    rewrite nth_error_skipn in Hm. exact Hm.
Qed.

(** What [find_best] returns, in terms of the chart. *)
Lemma double_find_best_spec (ln : nat) (now : float) (s : Player) :
  (fst (find_best ln now s) = None /\
   forall j m, nth_error (notes s) j = Some m -> lane m = ln ->
               reaches ln now (notes s) (idxNextNote s) j ->
               (distance now m <? 999) = false)
  \/
  (exists i n, find_best ln now s = (Some i, distance now n) /\
     nth_error (notes s) i = Some n /\ lane n = ln /\
     (distance now n <? 999) = true /\
     reaches ln now (notes s) (idxNextNote s) i /\
     forall j m, nth_error (notes s) j = Some m -> lane m = ln ->
                 reaches ln now (notes s) (idxNextNote s) j ->
       (distance now m <? distance now n) = false /\
       ((j < i)%nat -> (distance now m <=? distance now n) = false)).
Proof.
  unfold find_best.
  destruct (double_scan_spec ln now (skipn (idxNextNote s) (notes s))
              (idxNextNote s) None 999)
    as [(Hr & Hall)|(k & m & Hk & Hl & Hr & Hlt & Hre & Hall)];
    cbv zeta in Hr; rewrite Hr; cbn [fst].
  - left. split; [reflexivity|]. intros j n Hn Hl Hre.
    assert (Hj : (idxNextNote s <= j)%nat) by apply Hre.
    apply (Hall (j - idxNextNote s)%nat n).
    + rewrite nth_error_skipn.
      replace (idxNextNote s + (j - idxNextNote s))%nat with j by lia. exact Hn.
    + exact Hl.
    + apply reaches_skipn.
      replace (idxNextNote s + (j - idxNextNote s))%nat with j by lia. exact Hre.
  - right. exists (idxNextNote s + k)%nat, m.
    rewrite nth_error_skipn in Hk.
    split; [reflexivity|]. split; [exact Hk|]. split; [exact Hl|].
    split; [exact Hlt|]. split; [apply reaches_skipn, Hre|].
    intros j n Hn Hln Hren.
    assert (Hj : (idxNextNote s <= j)%nat) by apply Hren.
    destruct (Hall (j - idxNextNote s)%nat n) as [H1 H2].
    + rewrite nth_error_skipn.
      replace (idxNextNote s + (j - idxNextNote s))%nat with j by lia. exact Hn.
    + exact Hln.
    + apply reaches_skipn.
      replace (idxNextNote s + (j - idxNextNote s))%nat with j by lia. exact Hren.
    + split; [exact H1|]. intro Hlt'. apply H2. lia.
Qed.

Lemma double_handleHit_unfold (ln : nat) (currentTime : float) (s : Player)
    (i : nat) (n : Note) :
  fst (find_best ln (currentTime - startTime s) s) = Some i ->
  nth_error (notes s) i = Some n ->
  handleHit ln currentTime s =
    if distance (currentTime - startTime s) n <=? 0.08 then
      (consume 1000 i s, Perfect)
    else if distance (currentTime - startTime s) n <=? 0.18 then
      (consume 500 i s, Good)
    else (with_combo 0 s, Miss).
Proof.
  intros Hb Hn. unfold handleHit. cbv zeta. rewrite Hb, Hn. reflexivity.
Qed.

Lemma double_handleHit_none (ln : nat) (currentTime : float) (s : Player) :
  fst (find_best ln (currentTime - startTime s) s) = None ->
  handleHit ln currentTime s = (with_combo 0 s, Miss).
Proof. intro Hb. unfold handleHit. cbv zeta. rewrite Hb. reflexivity. Qed.

(** C1.  One press of lane [ln], the playback time being
    [now = currentTime - startTime] and [d] the distance
    [Math.abs(n.time - now)] the code computes, all in doubles.  Either
    the chart is [pre ++ n :: post] with [n] a note of the lane that the
    scan reaches, less than 999 away, no reached note of the lane closer
    and every earlier one farther; then [d <= 0.08] is a Perfect with
    score + 1000, combo + 1 and the chart [pre ++ post]; otherwise
    [d <= 0.18] is a Good with score + 500, combo + 1 and the chart
    [pre ++ post]; otherwise a Miss with combo 0, score and chart as they
    were.  Or the scan reaches no note of the lane less than 999 away:
    a Miss with combo 0, score and chart as they were. *)
Theorem handleHit_judgment (ln : nat) (currentTime : float) (s : Player) :
  let now := currentTime - startTime s in
  let d := fun n : Note => abs (time n - now) in
  let reached := reaches ln now (notes s) (idxNextNote s) in
  (exists pre n post,
     notes s = pre ++ n :: post /\ lane n = ln /\ reached (length pre) /\
     (d n <? 999) = true /\
     (forall j m, nth_error (notes s) j = Some m -> lane m = ln -> reached j ->
        (d m <? d n) = false /\
        ((j < length pre)%nat -> (d m <=? d n) = false)) /\
     handleHit ln currentTime s =
       if d n <=? 0.08 then
         (after_press s (pre ++ post) (score s + 1000) (combo s + 1), Perfect)
       else if d n <=? 0.18 then
         (after_press s (pre ++ post) (score s + 500) (combo s + 1), Good)
       else (after_press s (notes s) (score s) 0, Miss))
  \/
  ((forall j m, nth_error (notes s) j = Some m -> lane m = ln -> reached j ->
      (d m <? 999) = false) /\
   handleHit ln currentTime s = (after_press s (notes s) (score s) 0, Miss)).
Proof.
  cbv zeta.
  destruct (double_find_best_spec ln (currentTime - startTime s) s)
    as [(Hb & Hall)|(i & n & Hb & Hn & Hl & Hlt & Hre & Hall)].
  - right. split; [exact Hall|]. apply double_handleHit_none, Hb.
  - left.
    assert (Hi : (i < length (notes s))%nat) by (apply nth_error_Some; congruence).
    assert (Hlen : length (firstn i (notes s)) = i)
      by (rewrite length_firstn; lia).
    exists (firstn i (notes s)), n, (skipn (S i) (notes s)).
    rewrite Hlen.
    split; [symmetry; apply firstn_skipn_middle, Hn|]. split; [exact Hl|].
    split; [exact Hre|]. split; [exact Hlt|]. split; [exact Hall|].
    rewrite (double_handleHit_unfold ln currentTime s i n);
      [reflexivity|rewrite Hb; reflexivity|exact Hn].
Qed.

(** The windows are those of the doubles the code computes.  With the
    note at 0 the distance is the clock. *)
Example press_at_perfect_edge :
  handleHit 0 0.08 note_at_zero = (consume 1000 0 note_at_zero, Perfect).
Proof. reflexivity. Qed.

Example press_past_perfect_edge :
  handleHit 0 0.0801 note_at_zero = (consume 500 0 note_at_zero, Good).
Proof. reflexivity. Qed.

Example press_at_good_edge :
  handleHit 0 0.18 note_at_zero = (consume 500 0 note_at_zero, Good).
Proof. reflexivity. Qed.

Example press_past_good_edge :
  handleHit 0 0.1801 note_at_zero = (with_combo 0 note_at_zero, Miss).
Proof. reflexivity. Qed.

(** With the note at 1 the subtraction rounds: a press at 1.08 computes
    a distance above the double 0.08 and is a Good, a press at 0.82 one
    above the double 0.18 and is a Miss. *)
Example press_at_rounded_perfect_edge :
  (abs (1 - 1.08) <=? 0.08) = false /\
  handleHit 0 1.08 one_note = (consume 500 0 one_note, Good).
Proof. split; reflexivity. Qed.

Example press_at_rounded_good_edge :
  (abs (1 - 0.82) <=? 0.18) = false /\
  handleHit 0 0.82 one_note = (with_combo 0 one_note, Miss).
Proof. split; reflexivity. Qed.

(** A note of another lane is no candidate. *)
Example press_other_lane_double :
  handleHit 1 1 one_note = (with_combo 0 one_note, Miss).
Proof. reflexivity. Qed.

(** C6, as stated, fails: a Perfect updates the score and the combo. *)
Lemma perfect_updates_score_and_combo :
  snd (handleHit 0 1 one_note) = Perfect /\
  score one_note = 0%Z /\ combo one_note = 5%Z /\
  score (fst (handleHit 0 1 one_note)) = 1000%Z /\
  combo (fst (handleHit 0 1 one_note)) = 6%Z /\
  notes (fst (handleHit 0 1 one_note)) = [].
Proof. repeat split; reflexivity. Qed.

(** C6, amended.  One press leaves the cursor, the clock origin and the
    flags alone, and what it writes goes with its outcome: a Perfect adds
    1000 to the score and 1 to the combo and removes exactly one note, a
    note of the pressed lane; a Good does the same with 500; a Miss sets
    the combo to 0 and leaves score and chart as they were. *)
Theorem handleHit_effects (ln : nat) (currentTime : float) (s : Player) :
  let s' := fst (handleHit ln currentTime s) in
  (idxNextNote s' = idxNextNote s /\ startTime s' = startTime s /\
   playing s' = playing s /\ audioBuffer s' = audioBuffer s) /\
  match snd (handleHit ln currentTime s) with
  | Perfect =>
      score s' = (score s + 1000)%Z /\ combo s' = (combo s + 1)%Z /\
      exists pre n post,
        notes s = pre ++ n :: post /\ lane n = ln /\ notes s' = pre ++ post
  | Good =>
      score s' = (score s + 500)%Z /\ combo s' = (combo s + 1)%Z /\
      exists pre n post,
        notes s = pre ++ n :: post /\ lane n = ln /\ notes s' = pre ++ post
  | Miss =>
      score s' = score s /\ combo s' = 0%Z /\ notes s' = notes s
  end.
Proof.
  cbv zeta.
  destruct (double_find_best_spec ln (currentTime - startTime s) s)
    as [(Hb & _)|(i & n & Hb & Hn & Hl & _)].
  - rewrite (double_handleHit_none _ _ _ Hb). cbn. auto 10.
  - assert (Hsplit : exists pre n0 post,
              notes s = pre ++ n0 :: post /\ lane n0 = ln /\
              splice1 i (notes s) = pre ++ post).
    { exists (firstn i (notes s)), n, (skipn (S i) (notes s)).
      split; [symmetry; apply firstn_skipn_middle, Hn|]. split; [exact Hl|].
      reflexivity. }
    rewrite (double_handleHit_unfold ln currentTime s i n);
      [|rewrite Hb; reflexivity|exact Hn].
    destruct (_ <=? 0.08); [|destruct (_ <=? 0.18)];
      cbn [fst snd consume with_combo score combo notes idxNextNote startTime
           playing audioBuffer]; auto 10.
Qed.

End DoubleJudgment.

(** ** Subtraction and the order on doubles *)

Section Rounding.

Local Open Scope Z_scope.

(** iter_pos is iteration *)
Lemma iter_pos_nat {A : Type} (f : A -> A) (p : positive) (x : A) :
  SpecFloat.iter_pos f p x = Nat.iter (Pos.to_nat p) f x.
Proof.
  revert x. induction p as [p IH|p IH|]; intro x; cbn [SpecFloat.iter_pos].
  - rewrite !IH, Pos2Nat.inj_xI.
    replace (S (2 * Pos.to_nat p))%nat
      with (Pos.to_nat p + (Pos.to_nat p + 1))%nat by lia.
    rewrite !Nat.iter_add. reflexivity.
  - rewrite !IH, Pos2Nat.inj_xO.
    replace (2 * Pos.to_nat p)%nat with (Pos.to_nat p + Pos.to_nat p)%nat by lia.
    rewrite Nat.iter_add. reflexivity.
  - reflexivity.
Qed.

Lemma shr_1_nonneg (m : Z) (r s : bool) :
  0 <= m ->
  shr_1 (Build_shr_record m r s) = Build_shr_record (m / 2) (Z.odd m) (r || s).
Proof.
  intro Hm. unfold shr_1.
  destruct m as [|[p|p|]|p]; try lia; try reflexivity.
  - rewrite Pos2Z.inj_xI. f_equal.
    rewrite Z.mul_comm, Z.div_add_l by lia. reflexivity.
  - rewrite Pos2Z.inj_xO. f_equal.
    rewrite Z.mul_comm, Z.div_mul by lia. reflexivity.
Qed.

Lemma shr_iter (k : nat) (m : Z) :
  0 <= m ->
  Nat.iter (S k) shr_1 (Build_shr_record m false false) =
  Build_shr_record (m / 2 ^ Z.of_nat (S k))
    (Z.odd (m / 2 ^ Z.of_nat k))
    (negb (m mod 2 ^ Z.of_nat k =? 0)).
Proof.
  intro Hm. induction k as [|k IH].
  - cbn [Nat.iter]. rewrite shr_1_nonneg by exact Hm.
    change (2 ^ Z.of_nat 1) with 2. change (2 ^ Z.of_nat 0) with 1.
    rewrite Z.div_1_r, Z.mod_1_r. reflexivity.
  - change (Nat.iter (S (S k)) shr_1 ?x) with (shr_1 (Nat.iter (S k) shr_1 x)).
    rewrite IH.
    assert (Hp : 0 < 2 ^ Z.of_nat k) by (apply Z.pow_pos_nonneg; lia).
    assert (Hp1 : 2 ^ Z.of_nat (S k) = 2 * 2 ^ Z.of_nat k)
      by (rewrite Nat2Z.inj_succ, Z.pow_succ_r; lia).
    assert (Hp2 : 2 ^ Z.of_nat (S (S k)) = 2 ^ Z.of_nat (S k) * 2)
      by (rewrite (Nat2Z.inj_succ (S k)), Z.pow_succ_r; lia).
    rewrite shr_1_nonneg by (apply Z.div_pos; lia).
    f_equal.
    + rewrite Hp2, Z.div_div by lia. reflexivity.
    + (* sticky *)
      rewrite Hp1.
      rewrite Z.mul_comm at 1.
      rewrite Z.rem_mul_r by lia.
      assert (H2 : 0 <= (m / 2 ^ Z.of_nat k) mod 2 < 2) by (apply Z.mod_pos_bound; lia).
      assert (Hr : 0 <= m mod 2 ^ Z.of_nat k < 2 ^ Z.of_nat k)
        by (apply Z.mod_pos_bound; lia).
      rewrite Zodd_mod. 
      destruct (Z.eqb_spec ((m / 2 ^ Z.of_nat k) mod 2) 1) as [E|E];
      destruct (Z.eqb_spec (m mod 2 ^ Z.of_nat k) 0) as [E0|E0]; cbn;
      match goal with
      | |- _ = negb (?x =? 0) => destruct (Z.eqb_spec x 0)
      end; cbn; try reflexivity; nia.
Qed.

Lemma digits2_bounds (m : positive) :
  (2 ^ (Zpos (digits2_pos m) - 1) <= Zpos m < 2 ^ Zpos (digits2_pos m))%Z.
Proof.
  induction m as [m IH|m IH|]; cbn [digits2_pos].
  - rewrite Pos2Z.inj_succ.
    replace (Z.succ (Zpos (digits2_pos m)) - 1)%Z
      with (Z.succ (Zpos (digits2_pos m) - 1)) by lia.
    rewrite !Z.pow_succ_r by lia. lia.
  - rewrite Pos2Z.inj_succ.
    replace (Z.succ (Zpos (digits2_pos m)) - 1)%Z
      with (Z.succ (Zpos (digits2_pos m) - 1)) by lia.
    rewrite !Z.pow_succ_r by lia. lia.
  - cbn. lia.
Qed.

Lemma Zdigits2_bounds (N : Z) :
  0 < N -> 0 < Zdigits2 N /\ 2 ^ (Zdigits2 N - 1) <= N < 2 ^ Zdigits2 N.
Proof.
  destruct N as [|p|p]; try lia. intros _. cbn [Zdigits2].
  split; [lia|apply digits2_bounds].
Qed.

Lemma Zdigits2_unique (N d : Z) :
  0 < N -> 2 ^ (d - 1) <= N < 2 ^ d -> Zdigits2 N = d.
Proof.
  intros HN [Hlo Hhi].
  destruct (Zdigits2_bounds N HN) as (Hpos & Hlo' & Hhi').
  assert (Hd : 0 < d).
  { destruct (Z.ltb_spec 0 d); [assumption|].
    exfalso. destruct (Z.eq_dec d 0) as [->|]; [cbn in Hhi; lia|].
    rewrite Z.pow_neg_r in Hhi by lia. lia. }
  destruct (Z.lt_trichotomy (Zdigits2 N) d) as [H|[H|H]]; [|exact H|]; exfalso.
  - assert (2 ^ Zdigits2 N <= 2 ^ (d - 1)) by (apply Z.pow_le_mono_r; lia). lia.
  - assert (2 ^ d <= 2 ^ (Zdigits2 N - 1)) by (apply Z.pow_le_mono_r; lia). lia.
Qed.

Lemma Zdigits2_shift (N j : Z) :
  0 < N -> 0 <= j -> Zdigits2 (N * 2 ^ j) = Zdigits2 N + j.
Proof.
  intros HN Hj.
  destruct (Zdigits2_bounds N HN) as (Hpos & Hlo & Hhi).
  assert (Hp : 0 < 2 ^ j) by (apply Z.pow_pos_nonneg; lia).
  apply Zdigits2_unique; [nia|].
  replace (Zdigits2 N + j - 1) with ((Zdigits2 N - 1) + j) by lia.
  rewrite !Z.pow_add_r by lia. nia.
Qed.

Lemma Zdigits2_mono (N M : Z) : 0 < N -> N <= M -> Zdigits2 N <= Zdigits2 M.
Proof.
  intros HN HM.
  destruct (Zdigits2_bounds N HN) as (Hpos & Hlo & Hhi).
  destruct (Zdigits2_bounds M ltac:(lia)) as (Hpos' & Hlo' & Hhi').
  destruct (Z.le_gt_cases (Zdigits2 N) (Zdigits2 M)) as [H|H]; [exact H|exfalso].
  assert (2 ^ Zdigits2 M <= 2 ^ (Zdigits2 N - 1)) by (apply Z.pow_le_mono_r; lia).
  lia.
Qed.

Lemma rne_div_scale (a b c : Z) :
  0 < b -> 0 < c -> rne_div (a * c) (b * c) = rne_div a b.
Proof.
  intros Hb Hc. unfold rne_div.
  rewrite Z.div_mul_cancel_r by lia.
  rewrite Z.mul_mod_distr_r by lia.
  replace (2 * (a mod b * c)) with (2 * (a mod b) * c) by lia.
  rewrite <- Zmult_compare_compat_r by lia. reflexivity.
Qed.

Lemma rne_div_exact (a b : Z) : 0 < b -> rne_div (a * b) b = a.
Proof.
  intro Hb. unfold rne_div. rewrite Z.mod_mul, Z.div_mul by lia.
  change (2 * 0) with 0. destruct (Z.compare_spec 0 b); lia.
Qed.

(** What the round and sticky bits of a right shift stand for. *)
Lemma round_shifted (m : Z) (k : nat) :
  0 <= m ->
  round_nearest_even (m / 2 ^ Z.of_nat (S k))
    (loc_of_shr_record
       (Build_shr_record (m / 2 ^ Z.of_nat (S k))
          (Z.odd (m / 2 ^ Z.of_nat k))
          (negb (m mod 2 ^ Z.of_nat k =? 0))))
  = rne_div m (2 ^ Z.of_nat (S k)).
Proof.
  intro Hm.
  assert (Hp : 0 < 2 ^ Z.of_nat k) by (apply Z.pow_pos_nonneg; lia).
  assert (Hp1 : 2 ^ Z.of_nat (S k) = 2 ^ Z.of_nat k * 2)
    by (rewrite Nat2Z.inj_succ, Z.pow_succ_r; lia).
  unfold rne_div. rewrite Hp1.
  rewrite Z.rem_mul_r by lia.
  rewrite <- Z.div_div by lia.
  set (a := m / 2 ^ Z.of_nat k). set (b := m mod 2 ^ Z.of_nat k).
  assert (Hb : 0 <= b < 2 ^ Z.of_nat k) by (apply Z.mod_pos_bound; lia).
  assert (Ha : 0 <= a mod 2 < 2) by (apply Z.mod_pos_bound; lia).
  rewrite Zodd_mod.
  destruct (Z.eqb_spec (a mod 2) 1) as [E|E];
    destruct (Z.eqb_spec b 0) as [E0|E0]; cbn [negb loc_of_shr_record round_nearest_even].
  - rewrite E, E0.
    replace (2 * (0 + 2 ^ Z.of_nat k * 1)) with (2 ^ Z.of_nat k * 2) by lia.
    rewrite Z.compare_refl. reflexivity.
  - destruct (Z.compare_spec (2 * (b + 2 ^ Z.of_nat k * (a mod 2))) (2 ^ Z.of_nat k * 2));
      first [nia|reflexivity].
  - destruct (Z.compare_spec (2 * (b + 2 ^ Z.of_nat k * (a mod 2))) (2 ^ Z.of_nat k * 2));
      first [nia|reflexivity].
  - destruct (Z.compare_spec (2 * (b + 2 ^ Z.of_nat k * (a mod 2))) (2 ^ Z.of_nat k * 2));
      first [nia|reflexivity].
Qed.

Lemma shl_align_le (m : positive) (e e' : Z) :
  e' <= e ->
  exists mz, shl_align m e e' = (mz, e') /\ Zpos mz = Zpos m * 2 ^ (e - e').
Proof.
  intro H. unfold shl_align.
  destruct (e' - e)%Z as [|d|d] eqn:E.
  - exists m. replace e' with e by lia. rewrite Z.sub_diag. split; [reflexivity|lia].
  - lia.
  - exists (Pos.iter xO m d). split; [reflexivity|].
    change (Pos.iter xO m d) with (shift_pos d m).
    rewrite shift_pos_correct.
    replace (e - e')%Z with (Zpos d) by lia.
    change (Z.pow_pos 2 d) with (2 ^ Zpos d)%Z. lia.
Qed.

Lemma shl_align_gt (m : positive) (e e' : Z) :
  e < e' -> shl_align m e e' = (m, e).
Proof.
  intro H. unfold shl_align. destruct (e' - e) eqn:E; try lia; reflexivity.
Qed.

Lemma fexp64 (x : Z) : fexp prec emax x = Z.max (x - 53) (-1074).
Proof. reflexivity. Qed.

(** Rounding an integer mantissa is rounding its value to the nearest double. *)
Lemma binary_round_nearest (m : positive) (e : Z) :
  -1074 <= e ->
  binary_round prec emax false m e = nearest_double (Zpos m * 2 ^ (e + 1074)).
Proof.
  intro He.
  set (d := Zpos (digits2_pos m)).
  set (E := Z.max (d + e - 53) (-1074)).
  set (N := Zpos m * 2 ^ (e + 1074)).
  assert (Hpe : 0 < 2 ^ (e + 1074)) by (apply Z.pow_pos_nonneg; lia).
  assert (HN : 0 < N) by (subst N; nia).
  assert (HdN : Zdigits2 N = d + e + 1074).
  { subst N. rewrite Zdigits2_shift by lia. change (Zdigits2 (Zpos m)) with d. lia. }
  assert (Hs : dropped_bits N = E + 1074).
  { unfold dropped_bits. rewrite HdN. subst E. lia. }
  destruct (digits2_bounds m) as [Hlo Hhi]. fold d in Hlo, Hhi.
  assert (Hd : 0 < d) by (subst d; lia).
  unfold binary_round. rewrite fexp64. fold d. fold E.
  unfold nearest_double, nearest_mantissa. rewrite Hs. fold N.
  destruct (Z.le_gt_cases E e) as [HE|HE].
  - (* nothing is dropped *)
    destruct (shl_align_le m e E HE) as (mz & -> & Hmz).
    assert (Hpz : 0 < 2 ^ (e - E)) by (apply Z.pow_pos_nonneg; lia).
    assert (Hdz : Zdigits2 (Zpos mz) = d + (e - E)).
    { rewrite Hmz, Zdigits2_shift by lia. change (Zdigits2 (Zpos m)) with d. lia. }
    assert (HNz : N = Zpos mz * 2 ^ (E + 1074)).
    { subst N. rewrite Hmz, <- Z.mul_assoc, <- Z.pow_add_r by lia.
      f_equal. f_equal. lia. }
    assert (Hzlt : Zpos mz < 2 ^ 53).
    { destruct (Zdigits2_bounds (Zpos mz) ltac:(lia)) as (_ & _ & H).
      eapply Z.lt_le_trans; [exact H|]. apply Z.pow_le_mono_r; lia. }
    unfold binary_round_aux, shr_fexp.
    rewrite Hdz, fexp64.
    replace (Z.max (d + (e - E) + E - 53) (-1074) - E) with 0 by (subst E; lia).
    cbn [shr shr_record_of_loc shr_m loc_of_shr_record round_nearest_even].
    rewrite Hdz, fexp64.
    replace (Z.max (d + (e - E) + E - 53) (-1074) - E) with 0 by (subst E; lia).
    cbn [shr shr_record_of_loc shr_m].
    rewrite HNz, rne_div_exact by (apply Z.pow_pos_nonneg; lia).
    destruct (Z.eqb_spec (Zpos mz) (2 ^ 53)) as [Hk|Hk]; [lia|].
    cbn [fst snd]. replace (E + 1074 - 1074) with E by lia.
    change (emax - prec) with 971. rewrite Pos2Z.id. reflexivity.
  - (* low bits are dropped *)
    rewrite shl_align_gt by exact HE.
    assert (HEv : E = d + e - 53) by (subst E; lia).
    assert (Hn : 0 < E - e) by lia.
    unfold binary_round_aux, shr_fexp.
    cbn [Zdigits2]. fold d. rewrite fexp64. fold E.
    destruct (E - e) as [|p|p] eqn:En; try lia.
    cbn [shr shr_record_of_loc].
    rewrite iter_pos_nat.
    pose proof (Pos2Nat.is_pos p) as Hpp.
    destruct (Pos.to_nat p) as [|k] eqn:Ek; [lia|]. clear Hpp.
    assert (Hk : Z.of_nat (S k) = Zpos p)
      by (rewrite <- Ek; apply positive_nat_Z).
    rewrite shr_iter by lia.
    cbn [shr_m]. rewrite round_shifted by lia.
    rewrite Hk.
    assert (Hp2 : 0 < 2 ^ Zpos p) by (apply Z.pow_pos_nonneg; lia).
    assert (Hrn : rne_div N (2 ^ (E + 1074)) = rne_div (Zpos m) (2 ^ Zpos p)).
    { subst N. replace (E + 1074) with (Zpos p + (e + 1074)) by lia.
      rewrite (Z.pow_add_r 2 (Zpos p) (e + 1074)) by lia.
      apply rne_div_scale; lia. }
    rewrite Hrn.
    set (q := Zpos m / 2 ^ Zpos p).
    assert (Hq : 2 ^ 52 <= q < 2 ^ 53).
    { assert (Hdp : d = Zpos p + 53) by lia.
      assert (H1 : 2 ^ (d - 1) = 2 ^ 52 * 2 ^ Zpos p).
      { rewrite <- Z.pow_add_r by lia. f_equal. lia. }
      assert (H2 : 2 ^ d = 2 ^ 53 * 2 ^ Zpos p).
      { rewrite <- Z.pow_add_r by lia. f_equal. lia. }
      subst q. split.
      - apply Z.div_le_lower_bound; lia.
      - apply Z.div_lt_upper_bound; lia. }
    set (k' := rne_div (Zpos m) (2 ^ Zpos p)).
    assert (Hk' : q <= k' <= q + 1).
    { subst k' q. unfold rne_div.
      destruct (2 * (Zpos m mod 2 ^ Zpos p) ?= 2 ^ Zpos p); [|lia|lia].
      destruct (Z.even _); lia. }
    replace (e + Zpos p) with E by lia.
    destruct (Z.eqb_spec k' (2 ^ 53)) as [Ek'|Ek'].
    + rewrite Ek'. cbn [fst snd].
      change (Zdigits2 (2 ^ 53)) with 54. rewrite fexp64.
      replace (Z.max (54 + E - 53) (-1074) - E) with 1 by lia.
      cbn [shr SpecFloat.iter_pos]. 
      change (shr_m (shr_1 (shr_record_of_loc (2 ^ 53) loc_Exact))) with (2 ^ 52).
      replace (E + 1074 + 1 - 1074) with (E + 1) by lia.
      change (emax - prec) with 971. reflexivity.
    + assert (Hdk : Zdigits2 k' = 53).
      { apply Zdigits2_unique; [lia|]. change (53 - 1) with 52. lia. }
      rewrite Hdk, fexp64.
      replace (Z.max (53 + E - 53) (-1074) - E) with 0 by lia.
      cbn [shr shr_record_of_loc shr_m fst snd].
      replace (E + 1074 - 1074) with E by lia.
      change (emax - prec) with 971.
      destruct k' as [|pk|pk]; try lia. reflexivity.
Qed.

Lemma rne_div_bounds (N S : Z) : N / S <= rne_div N S <= N / S + 1.
Proof.
  unfold rne_div. destruct (2 * (N mod S) ?= S); [|lia|lia].
  destruct (Z.even _); lia.
Qed.

Lemma rne_div_mono (N1 N2 S : Z) :
  0 < S -> N1 <= N2 -> rne_div N1 S <= rne_div N2 S.
Proof.
  intros HS HN.
  assert (Hq : N1 / S <= N2 / S) by (apply Z.div_le_mono; lia).
  destruct (Z.eq_dec (N1 / S) (N2 / S)) as [E|E].
  - assert (Hr : N1 mod S <= N2 mod S).
    { pose proof (Z.div_mod N1 S ltac:(lia)).
      pose proof (Z.div_mod N2 S ltac:(lia)). nia. }
    unfold rne_div. rewrite E.
    destruct (Z.compare_spec (2 * (N1 mod S)) S);
      destruct (Z.compare_spec (2 * (N2 mod S)) S); try lia;
      destruct (Z.even (N2 / S)); lia.
  - pose proof (rne_div_bounds N1 S). pose proof (rne_div_bounds N2 S). lia.
Qed.

Lemma nearest_mantissa_range (N : Z) :
  0 < N ->
  let ks := nearest_mantissa N in
  0 < fst ks < 2 ^ 53 /\ (dropped_bits N < snd ks \/ 0 < snd ks -> 2 ^ 52 <= fst ks) /\
  dropped_bits N <= snd ks <= dropped_bits N + 1 /\
  (snd ks = dropped_bits N + 1 -> fst ks = 2 ^ 52) /\
  (snd ks = dropped_bits N -> fst ks = rne_div N (2 ^ dropped_bits N)).
Proof.
  intro HN. cbv zeta. unfold nearest_mantissa.
  destruct (Zdigits2_bounds N HN) as (Hd & Hlo & Hhi).
  set (s := dropped_bits N).
  assert (Hs : 0 <= s) by (subst s; unfold dropped_bits; lia).
  assert (Hps : 0 < 2 ^ s) by (apply Z.pow_pos_nonneg; lia).
  pose proof (rne_div_bounds N (2 ^ s)) as Hk.
  assert (Hq : 0 < rne_div N (2 ^ s) <= 2 ^ 53 /\
               (0 < s -> 2 ^ 52 <= rne_div N (2 ^ s))).
  { destruct (Z.eq_dec s 0) as [E|E].
    - rewrite E. change (2 ^ 0) with 1.
      pose proof (rne_div_exact N 1 ltac:(lia)) as HR.
      rewrite Z.mul_1_r in HR. rewrite HR.
      split; [|lia]. split; [lia|].
      assert (Zdigits2 N <= 53) by (subst s; unfold dropped_bits in E; lia).
      assert (2 ^ Zdigits2 N <= 2 ^ 53) by (apply Z.pow_le_mono_r; lia). lia.
    - assert (Hdn : Zdigits2 N = s + 53) by (subst s; unfold dropped_bits in *; lia).
      assert (H1 : 2 ^ (Zdigits2 N - 1) = 2 ^ 52 * 2 ^ s).
      { rewrite <- Z.pow_add_r by lia. f_equal. lia. }
      assert (H2 : 2 ^ Zdigits2 N = 2 ^ 53 * 2 ^ s).
      { rewrite <- Z.pow_add_r by lia. f_equal. lia. }
      assert (2 ^ 52 <= N / 2 ^ s) by (apply Z.div_le_lower_bound; lia).
      assert (N / 2 ^ s < 2 ^ 53) by (apply Z.div_lt_upper_bound; lia).
      change (2 ^ 52) with 4503599627370496 in *.
      change (2 ^ 53) with 9007199254740992 in *. lia. }
  change (2 ^ 52) with 4503599627370496 in *.
  change (2 ^ 53) with 9007199254740992 in *.
  destruct (Z.eqb_spec (rne_div N (2 ^ s)) 9007199254740992) as [E|E];
    cbn [fst snd]; repeat split; try lia.
Qed.

Lemma nearest_double_mono (N1 N2 : Z) :
  0 < N1 -> N1 <= N2 ->
  SFleb (nearest_double N1) (nearest_double N2) = true.
Proof.
  intros H1 H12.
  assert (H2 : 0 < N2) by lia.
  pose proof (nearest_mantissa_range N1 H1) as (Ha1 & Ha2 & Ha3 & Ha4 & Ha5).
  pose proof (nearest_mantissa_range N2 H2) as (Hb1 & Hb2 & Hb3 & Hb4 & Hb5).
  cbv zeta in *.
  assert (Hs : dropped_bits N1 <= dropped_bits N2).
  { unfold dropped_bits. pose proof (Zdigits2_mono N1 N2 H1 H12). lia. }
  assert (Hs0 : 0 <= dropped_bits N1) by (unfold dropped_bits; lia).
  assert (Hlex : snd (nearest_mantissa N1) < snd (nearest_mantissa N2) \/
                 (snd (nearest_mantissa N1) = snd (nearest_mantissa N2) /\
                  fst (nearest_mantissa N1) <= fst (nearest_mantissa N2))).
  { destruct (Z.eq_dec (dropped_bits N1) (dropped_bits N2)) as [E|E].
    - assert (Hk : rne_div N1 (2 ^ dropped_bits N1) <= rne_div N2 (2 ^ dropped_bits N2)).
      { rewrite <- E. apply rne_div_mono; [apply Z.pow_pos_nonneg; lia|exact H12]. }
      change (2 ^ 52) with 4503599627370496 in *.
      change (2 ^ 53) with 9007199254740992 in *.
      destruct (Z.eq_dec (snd (nearest_mantissa N1)) (dropped_bits N1)) as [E1|E1];
        destruct (Z.eq_dec (snd (nearest_mantissa N2)) (dropped_bits N2)) as [E2|E2].
      + right. split; [lia|]. rewrite Ha5, Hb5 by assumption. exact Hk.
      + left. lia.
      + exfalso. specialize (Ha4 ltac:(lia)). specialize (Hb5 E2).
        unfold nearest_mantissa in E1, Ha4.
        change (2 ^ 53) with 9007199254740992 in *.
        destruct (Z.eqb_spec (rne_div N1 (2 ^ dropped_bits N1)) 9007199254740992)
          as [Ek|Ek];
          cbn [fst snd] in *; [|lia].
        lia.
      + right. split; [lia|]. rewrite Ha4, Hb4 by lia. lia.
    - change (2 ^ 52) with 4503599627370496 in *.
      change (2 ^ 53) with 9007199254740992 in *.
      destruct (Z.eq_dec (snd (nearest_mantissa N1)) (snd (nearest_mantissa N2)))
        as [E1|E1].
      + right. split; [exact E1|].
        rewrite Ha4 by lia. apply Hb2. right. lia.
      + left. lia. }
  unfold nearest_double.
  destruct (Z.leb_spec (snd (nearest_mantissa N2) - 1074) 971) as [L2|L2].
  - destruct (Z.leb_spec (snd (nearest_mantissa N1) - 1074) 971) as [L1|L1]; [|lia].
    unfold SFleb, SFcompare.
    destruct Hlex as [Hlt|[Heq Hle]].
    + destruct (Z.compare_spec (snd (nearest_mantissa N1) - 1074)
                  (snd (nearest_mantissa N2) - 1074)); first [lia|reflexivity].
    + rewrite Heq, Z.compare_refl.
      change (PosDef.Pos.compare_cont Eq ?a ?b) with (Pos.compare a b).
      destruct (Pos.compare_spec (Z.to_pos (fst (nearest_mantissa N1)))
                  (Z.to_pos (fst (nearest_mantissa N2)))) as [Hc|Hc|Hc];
        try reflexivity.
      exfalso. lia.
  - destruct (Z.leb_spec (snd (nearest_mantissa N1) - 1074) 971); reflexivity.
Qed.

Lemma valid_mantissa (s : bool) (m : positive) (e : Z) :
  valid_binary (S754_finite s m e) = true ->
  (Zpos m < 2 ^ 53)%Z /\ (-1074 <= e <= 971)%Z /\ (-1074 < e -> 2 ^ 52 <= Zpos m)%Z /\
  Z.max (Zpos (digits2_pos m) + e - 53) (-1074) = e.
Proof.
  unfold valid_binary, SpecFloat.valid_binary, bounded, canonical_mantissa.
  rewrite fexp64. change (emax - prec) with 971.
  intro H. apply andb_true_iff in H. destruct H as [H Hb].
  apply Z.eqb_eq in H. apply Z.leb_le in Hb.
  pose proof (digits2_bounds m) as [Hlo Hhi].
  assert (Hd : (Zpos (digits2_pos m) <= 53)%Z) by lia.
  split.
  - eapply Z.lt_le_trans; [exact Hhi|]. apply Z.pow_le_mono_r; lia.
  - split; [lia|]. split; [|exact H]. intro He.
    assert (Zpos (digits2_pos m) = 53)%Z by lia.
    replace (Zpos (digits2_pos m) - 1)%Z with 52%Z in Hlo by lia. exact Hlo.
Qed.

Lemma pow2_step (x y : Z) : 0 <= x -> x < y -> 2 * 2 ^ x <= 2 ^ y.
Proof.
  intros Hx Hxy. rewrite <- Z.pow_succ_r by lia. apply Z.pow_le_mono_r; lia.
Qed.

(** The order of finite doubles is the order of their values. *)
Lemma units_le (a b : spec_float) :
  valid_binary a = true -> valid_binary b = true ->
  finite_or_zero a = true -> finite_or_zero b = true ->
  SFleb a b = true -> units a <= units b.
Proof.
  intros Va Vb Fa Fb.
  destruct a as [sa|sa| |sa ma ea]; try discriminate Fa;
    destruct b as [sb|sb| |sb mb eb]; try discriminate Fb; cbn [units].
  - lia.
  - assert (0 < 2 ^ (eb + 1074)) by (apply Z.pow_pos_nonneg;
      pose proof (valid_mantissa _ _ _ Vb); lia).
    unfold SFleb, SFcompare.
    destruct sb; cbn [cond_Zopp]; intro; try discriminate. nia.
  - assert (0 < 2 ^ (ea + 1074)) by (apply Z.pow_pos_nonneg;
      pose proof (valid_mantissa _ _ _ Va); lia).
    unfold SFleb, SFltb, SFcompare.
    destruct sa; cbn [cond_Zopp]; intro; try discriminate. nia.
  - pose proof (valid_mantissa _ _ _ Va) as (Ha1 & Ha2 & Ha3 & _).
    pose proof (valid_mantissa _ _ _ Vb) as (Hb1 & Hb2 & Hb3 & _).
    assert (Hpa : 0 < 2 ^ (ea + 1074)) by (apply Z.pow_pos_nonneg; lia).
    assert (Hpb : 0 < 2 ^ (eb + 1074)) by (apply Z.pow_pos_nonneg; lia).
    change (2 ^ 52) with 4503599627370496 in *.
    change (2 ^ 53) with 9007199254740992 in *.
    unfold SFleb, SFcompare.
    destruct sa, sb; cbn [cond_Zopp]; try (intro; discriminate); try nia.
    + destruct (Z.compare_spec ea eb) as [E|E|E]; try (intro; discriminate).
      * subst eb.
        change (PosDef.Pos.compare_cont Eq ma mb) with (Pos.compare ma mb).
        destruct (Pos.compare_spec ma mb); cbn [CompOpp]; intro;
          try discriminate; nia.
      * intros _. pose proof (pow2_step (eb + 1074) (ea + 1074) ltac:(lia) ltac:(lia)).
        specialize (Ha3 ltac:(lia)). nia.
    + destruct (Z.compare_spec ea eb) as [E|E|E]; try (intro; discriminate).
      * subst eb.
        change (PosDef.Pos.compare_cont Eq ma mb) with (Pos.compare ma mb).
        destruct (Pos.compare_spec ma mb); intro; try discriminate; nia.
      * intros _. pose proof (pow2_step (ea + 1074) (eb + 1074) ltac:(lia) ltac:(lia)).
        specialize (Hb3 ltac:(lia)). nia.
Qed.

(** A double is the double nearest to its own value. *)
Lemma nearest_double_exact (m : positive) (e : Z) :
  valid_binary (S754_finite false m e) = true ->
  nearest_double (Zpos m * 2 ^ (e + 1074)) = S754_finite false m e.
Proof.
  intro V. pose proof (valid_mantissa _ _ _ V) as (H1 & H2 & _ & Hc).
  assert (Hp : 0 < 2 ^ (e + 1074)) by (apply Z.pow_pos_nonneg; lia).
  unfold nearest_double, nearest_mantissa.
  assert (Hs : dropped_bits (Zpos m * 2 ^ (e + 1074)) = e + 1074).
  { unfold dropped_bits. rewrite Zdigits2_shift by lia. cbn [Zdigits2]. lia. }
  rewrite Hs, rne_div_exact by exact Hp.
  destruct (Z.eqb_spec (Zpos m) (2 ^ 53)) as [E|E]; [lia|].
  cbn [fst snd]. replace (e + 1074 - 1074) with e by lia.
  destruct (Z.leb_spec e 971); [|lia]. rewrite Pos2Z.id. reflexivity.
Qed.

Lemma shl_align_value (m : positive) (e e' : Z) :
  (e' <= e)%Z ->
  Zpos (fst (shl_align m e e')) = (Zpos m * 2 ^ (e - e'))%Z.
Proof.
  intro H. destruct (shl_align_le m e e' H) as (mz & -> & Hmz). exact Hmz.
Qed.

(** The aligned difference of two finite doubles, in units. *)
Lemma aligned_difference (sa sx : bool) (ma mx : positive) (ea ex : Z) :
  -1074 <= ea -> -1074 <= ex ->
  (cond_Zopp sa (Zpos (fst (shl_align ma ea (Z.min ea ex))))
   - cond_Zopp sx (Zpos (fst (shl_align mx ex (Z.min ea ex)))))
  * 2 ^ (Z.min ea ex + 1074)
  = units (S754_finite sa ma ea) - units (S754_finite sx mx ex).
Proof.
  intros Ha Hx. cbn [units].
  rewrite !shl_align_value by lia.
  assert (Ea : 2 ^ (ea + 1074) = 2 ^ (ea - Z.min ea ex) * 2 ^ (Z.min ea ex + 1074)).
  { rewrite <- Z.pow_add_r by lia. f_equal. lia. }
  assert (Ex : 2 ^ (ex + 1074) = 2 ^ (ex - Z.min ea ex) * 2 ^ (Z.min ea ex + 1074)).
  { rewrite <- Z.pow_add_r by lia. f_equal. lia. }
  rewrite Ea, Ex. destruct sa, sx; cbn [cond_Zopp]; ring.
Qed.

(** Rounding keeps the sign. *)
Lemma binary_round_sign (s : bool) (m : positive) (e : Z) :
  match binary_round prec emax s m e with
  | S754_zero s' | S754_infinity s' | S754_finite s' _ _ => s' = s
  | S754_nan => True
  end.
Proof.
  unfold binary_round, binary_round_aux.
  destruct (shl_align m e _) as [mz ez].
  destruct (shr_fexp prec emax (Z.pos mz) ez loc_Exact) as [mrs' e'].
  destruct (shr_fexp prec emax _ e' loc_Exact) as [mrs'' e''].
  destruct (shr_m mrs''); [reflexivity| |exact I].
  destruct (Z.leb e'' (emax - prec)); reflexivity.
Qed.

(** A difference that rounds above a positive double is positive. *)
Lemma SFsub_positive (a x : spec_float) (mc : positive) (ec : Z) :
  valid_binary a = true -> valid_binary x = true ->
  finite_or_zero a = true -> finite_or_zero x = true ->
  SFltb (S754_finite false mc ec) (SF64sub a x) = true ->
  0 < units a - units x.
Proof.
  intros Va Vx Fa Fx.
  destruct a as [sa|sa| |sa ma ea]; try discriminate Fa;
    destruct x as [sx|sx| |sx mx ex]; try discriminate Fx.
  - destruct sa, sx; cbn; discriminate.
  - pose proof (valid_mantissa _ _ _ Vx) as (_ & H2 & _).
    assert (0 < 2 ^ (ex + 1074)) by (apply Z.pow_pos_nonneg; lia).
    unfold SF64sub, SFsub, SFltb, SFcompare.
    destruct sx; cbn [cond_Zopp negb units]; intro; try discriminate. nia.
  - pose proof (valid_mantissa _ _ _ Va) as (_ & H2 & _).
    assert (0 < 2 ^ (ea + 1074)) by (apply Z.pow_pos_nonneg; lia).
    unfold SF64sub, SFsub, SFltb, SFcompare.
    destruct sa; cbn [cond_Zopp negb units]; intro; try discriminate. nia.
  - pose proof (valid_mantissa _ _ _ Va) as (_ & Ha & _).
    pose proof (valid_mantissa _ _ _ Vx) as (_ & Hx & _).
    rewrite <- aligned_difference by lia.
    unfold SF64sub, SFsub. cbv zeta.
    set (z := cond_Zopp sa _ - cond_Zopp sx _).
    assert (Hp : 0 < 2 ^ (Z.min ea ex + 1074)) by (apply Z.pow_pos_nonneg; lia).
    destruct z as [|p|p]; cbn [binary_normalize].
    + cbn. discriminate.
    + intros _. nia.
    + pose proof (binary_round_sign true p (Z.min ea ex)) as Hs.
      destruct (binary_round prec emax true p (Z.min ea ex)) as [s'|s'| |s' ? ?];
        try subst s'; cbn; discriminate.
Qed.

(** A positive difference of finite doubles is the double nearest to it. *)
Lemma SFsub_nearest (a x : spec_float) :
  valid_binary a = true -> valid_binary x = true ->
  finite_or_zero a = true -> finite_or_zero x = true ->
  0 < units a - units x ->
  SF64sub a x = nearest_double (units a - units x).
Proof.
  intros Va Vx Fa Fx.
  destruct a as [sa|sa| |sa ma ea]; try discriminate Fa;
    destruct x as [sx|sx| |sx mx ex]; try discriminate Fx.
  - cbn [units]. lia.
  - pose proof (valid_mantissa _ _ _ Vx) as (_ & H2 & _).
    assert (0 < 2 ^ (ex + 1074)) by (apply Z.pow_pos_nonneg; lia).
    destruct sx; cbn [units cond_Zopp]; intro; [|nia].
    replace (0 - - (Zpos mx * 2 ^ (ex + 1074))) with (Zpos mx * 2 ^ (ex + 1074)) by lia.
    rewrite nearest_double_exact by exact Vx. destruct sa; reflexivity.
  - pose proof (valid_mantissa _ _ _ Va) as (_ & H2 & _).
    assert (0 < 2 ^ (ea + 1074)) by (apply Z.pow_pos_nonneg; lia).
    destruct sa; cbn [units cond_Zopp]; intro; [nia|].
    rewrite Z.sub_0_r, nearest_double_exact by exact Va. destruct sx; reflexivity.
  - pose proof (valid_mantissa _ _ _ Va) as (_ & Ha & _).
    pose proof (valid_mantissa _ _ _ Vx) as (_ & Hx & _).
    rewrite <- aligned_difference by lia.
    unfold SF64sub, SFsub. cbv zeta.
    set (z := cond_Zopp sa _ - cond_Zopp sx _).
    assert (Hp : 0 < 2 ^ (Z.min ea ex + 1074)) by (apply Z.pow_pos_nonneg; lia).
    destruct z as [|p|p]; try nia. intros _.
    cbn [binary_normalize]. apply binary_round_nearest. lia.
Qed.

Lemma above_not_nan (c y : spec_float) :
  SFltb c y = true -> SFleb y (S754_infinity false) = true.
Proof.
  destruct c as [[]|[]| |[] ? ?], y as [[]|[]| |[] ? ?]; cbn; intro;
    try discriminate; reflexivity.
Qed.

(** Subtraction is monotone in the minuend, where the difference rounds
    above a positive double. *)
Lemma SFsub_mono_finite (a b x : spec_float) (mc : positive) (ec : Z) :
  valid_binary a = true -> valid_binary b = true -> valid_binary x = true ->
  finite_or_zero a = true -> finite_or_zero b = true -> finite_or_zero x = true ->
  SFleb a b = true ->
  SFltb (S754_finite false mc ec) (SF64sub a x) = true ->
  SFleb (SF64sub a x) (SF64sub b x) = true.
Proof.
  intros Va Vb Vx Fa Fb Fx Hab Hc.
  pose proof (units_le a b Va Vb Fa Fb Hab) as Hu.
  pose proof (SFsub_positive a x mc ec Va Vx Fa Fx Hc) as Hp.
  rewrite (SFsub_nearest a x), (SFsub_nearest b x) by (assumption || lia).
  apply nearest_double_mono; lia.
Qed.

Lemma SFsub_mono (a b x : spec_float) (mc : positive) (ec : Z) :
  valid_binary a = true -> valid_binary b = true -> valid_binary x = true ->
  SFleb a b = true ->
  SFltb (S754_finite false mc ec) (SF64sub a x) = true ->
  SFleb (SF64sub a x) (SF64sub b x) = true.
Proof.
  intros Va Vb Vx Hab Hc.
  destruct (finite_or_zero a) eqn:Fa, (finite_or_zero b) eqn:Fb,
    (finite_or_zero x) eqn:Fx;
    try (eapply SFsub_mono_finite; eassumption); clear Va Vb Vx.
  - (* x is infinite or NaN *)
    destruct x as [sx|[]| |sx mx ex], a as [sa|sa| |sa ma ea],
      b as [sb|sb| |sb mb eb]; sf_contradiction.
  - (* b is infinite or NaN *)
    destruct b as [sb|[]| |sb mb eb].
    + discriminate Fb.
    + destruct a as [sa|sa| |[] ma ea]; sf_contradiction.
    + replace (SF64sub (S754_infinity false) x) with (S754_infinity false)
        by (destruct x as [sx|sx| |sx mx ex]; try discriminate Fx; reflexivity).
      eapply above_not_nan; exact Hc.
    + destruct a as [sa|sa| |[] ma ea]; sf_contradiction.
    + discriminate Fb.
  - destruct x as [sx|[]| |sx mx ex], a as [sa|sa| |sa ma ea],
      b as [sb|[]| |sb mb eb]; sf_contradiction.
  - (* a is infinite or NaN *)
    destruct a as [sa|[]| |sa ma ea], b as [sb|sb| |[] mb eb],
      x as [sx|sx| |[] mx ex]; sf_contradiction.
  - destruct a as [sa|[]| |sa ma ea], x as [sx|[]| |sx mx ex],
      b as [sb|sb| |[] mb eb]; sf_contradiction.
  - destruct a as [sa|[]| |sa ma ea], b as [sb|[]| |sb mb eb],
      x as [sx|sx| |[] mx ex]; sf_contradiction.
  - destruct a as [sa|[]| |sa ma ea], b as [sb|[]| |sb mb eb],
      x as [sx|[]| |sx mx ex]; sf_contradiction.
Qed.

(** Above a positive double: the absolute value changes nothing. *)
Lemma SFabs_above (y : spec_float) (mc : positive) (ec : Z) :
  SFltb (S754_finite false mc ec) y = true -> SFabs y = y.
Proof. destruct y as [[]|[]| |[] m e]; cbn; intro; try discriminate; reflexivity. Qed.

(** A difference [b - a] that rounds above a positive number: [a < b]. *)
Lemma SFsub_above (c a b : spec_float) (mc : positive) (ec : Z) :
  c = S754_finite false mc ec ->
  valid_binary a = true -> valid_binary b = true ->
  SFltb c (SF64sub b a) = true -> SFltb a b = true.
Proof.
  intros -> Ha Hb.
  unfold SF64sub, SFsub.
  destruct b as [[]|[]| |sb mb eb], a as [[]|[]| |sa ma ea];
    try solve [ cbn; intros; try discriminate; reflexivity
              | destruct sb; cbn; intros; try discriminate; reflexivity
              | destruct sa; cbn; intros; try discriminate; reflexivity ].
  cbv zeta.
  pose proof (valid_mantissa _ _ _ Ha) as (Ha1 & Ha2 & Ha3 & _).
  pose proof (valid_mantissa _ _ _ Hb) as (Hb1 & Hb2 & Hb3 & _).
  pose proof (shl_align_value mb eb (Z.min eb ea) ltac:(lia)) as Eb.
  pose proof (shl_align_value ma ea (Z.min eb ea) ltac:(lia)) as Ea.
  set (zb := Zpos (fst (shl_align mb eb (Z.min eb ea)))) in *.
  set (za := Zpos (fst (shl_align ma ea (Z.min eb ea)))) in *.
  assert (Hzb : (0 < zb)%Z) by (subst zb; lia).
  assert (Hza : (0 < za)%Z) by (subst za; lia).
  clearbody za zb.
  assert (Hsign : forall z, SFltb (S754_finite false mc ec)
                     (binary_normalize prec emax z (Z.min eb ea) false) = true ->
                   (0 < z)%Z).
  { intros [|p|p]; cbn [binary_normalize].
    - cbn. discriminate.
    - lia.
    - pose proof (binary_round_sign true p (Z.min eb ea)) as Hs.
      destruct (binary_round prec emax true p (Z.min eb ea)) as [s'|s'| |s' ? ?];
        try subst s'; cbn; discriminate. }
  intro H. apply Hsign in H. clear Hsign.
  assert (Hpow : forall x y : Z, (x < y)%Z -> (2 <= 2 ^ (y - x))%Z).
  { intros x y Hxy. change 2%Z with (2 ^ 1)%Z at 1.
    apply Z.pow_le_mono_r; lia. }
  unfold SFltb, SFcompare.
  destruct sb, sa; cbn [cond_Zopp] in H.
  - (* both negative *)
    destruct (Z.compare_spec ea eb) as [E|E|E].
    + subst eb. rewrite Z.min_id, Z.sub_diag in *.
      change (2 ^ 0)%Z with 1%Z in *.
      change (PosDef.Pos.compare_cont Eq ma mb) with (Pos.compare ma mb).
      destruct (Pos.compare_spec ma mb) as [Hc|Hc|Hc]; cbn; try reflexivity;
        exfalso; clear - H Ea Eb Hc; subst; lia.
    + exfalso.
      replace (Z.min eb ea) with ea in * by lia.
      rewrite Z.sub_diag in Ea.
      assert (2 ^ 52 <= Zpos mb)%Z by (apply Hb3; lia).
      assert (2 <= 2 ^ (eb - ea))%Z by (apply Hpow; lia).
      change (2 ^ 0)%Z with 1%Z in *.
      change (2 ^ 52)%Z with 4503599627370496%Z in *.
      change (2 ^ 53)%Z with 9007199254740992%Z in *.
      nia.
    + reflexivity.
  - lia.
  - reflexivity.
  - (* both positive *)
    destruct (Z.compare_spec ea eb) as [E|E|E].
    + subst eb. rewrite Z.min_id, Z.sub_diag in *.
      change (2 ^ 0)%Z with 1%Z in *.
      change (PosDef.Pos.compare_cont Eq ma mb) with (Pos.compare ma mb).
      destruct (Pos.compare_spec ma mb) as [Hc|Hc|Hc]; cbn; try reflexivity;
        exfalso; clear - H Ea Eb Hc; subst; lia.
    + reflexivity.
    + exfalso.
      replace (Z.min eb ea) with eb in * by lia.
      rewrite Z.sub_diag in Eb.
      assert (2 ^ 52 <= Zpos ma)%Z by (apply Ha3; lia).
      assert (2 <= 2 ^ (ea - eb))%Z by (apply Hpow; lia).
      change (2 ^ 0)%Z with 1%Z in *.
      change (2 ^ 52)%Z with 4503599627370496%Z in *.
      change (2 ^ 53)%Z with 9007199254740992%Z in *.
      nia.
Qed.

End Rounding.

Section DoubleSubtraction.

Local Open Scope float_scope.


Lemma double_sub_mono (a b x : float) :
  (a <=? b) = true -> (0.30 <? a - x) = true -> (a - x <=? b - x) = true.
Proof.
  rewrite !leb_spec, ltb_spec, !sub_spec. intros Hab Hc.
  apply (SFsub_mono _ _ _ 5404319552844595 (-54));
    try apply Prim2SF_valid; assumption.
Qed.

Lemma double_abs_above (y : float) :
  (0.30 <? y) = true -> Prim2SF (abs y) = Prim2SF y.
Proof.
  rewrite ltb_spec, abs_spec. apply (SFabs_above _ 5404319552844595 (-54)).
Qed.

End DoubleSubtraction.

(** ** The onset loop on doubles *)

Section DoubleOnsets.

Import Double.
Local Open Scope float_scope.

(** More than 0.12 s after: strictly later. *)
Lemma gap_earlier (a b : float) : gap a b -> earlier a b.
Proof.
  unfold gap, earlier. rewrite !ltb_spec, sub_spec.
  apply (SFsub_above _ (Prim2SF a) (Prim2SF b) 8646911284551352 (-56));
    [reflexivity|apply Prim2SF_valid|apply Prim2SF_valid].
Qed.

Lemma Sorted_gap_earlier (l : list float) :
  Sorted gap l -> StronglySorted earlier l.
Proof.
  intro Hs. apply Sorted_StronglySorted.
  - intros x y z. apply double_ltb_trans.
  - induction Hs as [|a l Hs IH Hh]; constructor; [exact IH|].
    destruct Hh; constructor. apply gap_earlier. assumption.
Qed.

(** One pass of the loop, by cases. *)
Lemma double_onset_step_eq (th rate i x : float) (onsets : list float) :
  onset_step th rate i x onsets =
    if th <? x then
      match onsets with
      | [] => [((i + 1) * 512) / rate]
      | _ :: _ =>
          if 0.12 <? ((i + 1) * 512) / rate - last onsets 0
          then onsets ++ [((i + 1) * 512) / rate] else onsets
      end
    else onsets.
Proof. unfold onset_step. destruct onsets; reflexivity. Qed.

Lemma counter_from_next (i : float) (n : nat) :
  counter_from (i + 1) n = counter_from i (S n).
Proof.
  induction n as [|n IH]; [reflexivity|].
  cbn [counter_from] in *. rewrite IH. reflexivity.
Qed.

Lemma double_onset_loop_app (th rate : float) (l1 l2 : list float) :
  forall i onsets,
    onset_loop th rate (l1 ++ l2) i onsets =
    onset_loop th rate l2 (counter_from i (length l1))
      (onset_loop th rate l1 i onsets).
Proof.
  induction l1 as [|x l1 IH]; intros i onsets; [reflexivity|].
  cbn [app onset_loop length]. rewrite IH, counter_from_next. reflexivity.
Qed.

Lemma double_onset_step_extends (th rate i x : float) (onsets : list float) :
  exists more, onset_step th rate i x onsets = onsets ++ more.
Proof.
  unfold onset_step.
  destruct (th <? x); [|exists []; rewrite app_nil_r; reflexivity].
  cbv zeta. destruct (_ || _); [eexists; reflexivity|].
  exists []. rewrite app_nil_r. reflexivity.
Qed.

(** The loop never replaces what it has accepted. *)
Lemma double_onset_loop_extends (th rate : float) (norm : list float) :
  forall i onsets, exists more, onset_loop th rate norm i onsets = onsets ++ more.
Proof.
  induction norm as [|x norm IH]; intros i onsets; cbn [onset_loop].
  - exists []. rewrite app_nil_r. reflexivity.
  - destruct (double_onset_step_extends th rate i x onsets) as [m1 E1].
    destruct (IH (i + 1) (onset_step th rate i x onsets)) as [m2 E2].
    exists (m1 ++ m2). rewrite E2, E1, app_assoc. reflexivity.
Qed.

Lemma double_onset_step_sorted (th rate i x : float) (onsets : list float) :
  Sorted gap onsets -> Sorted gap (onset_step th rate i x onsets).
Proof.
  intro Hs. rewrite double_onset_step_eq.
  destruct (th <? x); [|exact Hs].
  destruct onsets as [|a onsets]; [repeat constructor|].
  destruct (0.12 <? _) eqn:E; [|exact Hs].
  apply (Sorted_snoc gap 0); [exact Hs|right; exact E].
Qed.

Lemma double_onset_loop_sorted (th rate : float) (norm : list float) :
  forall i onsets, Sorted gap onsets -> Sorted gap (onset_loop th rate norm i onsets).
Proof.
  induction norm as [|x norm IH]; intros i onsets Hs; cbn [onset_loop].
  - exact Hs.
  - apply IH, double_onset_step_sorted, Hs.
Qed.

(** Every accepted onset is the time of a frame over the threshold. *)
Lemma double_onset_loop_origin (th rate : float) (norm : list float) :
  forall i onsets t,
    In t (onset_loop th rate norm i onsets) ->
    In t onsets \/
    exists j x, nth_error norm j = Some x /\ (th <? x) = true /\
                t = ((counter_from i j + 1) * 512) / rate.
Proof.
  induction norm as [|x norm IH]; intros i onsets t Ht; cbn [onset_loop] in Ht.
  - left. exact Ht.
  - destruct (IH _ _ _ Ht) as [Hin|(j & y & Hj & Hy & ->)].
    + rewrite double_onset_step_eq in Hin.
      destruct (th <? x) eqn:Ex; [|left; exact Hin].
      assert (Hnew : In t (onsets ++ [((i + 1) * 512) / rate]) ->
                     In t onsets \/
                     exists j x0, nth_error (x :: norm) j = Some x0 /\
                       (th <? x0) = true /\
                       t = ((counter_from i j + 1) * 512) / rate).
      { intro H. apply in_app_or in H. destruct H as [H|[<-|[]]]; [left; exact H|].
        right. exists 0%nat, x. repeat split. exact Ex. }
      destruct onsets as [|a onsets]; [apply (Hnew Hin)|].
      destruct (0.12 <? _); [apply (Hnew Hin)|left; exact Hin].
    + right. exists (S j), y. rewrite counter_from_next in *.
      split; [exact Hj|]. split; [exact Hy|reflexivity].
Qed.

(** C4.  The onsets the detector returns, in doubles: each is more than
    0.12 s after the one before, by the difference the loop computes,
    and so they are strictly increasing; each is the time
    [((i+1)*512)/sampleRate] of a frame whose normalized flux is over the
    threshold, which is [0.18/k] for a sensitivity [k] that is neither 0
    nor NaN; and at every frame the loop keeps what it has accepted and
    appends the frame's time exactly when the flux is over the threshold
    and there is no onset yet or the last one is more than 0.12 s
    before: a candidate closer than that is dropped. *)
Theorem onsets_spaced (parsed sampleRate : float) (env : list float) :
  let norm := normalize (diffs env) in
  let th := thresh parsed in
  let onsets := detect_onsets parsed sampleRate env in
  Sorted (fun a b => (0.12 <? b - a) = true) onsets /\
  StronglySorted (fun a b => (a <? b) = true) onsets /\
  ((is_zero parsed || is_nan parsed) = false -> th = 0.18 / parsed) /\
  (forall t, In t onsets ->
     exists i x, nth_error norm i = Some x /\ (th <? x) = true /\
                 t = ((counter i + 1) * 512) / sampleRate) /\
  (forall pre x post, norm = pre ++ x :: post ->
     let acc := onset_loop th sampleRate pre 0 [] in
     let sec := ((counter (length pre) + 1) * 512) / sampleRate in
     (exists more, onsets = acc ++ more) /\
     onset_loop th sampleRate (pre ++ [x]) 0 [] =
       if th <? x then
         match acc with
         | [] => [sec]
         | _ :: _ => if 0.12 <? sec - last acc 0 then acc ++ [sec] else acc
         end
       else acc).
Proof.
  cbv zeta. unfold detect_onsets.
  assert (Hs : Sorted gap (onset_loop (thresh parsed) sampleRate
                             (normalize (diffs env)) 0 []))
    by (apply double_onset_loop_sorted; constructor).
  split; [exact Hs|]. split; [apply Sorted_gap_earlier, Hs|].
  split; [|split].
  - intro Hk. unfold thresh, or_default. rewrite Hk. reflexivity.
  - intros t Ht. apply double_onset_loop_origin in Ht.
    destruct Ht as [[]|(j & x & Hj & Hx & Ht)].
    exists j, x. repeat split; assumption.
  - intros pre x post Hn. rewrite Hn. split.
    + rewrite double_onset_loop_app. apply double_onset_loop_extends.
    + rewrite double_onset_loop_app. cbn [onset_loop].
      apply double_onset_step_eq.
Qed.

(** The loop variable at a frame is the frame's index. *)
Example counter_is_index :
  counter 0 = 0 /\ counter 5 = 5 /\ counter 50 = 50.
Proof. repeat split; reflexivity. Qed.

(** At 192 kHz the frames 5 and 50 of the flux lie at 0.016 s and
    0.136 s; the difference the loop computes is above the double 0.12
    and both are onsets. *)
Example onsets_at_rounded_gap :
  (0.12 <? 0.136 - 0.016) = true /\
  detect_onsets 1.5 192000 rises_5_50 = [0.016; 0.136].
Proof. split; reflexivity. Qed.

(** At 1 kHz the frames 0 and 1 lie 0.512 s apart, the frames 1 and 2 of
    a steady rise as well; nothing is dropped, while at 48 kHz the second
    of two adjacent frames is. *)
Example onsets_adjacent_frames :
  detect_onsets 1.5 1000 [0; 1; 2] = [0.512; 1.024] /\
  length (detect_onsets 1.5 48000 [0; 1; 2]) = 1%nat.
Proof. split; reflexivity. Qed.

End DoubleOnsets.

(** * Further properties of the source *)

(** ** Presses and the chart *)

(** The three ways a press ends. *)
Lemma handleHit_cases (ln : nat) (currentTime : Q) (s : Player) :
  (exists i n, nth_error (notes s) i = Some n /\
     (handleHit ln currentTime s = (consume 1000 i s, Perfect) \/
      handleHit ln currentTime s = (consume 500 i s, Good))) \/
  handleHit ln currentTime s = (with_combo 0 s, Miss).
Proof.
  destruct (fst (find_best ln (currentTime - startTime s) s)) as [i|] eqn:Hb.
  - destruct (find_best_some _ _ _ _ Hb) as (n & Hn & _).
    rewrite (handleHit_unfold _ _ _ _ _ Hb Hn).
    destruct (Qle_bool _ perfect); [|destruct (Qle_bool _ good)].
    + left. exists i, n. auto.
    + left. exists i, n. auto.
    + right. reflexivity.
  - right. unfold handleHit. cbv zeta. rewrite Hb. reflexivity.
Qed.

Lemma splice1_incl {A : Type} (i : nat) (l : list A) : incl (splice1 i l) l.
Proof.
  unfold splice1. intros x Hx. apply in_app_or in Hx.
  destruct Hx as [Hx|Hx].
  - rewrite <- (firstn_skipn i l). apply in_or_app. left. exact Hx.
  - rewrite <- (firstn_skipn (S i) l). apply in_or_app. right. exact Hx.
Qed.

Lemma splice1_cons {A : Type} (i : nat) (a : A) (l : list A) :
  splice1 (S i) (a :: l) = a :: splice1 i l.
Proof. reflexivity. Qed.

Lemma splice1_sorted {A : Type} (R : A -> A -> Prop) (l : list A) :
  forall i, StronglySorted R l -> StronglySorted R (splice1 i l).
Proof.
  induction l as [|a l IH]; intros i Hs.
  - destruct i; exact Hs.
  - apply StronglySorted_inv in Hs. destruct Hs as [Hs Ha].
    destruct i as [|i].
    + exact Hs.
    + rewrite splice1_cons. constructor; [apply IH, Hs|].
      apply Forall_forall. intros x Hx.
      rewrite Forall_forall in Ha. apply Ha, (splice1_incl i l), Hx.
Qed.

Lemma splice1_NoDup_map {A B : Type} (f : A -> B) (l : list A) :
  forall i, NoDup (map f l) -> NoDup (map f (splice1 i l)).
Proof.
  induction l as [|a l IH]; intros i Hnd.
  - destruct i; exact Hnd.
  - cbn [map] in Hnd. apply NoDup_cons_iff in Hnd. destruct Hnd as [Ha Hnd].
    destruct i as [|i].
    + exact Hnd.
    + rewrite splice1_cons. cbn [map]. constructor; [|apply IH, Hnd].
      intro Hin. apply Ha. apply in_map_iff in Hin.
      destruct Hin as (x & Hx & Hin). apply in_map_iff.
      exists x. split; [exact Hx|apply (splice1_incl i l), Hin].
Qed.

Lemma splice1_length {A : Type} (i : nat) (l : list A) (n : A) :
  nth_error l i = Some n -> S (length (splice1 i l)) = length l.
Proof.
  intro Hn. unfold splice1.
  assert (Hi : (i < length l)%nat) by (apply nth_error_Some; congruence).
  rewrite length_app, length_firstn, length_skipn. lia.
Qed.

Lemma handleHit_chart (ln : nat) (currentTime : Q) (s : Player) :
  at_most_one_removed (notes s) (notes (fst (handleHit ln currentTime s))).
Proof.
  destruct (handleHit_cases ln currentTime s) as [(i & n & Hn & [E|E])|E];
    rewrite E; cbn [fst consume with_combo notes].
  - right. exists i, n. auto.
  - right. exists i, n. auto.
  - left. reflexivity.
Qed.

(** X1.  A press never adds, changes or reorders notes: the chart after
    it is the chart before it or that chart with one note spliced out,
    so it is no longer, holds only notes it held, and stays sorted by
    time and free of duplicate keys when it was. *)
Theorem press_keeps_chart_well_formed (ln : nat) (currentTime : Q) (s : Player) :
  let chart := notes s in
  let chart' := notes (fst (handleHit ln currentTime s)) in
  at_most_one_removed chart chart' /\
  incl chart' chart /\
  (length chart' <= length chart)%nat /\
  (StronglySorted time_le chart -> StronglySorted time_le chart') /\
  (NoDup (map note_key chart) -> NoDup (map note_key chart')).
Proof.
  cbv zeta.
  pose proof (handleHit_chart ln currentTime s) as H.
  split; [exact H|].
  destruct H as [->|(i & n & Hn & ->)].
  - repeat split; auto. apply incl_refl.
  - split; [apply splice1_incl|]. split.
    + pose proof (splice1_length i (notes s) n Hn). lia.
    + split; [apply splice1_sorted|apply splice1_NoDup_map].
Qed.

(** ** A whole session on a sorted chart *)

Section DoubleSession.

Import Double.
Local Open Scope float_scope.

Lemma double_handleHit_cursor (ln : nat) (t : float) (s : Player) :
  idxNextNote (fst (handleHit ln t s)) = idxNextNote s.
Proof.
  unfold handleHit. cbv zeta.
  destruct (fst (find_best ln (t - startTime s) s)) as [i|]; [|reflexivity].
  destruct (nth_error (notes s) i) as [n|]; [|reflexivity].
  destruct (_ <=? perfect); [|destruct (_ <=? good)]; reflexivity.
Qed.

Lemma double_dispatch_cursor (s : Player) (e : Event) :
  idxNextNote s = 0%nat -> idxNextNote (dispatch s e) = 0%nat.
Proof.
  intro H. destruct e as [t| |ln t]; cbn [dispatch].
  - unfold start. destruct (audioBuffer s); [reflexivity|exact H].
  - exact H.
  - rewrite double_handleHit_cursor. exact H.
Qed.

Lemma double_run_cursor (evs : list Event) :
  forall s, idxNextNote s = 0%nat -> idxNextNote (run s evs) = 0%nat.
Proof.
  unfold run. induction evs as [|e evs IH]; intros s H; cbn [fold_left].
  - exact H.
  - apply IH, double_dispatch_cursor, H.
Qed.

Lemma double_handleHit_chart (ln : nat) (t : float) (s : Player) :
  notes (fst (handleHit ln t s)) = notes s \/
  exists i, notes (fst (handleHit ln t s)) = splice1 i (notes s).
Proof.
  unfold handleHit. cbv zeta.
  destruct (fst (find_best ln (t - startTime s) s)) as [i|]; [|left; reflexivity].
  destruct (nth_error (notes s) i) as [n|]; [|left; reflexivity].
  destruct (_ <=? perfect); [right; exists i; reflexivity|].
  destruct (_ <=? good); [right; exists i; reflexivity|left; reflexivity].
Qed.

Lemma double_dispatch_sorted (s : Player) (e : Event) :
  StronglySorted time_leb (notes s) ->
  StronglySorted time_leb (notes (dispatch s e)).
Proof.
  intro Hs. destruct e as [t| |ln t]; cbn [dispatch].
  - unfold start. destruct (audioBuffer s); exact Hs.
  - exact Hs.
  - destruct (double_handleHit_chart ln t s) as [->|(i & ->)];
      [exact Hs|apply splice1_sorted, Hs].
Qed.

Lemma double_run_sorted (evs : list Event) :
  forall s, StronglySorted time_leb (notes s) ->
            StronglySorted time_leb (notes (run s evs)).
Proof.
  unfold run. induction evs as [|e evs IH]; intros s Hs; cbn [fold_left].
  - exact Hs.
  - apply IH, double_dispatch_sorted, Hs.
Qed.

(** Past a note more than 0.30 s ahead, no later note is closer than
    the best so far: subtraction is monotone, also when it rounds. *)
Lemma double_break_loses_nothing (now : float) (n m : Note) (best : float) :
  (0.30 <? time n - now) = true -> (time n <=? time m) = true ->
  (distance now n <? best) = false -> (distance now m <? best) = false.
Proof.
  intros Hb Hle Hn.
  pose proof (double_sub_mono _ _ now Hle Hb) as Hmono.
  assert (Hbm : (0.30 <? time m - now) = true)
    by (eapply double_ltb_leb_trans; eassumption).
  destruct (distance now m <? best) eqn:E; [|reflexivity].
  rewrite <- Hn. symmetry.
  unfold distance in *. rewrite ltb_spec in E |- *.
  rewrite double_abs_above in E |- * by assumption.
  rewrite leb_spec in Hmono. eapply SFleb_ltb_trans; eassumption.
Qed.

(** On a chart sorted by time no note of the lane, scanned or not, is
    closer than the distance the scan returns. *)
Lemma double_scan_sorted (ln : nat) (now : float) (rest : list Note) :
  StronglySorted time_leb rest ->
  forall i bestIdx bestDiff m,
    In m rest -> lane m = ln ->
    (distance now m <? snd (scan ln now rest i bestIdx bestDiff)) = false.
Proof.
  induction 1 as [|n rest Hs IH Hall]; intros i bestIdx bestDiff m Hin Hl;
    [destruct Hin|].
  cbn [scan]. cbv zeta.
  destruct (Nat.eqb (lane n) ln) eqn:El; cbn [negb].
  - apply Nat.eqb_eq in El.
    fold (distance now n). change missWindow with 0.30.
    set (best := if distance now n <? bestDiff
                 then (Some i, distance now n) else (bestIdx, bestDiff)).
    assert (Hn : (distance now n <? snd best) = false).
    { subst best. destruct (distance now n <? bestDiff) eqn:Ed; cbn [snd];
        [apply double_ltb_irrefl|exact Ed]. }
    destruct (0.30 <? time n - now) eqn:Eb.
    + destruct Hin as [<-|Hin]; [exact Hn|].
      apply (double_break_loses_nothing now n m); [exact Eb| |exact Hn].
      rewrite Forall_forall in Hall. apply Hall, Hin.
    + destruct Hin as [<-|Hin]; [|apply IH; assumption].
      destruct (double_scan_spec ln now rest (S i) (fst best) (snd best))
        as [(Hr & _)|(k & m' & _ & _ & Hr & Hlt & _)];
        cbv zeta in Hr; rewrite Hr; cbn [snd].
      * exact Hn.
      * apply (double_not_ltb_below _ _ _ Hn Hlt).
  - apply Nat.eqb_neq in El.
    destruct Hin as [<-|Hin]; [contradiction|apply IH; assumption].
Qed.

(** X2.  With a track loaded and a chart sorted by time, after a start
    and any presses, stops and restarts the cursor is 0 and the chart is
    still sorted.  The next press is judged against the note at the
    index the scan returns: a note of the pressed lane, at the distance
    the scan returns, and nearest among all the notes of the lane that
    remain, whether the scan reached them or left the loop before them
    (distances in doubles, as the code computes them); the outcome of
    the press is the window that distance falls in.  When the scan
    returns no note, no remaining note of the lane is less than 999 s
    away, and the press is a Miss. *)
Theorem session_judges_nearest (t : float) (s : Player) (evs : list Event) :
  audioBuffer s = true ->
  StronglySorted (fun a b => (time a <=? time b) = true) (notes s) ->
  let s' := run (start t s) evs in
  idxNextNote s' = 0%nat /\
  StronglySorted (fun a b => (time a <=? time b) = true) (notes s') /\
  forall ln currentTime,
    let now := currentTime - startTime s' in
    let d := fun n : Note => abs (time n - now) in
    match fst (find_best ln now s') with
    | Some i =>
        exists n, nth_error (notes s') i = Some n /\ lane n = ln /\
          snd (find_best ln now s') = d n /\ (d n <? 999) = true /\
          (forall m, In m (notes s') -> lane m = ln -> (d m <? d n) = false) /\
          snd (handleHit ln currentTime s') =
            (if d n <=? 0.08 then Perfect
             else if d n <=? 0.18 then Good else Miss)
    | None =>
        (forall m, In m (notes s') -> lane m = ln -> (d m <? 999) = false) /\
        snd (handleHit ln currentTime s') = Miss
    end.
Proof.
  intros Hl Hs s'.
  assert (H0 : idxNextNote s' = 0%nat).
  { apply double_run_cursor. unfold start. rewrite Hl. reflexivity. }
  assert (Hs' : StronglySorted time_leb (notes s')).
  { apply double_run_sorted. unfold start. rewrite Hl. exact Hs. }
  split; [exact H0|]. split; [exact Hs'|]. intros ln currentTime. cbv zeta.
  assert (Hall : forall m, In m (notes s') -> lane m = ln ->
            (distance (currentTime - startTime s') m
             <? snd (find_best ln (currentTime - startTime s') s')) = false).
  { intros m Hm Hlm. unfold find_best. rewrite H0. cbn [skipn].
    apply double_scan_sorted; assumption. }
  destruct (double_find_best_spec ln (currentTime - startTime s') s')
    as [(Hb & _)|(i & n & Hb & Hn & Hln & Hlt & _)].
  - rewrite Hb. split.
    + intros m Hm Hlm. specialize (Hall m Hm Hlm).
      unfold find_best in Hall, Hb. rewrite H0 in Hall, Hb. cbn [skipn] in Hall, Hb.
      destruct (double_scan_spec ln (currentTime - startTime s') (notes s')
                  0 None 999) as [(Hr & _)|(k & m' & _ & _ & Hr & _)];
        cbv zeta in Hr; rewrite Hr in Hall, Hb; [exact Hall|discriminate Hb].
    + rewrite (double_handleHit_none _ _ _ Hb). reflexivity.
  - rewrite Hb in Hall |- *. cbn [fst snd] in Hall |- *. exists n.
    split; [exact Hn|]. split; [exact Hln|].
    split; [reflexivity|]. split; [exact Hlt|]. split; [exact Hall|].
    rewrite (double_handleHit_unfold ln currentTime s' i n);
      [|rewrite Hb; reflexivity|exact Hn].
    unfold distance.
    destruct (_ <=? 0.08); [|destruct (_ <=? 0.18)]; reflexivity.
Qed.

Lemma session_judges_nearest_witness :
  audioBuffer two_notes = true /\
  idxNextNote (run (start 0 two_notes) [EvHit 0 1.15; EvStop; EvHit 0 2.4]) = 0%nat /\
  notes (run (start 0 two_notes) [EvHit 0 1.15; EvStop; EvHit 0 2.4])
    = [mkNote 2 0].
Proof.
  assert (Hs : StronglySorted (fun a b => (time a <=? time b) = true)
                 (notes two_notes)).
  { repeat constructor. }
  split; [reflexivity|]. split; [|reflexivity].
  apply (session_judges_nearest 0 two_notes [EvHit 0 1.15; EvStop; EvHit 0 2.4]
           eq_refl Hs).
Defined.

(** A press 0.35 s before the first of two notes: the scan leaves the
    loop at the first note, and the second, which it never reads, is
    farther. *)
Example press_before_first_note :
  fst (find_best 0 0.65 two_notes) = Some 0%nat /\
  (abs (2 - 0.65) <? abs (1 - 0.65)) = false /\
  handleHit 0 0.65 two_notes = (with_combo 0 two_notes, Miss).
Proof. repeat split; reflexivity. Qed.

End DoubleSession.

(** ** Score and combo over a session *)

Lemma dispatch_score_invariant (chart0 : list Note) (s : Player) (e : Event) :
  score_invariant chart0 s -> score_invariant chart0 (dispatch s e).
Proof.
  intros (Hc & Hcs & (k & Hk) & Hb). unfold score_invariant.
  destruct e as [t| |ln t]; cbn [dispatch].
  - unfold start. destruct (audioBuffer s); cbn [negb combo score notes].
    + repeat split; try lia. exists 0%Z. reflexivity.
    + repeat split; try assumption. exists k. exact Hk.
  - cbn [stop combo score notes]. repeat split; try assumption.
    exists k. exact Hk.
  - destruct (handleHit_cases ln t s) as [(i & n & Hn & [E|E])|E];
      rewrite E; cbn [fst consume with_combo combo score notes].
    + pose proof (splice1_length i (notes s) n Hn).
      repeat split; try lia. exists (k + 2)%Z. lia.
    + pose proof (splice1_length i (notes s) n Hn).
      repeat split; try lia. exists (k + 1)%Z. lia.
    + repeat split; try lia. exists k. exact Hk.
Qed.

Lemma run_score_invariant (chart0 : list Note) (evs : list Event) :
  forall s, score_invariant chart0 s -> score_invariant chart0 (run s evs).
Proof.
  unfold run. induction evs as [|e evs IH]; intros s Hs; cbn [fold_left].
  - exact Hs.
  - apply IH, dispatch_score_invariant, Hs.
Qed.

(** X3.  After a start with a track loaded, whatever presses, stops and
    restarts follow: the combo is never negative, every unit of combo is
    backed by at least 500 points, the score is a multiple of 500, and
    the score is at most 1000 per note missing from the chart the
    session started with. *)
Theorem session_score_bounds (t : Q) (s : Player) (evs : list Event) :
  audioBuffer s = true ->
  let s' := run (start t s) evs in
  (0 <= combo s')%Z /\ (500 * combo s' <= score s')%Z /\
  (exists k, score s' = 500 * k)%Z /\
  (length (notes s') <= length (notes s))%nat /\
  (score s' <= 1000 * (Z.of_nat (length (notes s)) - Z.of_nat (length (notes s'))))%Z.
Proof.
  intros Hl s'.
  assert (H0 : score_invariant (notes s) (start t s)).
  { unfold start, score_invariant. rewrite Hl. cbn.
    repeat split; try lia. exists 0%Z. reflexivity. }
  destruct (run_score_invariant (notes s) evs _ H0) as (Hc & Hcs & Hk & Hb).
  fold s' in Hc, Hcs, Hk, Hb.
  repeat split; try assumption; lia.
Qed.

Lemma session_score_bounds_witness :
  audioBuffer two_notes = true /\
  score (run (start 0 two_notes) [EvHit 0 1.15; EvHit 0 2; EvHit 0 3]) = 1500%Z /\
  (score (run (start 0 two_notes) [EvHit 0 1.15; EvHit 0 2; EvHit 0 3])
   <= 1000 * (Z.of_nat (length (notes two_notes))
              - Z.of_nat (length (notes (run (start 0 two_notes)
                                           [EvHit 0 1.15; EvHit 0 2; EvHit 0 3])))))%Z.
Proof.
  split; [reflexivity|]. split; [reflexivity|].
  apply (session_score_bounds 0 two_notes [EvHit 0 1.15; EvHit 0 2; EvHit 0 3] eq_refl).
Defined.

(** ** Misses, and presses after a stop *)

Lemma find_best_with_combo (ln : nat) (now : Q) (c : Z) (s : Player) :
  find_best ln now (with_combo c s) = find_best ln now s.
Proof. reflexivity. Qed.

(** X4.  A Miss can be repeated: a press that misses leaves a state in
    which the same press misses again and changes nothing further. *)
Theorem miss_is_idempotent (ln : nat) (currentTime : Q) (s : Player) :
  snd (handleHit ln currentTime s) = Miss ->
  handleHit ln currentTime (fst (handleHit ln currentTime s))
    = handleHit ln currentTime s /\
  notes (fst (handleHit ln currentTime s)) = notes s /\
  score (fst (handleHit ln currentTime s)) = score s.
Proof.
  intro Hm.
  destruct (fst (find_best ln (currentTime - startTime s) s)) as [i|] eqn:Hb.
  - destruct (find_best_some _ _ _ _ Hb) as (n & Hn & _).
    pose proof (handleHit_unfold _ _ _ _ _ Hb Hn) as E.
    rewrite E in Hm |- *.
    destruct (Qle_bool (Qabs (time n - (currentTime - startTime s))) perfect)
      eqn:Ep; [discriminate|].
    destruct (Qle_bool (Qabs (time n - (currentTime - startTime s))) good)
      eqn:Eg; [discriminate|].
    cbn [fst]. split; [|split; reflexivity].
    rewrite (handleHit_unfold ln currentTime (with_combo 0 s) i n).
    + cbn [with_combo startTime]. rewrite Ep, Eg. reflexivity.
    + exact Hb.
    + exact Hn.
  - unfold handleHit. cbv zeta. rewrite Hb. cbn [fst].
    rewrite find_best_with_combo. cbn [with_combo startTime]. rewrite Hb.
    repeat split; reflexivity.
Qed.

Lemma miss_is_idempotent_witness :
  snd (handleHit 0 0.1801 note_at_zero) = Miss /\
  handleHit 0 0.1801 (fst (handleHit 0 0.1801 note_at_zero))
    = handleHit 0 0.1801 note_at_zero.
Proof.
  split; [reflexivity|].
  apply (miss_is_idempotent 0 0.1801 note_at_zero eq_refl).
Defined.

(** X5.  The judgment does not look at [playing]: a press after a stop
    is judged, scored and consumes a note exactly as it would during
    playback, and the flag stays cleared. *)
Theorem press_after_stop_still_judged (ln : nat) (currentTime : Q) (s : Player) :
  handleHit ln currentTime (stop s)
    = (stop (fst (handleHit ln currentTime s)), snd (handleHit ln currentTime s)).
Proof.
  assert (Hf : find_best ln (currentTime - startTime (stop s)) (stop s)
               = find_best ln (currentTime - startTime s) s) by reflexivity.
  destruct (fst (find_best ln (currentTime - startTime s) s)) as [i|] eqn:Hb.
  - destruct (find_best_some _ _ _ _ Hb) as (n & Hn & _).
    rewrite (handleHit_unfold ln currentTime s i n Hb Hn).
    rewrite (handleHit_unfold ln currentTime (stop s) i n);
      [|rewrite Hf; exact Hb|exact Hn].
    cbn [stop startTime].
    destruct (Qle_bool _ perfect); [|destruct (Qle_bool _ good)]; reflexivity.
  - unfold handleHit. cbv zeta. rewrite Hf, Hb. reflexivity.
Qed.

(** ** Key handlers *)

Lemma array_set_get (i : nat) (v : bool) (a : list bool) :
  nth i (array_set i v a) false = v.
Proof.
  revert a. induction i as [|i IH]; intros [|x a]; cbn; auto.
Qed.

Lemma array_set_twice (i : nat) (v w : bool) (a : list bool) :
  array_set i v (array_set i w a) = array_set i v a.
Proof.
  revert a. induction i as [|i IH]; intros [|x a]; cbn; try reflexivity;
    rewrite IH; reflexivity.
Qed.

Lemma array_set_other (i j : nat) (v : bool) (a : list bool) :
  i <> j -> nth j (array_set i v a) false = nth j a false.
Proof.
  revert j a. induction i as [|i IH]; intros [|j] [|x a] Hij; cbn;
    try reflexivity; try contradiction.
  - destruct j; reflexivity.
  - rewrite IH by congruence. destruct j; reflexivity.
  - apply IH. congruence.
Qed.

(** X6.  Key repeat is ignored: while a key is held, a second [keydown]
    of it changes nothing, so a held key is judged once. *)
Theorem key_repeat_ignored (key : ascii) (t1 t2 : Q) (g : Game) :
  keydown key t2 (keydown key t1 g) = keydown key t1 g.
Proof.
  unfold keydown.
  destruct (keyMap (toLowerCase key)) as [l|] eqn:Ek; [|reflexivity].
  destruct (nth l (pressed g) false) eqn:Ef; cbn [negb].
  - cbn [player pressed audioCtx].
    rewrite array_set_get, array_set_twice. reflexivity.
  - destruct (audioCtx g) eqn:Ea.
    + cbn [player pressed audioCtx].
      rewrite array_set_get, array_set_twice. reflexivity.
    + rewrite Ef, Ea. reflexivity.
Qed.

(** X7.  Releasing a key re-arms it and judges nothing: [keyup] leaves
    the player and the audio context as they are, clears the flag of a
    lane key and touches no other flag.  With an audio context the next
    [keydown] of the key calls [handleHit] for its lane whatever the
    flag was before, and sets the flag.  Without one that [keydown]
    throws in [handleHit] and changes nothing: the flag stays clear. *)
Theorem key_release_rearms (key : ascii) (t : Q) (g : Game) :
  player (keyup key g) = player g /\ audioCtx (keyup key g) = audioCtx g /\
  match keyMap (toLowerCase key) with
  | Some l =>
      nth l (pressed (keyup key g)) false = false /\
      (forall l', l <> l' ->
         nth l' (pressed (keyup key g)) false = nth l' (pressed g) false) /\
      (audioCtx g = true ->
         player (keydown key t (keyup key g)) = fst (handleHit l t (player g)) /\
         nth l (pressed (keydown key t (keyup key g))) false = true /\
         forall l', l <> l' ->
           nth l' (pressed (keydown key t (keyup key g))) false
             = nth l' (pressed g) false) /\
      (audioCtx g = false ->
         keydown key t (keyup key g) = keyup key g /\
         nth l (pressed (keydown key t (keyup key g))) false = false)
  | None => keydown key t g = g /\ keyup key g = g
  end.
Proof.
  unfold keyup, keydown.
  destruct (keyMap (toLowerCase key)) as [l|] eqn:Ek;
    cbn [player pressed audioCtx]; [|repeat split; reflexivity].
  split; [reflexivity|]. split; [reflexivity|].
  rewrite ?Ek. cbn [player pressed audioCtx].
  rewrite array_set_get. cbn [negb].
  split; [reflexivity|].
  split; [intros l' Hl; apply array_set_other, Hl|].
  split.
  - intros ->. cbn [player pressed audioCtx].
    split; [reflexivity|]. split; [apply array_set_get|].
    intros l' Hl. rewrite !array_set_other by exact Hl. reflexivity.
  - intros ->. cbn [pressed]. split; [reflexivity|apply array_set_get].
Qed.

Lemma keyMap_lanes (c : ascii) (l : nat) :
  keyMap (toLowerCase c) = Some l ->
  (l < 4)%nat /\
  (c = "f" \/ c = "F" \/ c = "g" \/ c = "G" \/
   c = "h" \/ c = "H" \/ c = "j" \/ c = "J")%char.
Proof.
  destruct c as [[] [] [] [] [] [] [] []]; vm_compute; intro H;
    try discriminate; injection H as <-; split; try lia; tauto.
Qed.

(** X8.  The key bindings: F, G, H and J, in either case, are lanes 0,
    1, 2 and 3; no other one-character key reaches [handleHit] or a
    flag, and a lane is always below 4. *)
Theorem key_bindings (c : ascii) :
  (keyMap (toLowerCase "f") = Some 0 /\ keyMap (toLowerCase "F") = Some 0 /\
   keyMap (toLowerCase "g") = Some 1 /\ keyMap (toLowerCase "G") = Some 1 /\
   keyMap (toLowerCase "h") = Some 2 /\ keyMap (toLowerCase "H") = Some 2 /\
   keyMap (toLowerCase "j") = Some 3 /\ keyMap (toLowerCase "J") = Some 3)%nat /\
  match keyMap (toLowerCase c) with
  | Some l =>
      (l < 4)%nat /\
      (c = "f" \/ c = "F" \/ c = "g" \/ c = "G" \/
       c = "h" \/ c = "H" \/ c = "j" \/ c = "J")%char
  | None => forall t g, keydown c t g = g /\ keyup c g = g
  end.
Proof.
  split; [repeat split; reflexivity|].
  destruct (keyMap (toLowerCase c)) as [l|] eqn:Ek.
  - apply keyMap_lanes, Ek.
  - intros t g. unfold keydown, keyup. rewrite Ek. split; reflexivity.
Qed.

(** ** Flux and its normalization *)

Lemma Qmax_is (x y : Q) : Qmax x y = x \/ Qmax x y = y.
Proof.
  unfold Qmax, GenericMinMax.gmax. destruct (x ?= y); auto.
Qed.

Lemma diffs_length (env : list Q) : length (diffs env) = pred (length env).
Proof.
  induction env as [|a env IH]; [reflexivity|].
  destruct env as [|b env]; [reflexivity|].
  change (diffs (a :: b :: env)) with (Qmax 0 (b - a) :: diffs (b :: env)).
  cbn [length] in *. rewrite IH. reflexivity.
Qed.

Lemma diffs_nonneg (env : list Q) : Forall (fun d => 0 <= d) (diffs env).
Proof.
  induction env as [|a env IH]; [constructor|].
  destruct env as [|b env]; [constructor|].
  change (diffs (a :: b :: env)) with (Qmax 0 (b - a) :: diffs (b :: env)).
  constructor; [apply Q.le_max_l|exact IH].
Qed.

Lemma max_fold (l : list Q) :
  forall m0,
    exists m,
      fold_left (fun m d => match m with
                            | None => Some d
                            | Some x => Some (Qmax x d)
                            end) l (Some m0) = Some m /\
      m0 <= m /\ Forall (fun d => d <= m) l /\ (m = m0 \/ In m l).
Proof.
  induction l as [|d l IH]; intro m0; cbn [fold_left].
  - exists m0. repeat split; [lra|constructor|left; reflexivity].
  - destruct (IH (Qmax m0 d)) as (m & E & Hle & Hall & Hin).
    exists m. split; [exact E|].
    pose proof (Q.le_max_l m0 d). pose proof (Q.le_max_r m0 d).
    split; [lra|]. split.
    + constructor; [lra|exact Hall].
    + destruct Hin as [->|Hin]; [|right; right; exact Hin].
      destruct (Qmax_is m0 d) as [->| ->]; [left; reflexivity|right; left; reflexivity].
Qed.

(** [Math.max(...l)] of a non-empty [l] is an element of [l] that bounds it. *)
Lemma Math_max_all_spec (l : list Q) :
  match Math_max_all l with
  | None => l = []
  | Some m => In m l /\ Forall (fun d => d <= m) l
  end.
Proof.
  unfold Math_max_all. destruct l as [|d l]; [reflexivity|].
  cbn [fold_left]. destruct (max_fold l d) as (m & E & Hle & Hall & Hin).
  rewrite E. split.
  - destruct Hin as [->|Hin]; [left; reflexivity|right; exact Hin].
  - constructor; assumption.
Qed.

Lemma normalize_length (ds : list Q) : length (normalize ds) = length ds.
Proof.
  unfold normalize. pose proof (Math_max_all_spec ds) as H.
  destruct (Math_max_all ds) as [m|]; [apply length_map|].
  subst ds. reflexivity.
Qed.

(** X9.  The normalized flux has one value per pair of consecutive
    frames, every value lies between 0 and 1, and when the envelope
    rises somewhere the largest rise is normalized to 1. *)
Theorem normalized_flux_range (env : list Q) :
  let norm := normalize (diffs env) in
  length norm = pred (length env) /\
  Forall (fun x => 0 <= x /\ x <= 1) norm /\
  ((exists d, In d (diffs env) /\ 0 < d) -> exists x, In x norm /\ x == 1).
Proof.
  cbv zeta. split; [rewrite normalize_length; apply diffs_length|].
  unfold normalize.
  pose proof (Math_max_all_spec (diffs env)) as Hm.
  pose proof (diffs_nonneg env) as Hpos.
  destruct (Math_max_all (diffs env)) as [m|].
  - destruct Hm as [Hin Hall].
    rewrite Forall_forall in Hpos, Hall.
    pose proof (Hpos m Hin) as Hm0.
    split.
    + apply Forall_forall. intros x Hx. apply in_map_iff in Hx.
      destruct Hx as (d & <- & Hd).
      pose proof (Hpos d Hd). pose proof (Hall d Hd).
      destruct (Qeq_bool m 0) eqn:E.
      * apply Qeq_bool_iff in E.
        assert (Hd0 : d == 0) by lra.
        rewrite Hd0. split; unfold Qdiv; cbn; lra.
      * assert (Hne : ~ m == 0).
        { intro H1. apply Qeq_bool_iff in H1. congruence. }
        assert (0 < m) by (apply Qle_lt_or_eq in Hm0; destruct Hm0 as [?|Hz];
                           [assumption|exfalso; apply Hne; symmetry; exact Hz]).
        split.
        { apply Qle_shift_div_l; [assumption|lra]. }
        { apply Qle_shift_div_r; [assumption|lra]. }
    + intros (d & Hd & Hd0).
      pose proof (Hall d Hd).
      assert (Hne : Qeq_bool m 0 = false).
      { destruct (Qeq_bool m 0) eqn:E; [|reflexivity].
        apply Qeq_bool_iff in E. exfalso. lra. }
      exists (m / (if Qeq_bool m 0 then 1 else m)). split.
      * apply in_map_iff. exists m. split; [reflexivity|exact Hin].
      * rewrite Hne. field. lra.
  - split; [constructor|]. intros (d & Hd & _). rewrite Hm in Hd. destruct Hd.
Qed.

(** ** Onsets: none, the first, and where they lie *)

Lemma onset_loop_none (th rate : Q) (norm : list Q) :
  Forall (fun x => x <= th) norm ->
  forall i onsets, onset_loop th rate norm i onsets = onsets.
Proof.
  induction 1 as [|x norm Hx _ IH]; intros i onsets; cbn [onset_loop].
  - reflexivity.
  - rewrite IH. unfold onset_step.
    apply Qltb_ge in Hx. rewrite Hx. reflexivity.
Qed.


Lemma diffs_flat (env : list Q) :
  Sorted (fun a b => b <= a) env -> Forall (fun d => d == 0) (diffs env).
Proof.
  induction env as [|a env IH]; intro Hs; [constructor|].
  destruct env as [|b env]; [constructor|].
  change (diffs (a :: b :: env)) with (Qmax 0 (b - a) :: diffs (b :: env)).
  apply Sorted_inv in Hs. destruct Hs as [Hs Hh].
  constructor; [|apply IH, Hs].
  inversion Hh as [|? ? Hba]; subst.
  apply Q.max_l. lra.
Qed.

Lemma normalize_flat (ds : list Q) :
  Forall (fun d => d == 0) ds -> Forall (fun x => x == 0) (normalize ds).
Proof.
  intro H. unfold normalize. destruct (Math_max_all ds) as [m|]; [|constructor].
  apply Forall_forall. intros x Hx. apply in_map_iff in Hx.
  destruct Hx as (d & <- & Hd). rewrite Forall_forall in H.
  rewrite (H d Hd). unfold Qdiv. apply Qmult_0_l.
Qed.

(** X11.  An envelope that never rises (silence, a fade-out, fewer than
    two frames) gives no onset at any threshold that is not negative,
    that is, at any positive or unparsable sensitivity. *)
Theorem no_rise_no_onsets (parsed : option Q) (sampleRate : Q) (env : list Q) :
  0 <= thresh parsed ->
  Sorted (fun a b => b <= a) env ->
  detect_onsets parsed sampleRate env = [].
Proof.
  intros Hth Hs. unfold detect_onsets. apply onset_loop_none.
  pose proof (normalize_flat _ (diffs_flat env Hs)) as H.
  apply Forall_forall. intros x Hx. rewrite Forall_forall in H.
  rewrite (H x Hx). exact Hth.
Qed.

Lemma no_rise_no_onsets_witness :
  0 <= thresh None /\ Sorted (fun a b => b <= a) fade_out /\
  detect_onsets None 44100 fade_out = [].
Proof.
  assert (Hth : 0 <= thresh None) by (vm_compute; discriminate).
  assert (Hs : Sorted (fun a b => b <= a) fade_out).
  { unfold fade_out. repeat constructor; lra. }
  split; [exact Hth|]. split; [exact Hs|].
  apply (no_rise_no_onsets None 44100 fade_out Hth Hs).
Defined.

Lemma accepted_le (th rate : Q) (norm : list Q) :
  forall i prev, (accepted th rate norm i prev <= length norm)%nat.
Proof.
  induction norm as [|x norm IH]; intros i prev; cbn [accepted length].
  - lia.
  - destruct (Qltb th x && far_enough prev (frame_sec rate i)).
    + apply le_n_S, IH.
    + apply le_S, IH.
Qed.

Lemma frame_sec_bounds (rate : Q) (j n : nat) :
  0 < rate -> (j < n)%nat ->
  0 < frame_sec rate j /\
  frame_sec rate j <= (inject_Z (Z.of_nat n) * 512) / rate.
Proof.
  intros Hr Hj. unfold frame_sec.
  change (inject_Z (Z.of_nat step)) with 512.
  assert (H1 : 0 < inject_Z (Z.of_nat (j + 1))).
  { rewrite <- (Zlt_Qlt 0). lia. }
  assert (H2 : inject_Z (Z.of_nat (j + 1)) <= inject_Z (Z.of_nat n)).
  { rewrite <- Zle_Qle. lia. }
  split.
  - apply Qlt_shift_div_l; [exact Hr|]. lra.
  - unfold Qdiv. apply Qmult_le_compat_r.
    + lra.
    + apply Qlt_le_weak, Qinv_lt_0_compat, Hr.
Qed.

(** X12.  At a positive sample rate every onset is a positive time no
    later than the time of the last frame, [(frames - 1) * 512 /
    sampleRate], and there are at most [frames - 1] onsets. *)
Theorem onsets_within_track (parsed : option Q) (sampleRate : Q) (env : list Q) :
  0 < sampleRate ->
  let onsets := detect_onsets parsed sampleRate env in
  Forall (fun t => 0 < t /\
                   t <= (inject_Z (Z.of_nat (pred (length env))) * 512) / sampleRate)
         onsets /\
  (length onsets <= pred (length env))%nat.
Proof.
  intros Hr onsets. subst onsets. unfold detect_onsets.
  pose proof (normalize_length (diffs env)) as Hn.
  rewrite diffs_length in Hn.
  split.
  - apply Forall_forall. intros t Ht.
    apply onset_loop_origin in Ht.
    destruct Ht as [[]|(j & Hj & _ & ->)].
    rewrite Hn in Hj. rewrite Nat.add_0_l.
    apply frame_sec_bounds; assumption.
  - rewrite onset_loop_length. cbn [length last_onset plus].
    rewrite <- Hn. apply accepted_le.
Qed.

Lemma onsets_within_track_witness :
  0 < 512 /\
  detect_onsets (Some 2) 512 two_rises = [512 # 512; 1536 # 512] /\
  le (length (detect_onsets (Some 2) 512 two_rises)) (pred (length two_rises)).
Proof.
  assert (Hr : 0 < 512) by reflexivity.
  split; [exact Hr|]. split; [reflexivity|].
  apply (onsets_within_track (Some 2) 512 two_rises Hr).
Defined.

(** ** The envelope of a longer buffer *)

Lemma fold_left_pointwise_in {A B : Type} (f g : A -> B -> A) (l : list B) :
  (forall a b, In b l -> f a b = g a b) ->
  forall a, fold_left f l a = fold_left g l a.
Proof.
  induction l as [|b l IH]; intros H a; cbn; [reflexivity|].
  rewrite H by (left; reflexivity). apply IH.
  intros a' b' Hb. apply H. right. exact Hb.
Qed.

Lemma window_sum_app (raw more : list Q) (i w : nat) :
  (i + w <= length raw)%nat ->
  window_sum (raw ++ more) i w = window_sum raw i w.
Proof.
  intro H. unfold window_sum. apply fold_left_pointwise_in.
  intros a j Hj. apply in_seq in Hj. cbv zeta.
  rewrite app_nth1 by lia. reflexivity.
Qed.

Lemma passes_mono (len len' w st : nat) :
  (0 < st)%nat -> (len <= len')%nat ->
  (passes len w st 0 <= passes len' w st 0)%nat.
Proof.
  intros Hst Hl. unfold passes.
  assert (H : ((Z.of_nat len - Z.of_nat w - Z.of_nat 0 + Z.of_nat st - 1)
               / Z.of_nat st
               <= (Z.of_nat len' - Z.of_nat w - Z.of_nat 0 + Z.of_nat st - 1)
                  / Z.of_nat st)%Z)
    by (apply Z.div_le_mono; lia).
  lia.
Qed.

(** X13.  Appending samples only appends frames: the envelope of a
    buffer is a prefix of the envelope of any buffer that extends it.
    (A buffer one window long has no frame yet; the frame over its
    samples appears once a further sample follows.) *)
Theorem envelope_of_longer_buffer (sqrt : Q -> Q) (raw more : list Q) :
  exists frames,
    analyze_env sqrt (raw ++ more) = analyze_env sqrt raw ++ frames /\
    length frames =
      (passes (length raw + length more) win step 0
       - passes (length raw) win step 0)%nat.
Proof.
  assert (Hst : (0 < step)%nat) by (unfold step; lia).
  unfold analyze_env. rewrite !energy_envelope_closed by exact Hst.
  rewrite length_app.
  set (p := passes (length raw) win step 0).
  set (p' := passes (length raw + length more) win step 0).
  assert (Hp : (p <= p')%nat) by (apply passes_mono; [exact Hst|lia]).
  replace p' with (p + (p' - p))%nat by lia.
  rewrite seq_app, map_app.
  eexists. split.
  - f_equal. apply map_ext_in. intros k Hk. apply in_seq in Hk.
    rewrite window_sum_app; [reflexivity|].
    pose proof (passes_window (length raw) win step k Hst ltac:(fold p; lia)).
    lia.
  - rewrite length_map, length_seq. lia.
Qed.

(** ** What the generator puts in the chart *)



Lemma within_beyond (d : Q) (sw : Unbounded.Window) :
  Unbounded.beyond d sw = false <-> Unbounded.within d sw.
Proof.
  destruct sw as [w|negative]; cbn [Unbounded.beyond Unbounded.within].
  - split; intro H; [apply Qltb_ge, H|].
    destruct (Qltb w d) eqn:E; [apply Qltb_lt in E; lra|reflexivity].
  - tauto.
Qed.

(** The loop body on one onset, with a window that may be infinite. *)
Lemma unbounded_snap_cases (freqToLane : Q -> nat) (grid : list Q)
    (sw : Unbounded.Window) (t : Q) :
  (Forall (fun g => 999 <= Qabs (g - t)) grid /\
   ((~ Unbounded.within 999 sw /\ Unbounded.snap freqToLane grid sw t = None) \/
    (Unbounded.within 999 sw /\
     Unbounded.snap freqToLane grid sw t
       = Some (mkCandidate None (freqToLane t)))))
  \/
  (exists g, nearest_to grid t g /\ Qabs (g - t) < 999 /\
     ((~ Unbounded.within (Qabs (g - t)) sw /\
       Unbounded.snap freqToLane grid sw t = None) \/
      (Unbounded.within (Qabs (g - t)) sw /\
       Unbounded.snap freqToLane grid sw t
         = Some (mkCandidate (Some g) (freqToLane t))))).
Proof.
  unfold Unbounded.snap.
  destruct (nearest_scan_start t grid) as [(Hr & Hfar)|(g & Hn & Hr & Hlt)];
    cbv zeta in Hr; rewrite Hr; cbn [fst snd].
  - left. split; [apply Forall_forall, Hfar|].
    destruct (Unbounded.beyond 999 sw) eqn:E.
    + left. split; [|reflexivity]. intro H. apply within_beyond in H. congruence.
    + right. split; [apply within_beyond, E|reflexivity].
  - right. exists g. split; [exact Hn|]. split; [exact Hlt|].
    destruct (Unbounded.beyond (Qabs (g - t)) sw) eqn:E.
    + left. split; [|reflexivity]. intro H. apply within_beyond in H. congruence.
    + right. split; [apply within_beyond, E|reflexivity].
Qed.

Lemma unbounded_gen_candidates_flat (freqToLane : Q -> nat) (grid : list Q)
    (sw : Unbounded.Window) (onsets : list Q) :
  forall candidates,
    Unbounded.gen_candidates freqToLane grid sw onsets candidates =
    candidates ++ flat_map (fun t => match Unbounded.snap freqToLane grid sw t with
                                     | Some c => [c]
                                     | None => []
                                     end) onsets.
Proof.
  induction onsets as [|t onsets IH]; intro candidates;
    cbn [Unbounded.gen_candidates flat_map].
  - rewrite app_nil_r. reflexivity.
  - destruct (Unbounded.snap freqToLane grid sw t) as [c|]; rewrite IH.
    + rewrite <- app_assoc. reflexivity.
    + reflexivity.
Qed.

Lemma unbounded_gen_candidates_in (freqToLane : Q -> nat) (grid : list Q)
    (sw : Unbounded.Window) (onsets : list Q) (c : Candidate) :
  In c (Unbounded.gen_candidates freqToLane grid sw onsets []) <->
  exists t, In t onsets /\ Unbounded.snap freqToLane grid sw t = Some c.
Proof.
  rewrite unbounded_gen_candidates_flat. cbn [app]. rewrite in_flat_map.
  split; intros (t & Ht & H); exists t; split; try exact Ht.
  - destruct (Unbounded.snap freqToLane grid sw t) as [c'|]; [|destruct H].
    destruct H as [->|[]]. reflexivity.
  - rewrite H. left. reflexivity.
Qed.

(** With a subdivision other than 0 the window is the rational one. *)
Lemma unbounded_genNotes_finite (buildBeatGrid : Q -> Z -> Q -> list Q)
    (freqToLane : Q -> nat) (bpmEstimate : option Q) (subdiv : Z)
    (duration : Q) (onsets : list Q) :
  subdiv <> 0%Z ->
  Unbounded.genNotes buildBeatGrid freqToLane bpmEstimate subdiv duration onsets
  = genNotes buildBeatGrid freqToLane bpmEstimate subdiv duration onsets.
Proof.
  intro Hd. unfold Unbounded.genNotes, genNotes, Unbounded.snapWindow. cbv zeta.
  destruct (Z.eqb_spec subdiv 0) as [E|_]; [contradiction|].
  fold (snapWindow bpmEstimate subdiv).
  set (grid := buildBeatGrid _ _ _). set (sw := snapWindow _ _).
  assert (E : forall cs, Unbounded.gen_candidates freqToLane grid
                           (Unbounded.Finite sw) onsets cs
                         = gen_candidates freqToLane grid sw onsets cs).
  { induction onsets as [|t onsets IH]; intro cs; [reflexivity|].
    cbn [Unbounded.gen_candidates gen_candidates].
    change (Unbounded.snap freqToLane grid (Unbounded.Finite sw) t)
      with (snap freqToLane grid sw t).
    destruct (snap freqToLane grid sw t); apply IH. }
  rewrite E. reflexivity.
Qed.



(** With a subdivision of 0 the window is infinite: an onset a whole
    second from the nearest beat still gives a note. *)
Example zero_subdivision_keeps_far_onset :
  Unbounded.genNotes Unbounded.two_beats (fun _ => 0%nat) None 0 2 [1]
  = Some [mkNote 0 0].
Proof. reflexivity. Qed.

Lemma obj_set_length {A : Type} (k : string) (v : A) (o : list (string * A)) :
  (length (obj_set k v o) <= S (length o))%nat.
Proof.
  induction o as [|[k0 v0] o IH]; cbn [obj_set length]; [lia|].
  destruct (String.eqb k0 k); cbn [length]; lia.
Qed.

Lemma merge_length (candidates : list Candidate) :
  forall merged merged',
    merge candidates merged = Some merged' ->
    (length merged' <= length merged + length candidates)%nat.
Proof.
  induction candidates as [|c rest IH]; intros merged merged' Hm;
    cbn [merge length] in *.
  - injection Hm as <-. lia.
  - destruct (ctime c) as [t|]; [|discriminate].
    apply IH in Hm.
    pose proof (obj_set_length (key_of t (clane c)) (mkNote t (clane c)) merged).
    lia.
Qed.

Lemma gen_candidates_length (freqToLane : Q -> nat) (grid : list Q) (sw : Q)
    (onsets : list Q) :
  (length (gen_candidates freqToLane grid sw onsets []) <= length onsets)%nat.
Proof.
  rewrite gen_candidates_flat. cbn [app].
  induction onsets as [|t onsets IH]; cbn [flat_map length]; [lia|].
  rewrite length_app.
  destruct (snap freqToLane grid sw t); cbn [length]; lia.
Qed.

(** X15.  The chart has at most one note per onset, and no onsets give
    the empty chart, not an error. *)
Theorem chart_no_longer_than_onsets (buildBeatGrid : Q -> Z -> Q -> list Q)
    (freqToLane : Q -> nat) (bpmEstimate : option Q) (subdiv : Z)
    (duration : Q) (onsets : list Q) :
  genNotes buildBeatGrid freqToLane bpmEstimate subdiv duration [] = Some [] /\
  forall chart,
    genNotes buildBeatGrid freqToLane bpmEstimate subdiv duration onsets
      = Some chart ->
    (length chart <= length onsets)%nat.
Proof.
  split; [reflexivity|].
  intros chart Hgen.
  destruct (genNotes_merged _ _ _ _ _ _ _ Hgen) as (merged & Hm & ->).
  rewrite (Permutation_length (sort_notes_perm _)).
  unfold obj_values. rewrite length_map.
  apply merge_length in Hm. cbn [length] in Hm.
  pose proof (gen_candidates_length freqToLane
                (buildBeatGrid (bpm_or_default bpmEstimate) subdiv duration)
                (snapWindow bpmEstimate subdiv) onsets).
  lia.
Qed.

Lemma genNotes_keys (buildBeatGrid : Q -> Z -> Q -> list Q)
    (freqToLane : Q -> nat) (bpmEstimate : option Q) (subdiv : Z)
    (duration : Q) (onsets : list Q) (chart : list Note) :
  genNotes buildBeatGrid freqToLane bpmEstimate subdiv duration onsets
    = Some chart ->
  NoDup (map note_key chart).
Proof.
  intro Hgen.
  destruct (genNotes_merged _ _ _ _ _ _ _ Hgen) as (merged & Hm & ->).
  destruct (merge_invariant _ _ _ Hm) as [Hnd Hk];
    [constructor|intros k v []|].
  apply (Permutation_NoDup (l := map note_key (obj_values merged))).
  - apply Permutation_map, Permutation_sym, sort_notes_perm.
  - rewrite keyed_values by exact Hk. exact Hnd.
Qed.

Lemma toFixed3_millis (x y : Q) :
  0 <= x -> 0 <= y -> millis x = millis y -> toFixed3 x = toFixed3 y.
Proof.
  intros Hx Hy Hm. unfold toFixed3, millis in *.
  apply Qltb_ge in Hx, Hy. rewrite Hx, Hy. cbv zeta. rewrite Hm. reflexivity.
Qed.

(** X16.  The merge key has millisecond resolution: a generated chart
    never holds two notes of one lane whose times print alike with three
    decimals; for times from 0 on, never two in one lane that round to
    the same millisecond. *)
Theorem one_note_per_lane_and_millisecond (buildBeatGrid : Q -> Z -> Q -> list Q)
    (freqToLane : Q -> nat) (bpmEstimate : option Q) (subdiv : Z)
    (duration : Q) (onsets : list Q) (chart : list Note) :
  genNotes buildBeatGrid freqToLane bpmEstimate subdiv duration onsets
    = Some chart ->
  forall i j a b, (i < j)%nat ->
    nth_error chart i = Some a -> nth_error chart j = Some b ->
    lane a = lane b ->
    toFixed3 (time a) <> toFixed3 (time b) /\
    (0 <= time a -> 0 <= time b -> millis (time a) <> millis (time b)).
Proof.
  intros Hgen i j a b Hij Ha Hb Hl.
  pose proof (NoDup_map_distinct note_key chart i j a b
                (genNotes_keys _ _ _ _ _ _ _ Hgen) Hij Ha Hb) as Hk.
  assert (Hf : toFixed3 (time a) <> toFixed3 (time b)).
  { intro E. apply Hk. unfold note_key, key_of. rewrite E, Hl. reflexivity. }
  split; [exact Hf|].
  intros H0a H0b Hm. apply Hf, toFixed3_millis; assumption.
Qed.

Lemma one_note_per_lane_and_millisecond_witness :
  genNotes buildBeatGrid_spec (fun _ => 0%nat) None 4 1 [0.375; 0.875]
    = Some [mkNote (240 # 480) 0; mkNote (480 # 480) 0] /\
  toFixed3 (240 # 480) <> toFixed3 (480 # 480).
Proof.
  assert (H : genNotes buildBeatGrid_spec (fun _ => 0%nat) None 4 1 [0.375; 0.875]
              = Some [mkNote (240 # 480) 0; mkNote (480 # 480) 0]) by reflexivity.
  split; [exact H|].
  apply (one_note_per_lane_and_millisecond buildBeatGrid_spec (fun _ => 0%nat)
           None 4 1 [0.375; 0.875] _ H 0%nat 1%nat
           (mkNote (240 # 480) 0) (mkNote (480 # 480) 0)
           (le_n 1) eq_refl eq_refl eq_refl).
Defined.

(** Two grid times within one millisecond merge into one note, the
    later candidate's. *)
Example close_grid_times_merge :
  genNotes fine_grid (fun _ => 0%nat) None 4 1 [0.5001; 0.5004]
    = Some [mkNote 0.5004 0].
Proof. reflexivity. Qed.

(** ** Ties in the grid scan, and when generation fails *)

Lemma nearest_scan_first (t : Q) (grid : list Q) :
  forall nearest mind,
    let r := nearest_scan t grid nearest mind in
    (r = (nearest, mind) /\ Forall (fun g => mind <= Qabs (g - t)) grid) \/
    exists pre g post,
      grid = pre ++ g :: post /\ r = (Some g, Qabs (g - t)) /\
      Qabs (g - t) < mind /\
      Forall (fun g' => Qabs (g - t) < Qabs (g' - t)) pre /\
      Forall (fun g' => Qabs (g - t) <= Qabs (g' - t)) post.
Proof.
  induction grid as [|g0 grid IH]; intros nearest mind;
    cbn [nearest_scan]; cbv zeta.
  - left. split; [reflexivity|constructor].
  - destruct (Qltb (Qabs (g0 - t)) mind) eqn:E.
    + apply Qltb_lt in E. right.
      destruct (IH (Some g0) (Qabs (g0 - t)))
        as [(Hr & Hall)|(pre & g & post & Hg & Hr & Hlt & Hpre & Hpost)];
        cbv zeta in Hr.
      * exists [], g0, grid. rewrite Hr.
        repeat split; [exact E|constructor|exact Hall].
      * exists (g0 :: pre), g, post. rewrite Hr, Hg.
        repeat split; [lra|constructor; assumption|exact Hpost].
    + apply Qltb_ge in E.
      destruct (IH nearest mind)
        as [(Hr & Hall)|(pre & g & post & Hg & Hr & Hlt & Hpre & Hpost)];
        cbv zeta in Hr.
      * left. split; [exact Hr|constructor; assumption].
      * right. exists (g0 :: pre), g, post. rewrite Hr, Hg.
        repeat split; [exact Hlt|constructor; [lra|assumption]|exact Hpost].
Qed.

(** X17.  Among grid times equally near to an onset the scan keeps the
    first in grid order: every grid time before the chosen one is
    strictly farther from the onset, every later one at least as far. *)
Theorem snap_prefers_earlier_grid_time (freqToLane : Q -> nat) (grid : list Q)
    (sw t g : Q) (ln : nat) :
  snap freqToLane grid sw t = Some (mkCandidate (Some g) ln) ->
  exists pre post,
    grid = pre ++ g :: post /\
    Forall (fun g' => Qabs (g - t) < Qabs (g' - t)) pre /\
    Forall (fun g' => Qabs (g - t) <= Qabs (g' - t)) post.
Proof.
  unfold snap.
  destruct (nearest_scan_first t grid None 999)
    as [(Hr & _)|(pre & g' & post & Hg & Hr & _ & Hpre & Hpost)];
    cbv zeta in Hr; rewrite Hr; cbn [fst snd].
  - destruct (Qltb sw 999); discriminate.
  - destruct (Qltb sw (Qabs (g' - t))); [discriminate|].
    intro H. injection H as <- _. exists pre, post. auto.
Qed.

Lemma snap_prefers_earlier_grid_time_witness :
  snap (fun _ => 0%nat) [0; 1; 2] 1 0.5 = Some (mkCandidate (Some 0) 0) /\
  exists pre post,
    [0; 1; 2] = pre ++ 0 :: post /\
    Forall (fun g' => Qabs (0 - 0.5) <= Qabs (g' - 0.5)) post.
Proof.
  assert (H : snap (fun _ => 0%nat) [0; 1; 2] 1 0.5
              = Some (mkCandidate (Some 0) 0)) by reflexivity.
  split; [exact H|].
  destruct (snap_prefers_earlier_grid_time (fun _ => 0%nat) [0; 1; 2] 1 0.5 0 0 H)
    as (pre & post & Hg & _ & Hpost).
  exists pre, post. split; [exact Hg|exact Hpost].
Defined.

Lemma merge_none (candidates : list Candidate) :
  forall merged,
    merge candidates merged = None <-> Exists (fun c => ctime c = None) candidates.
Proof.
  induction candidates as [|c rest IH]; intro merged; cbn [merge].
  - split; [discriminate|]. intro H. inversion H.
  - destruct (ctime c) as [t|] eqn:Et.
    + rewrite IH. split; intro H.
      * apply Exists_cons_tl, H.
      * inversion H as [? ? Hc|? ? Hr]; subst; [congruence|exact Hr].
    + split; [|reflexivity]. intros _. apply Exists_cons_hd, Et.
Qed.

(** [bpmEstimate || 120] is never 0. *)
Lemma bpm_or_default_nonzero (bpmEstimate : option Q) :
  ~ bpm_or_default bpmEstimate == 0.
Proof.
  unfold bpm_or_default. destruct bpmEstimate as [b|]; [|lra].
  destruct (Qeq_bool b 0) eqn:E; [lra|]. apply Qeq_bool_neq in E. exact E.
Qed.

(** X18.  Generation fails, with the [TypeError] of [toFixed] on a
    [null] time, exactly when 999 is within the snap window (the window
    is 999 or more, or the infinity that a subdivision of 0 gives with a
    positive tempo) and some onset has no grid time closer than 999 (an
    empty grid included); otherwise it produces a chart. *)
Theorem generation_fails_only_on_null_time (buildBeatGrid : Q -> Z -> Q -> list Q)
    (freqToLane : Q -> nat) (bpmEstimate : option Q) (subdiv : Z)
    (duration : Q) (onsets : list Q) :
  let grid := buildBeatGrid (bpm_or_default bpmEstimate) subdiv duration in
  let sw := (60 / bpm_or_default bpmEstimate) / (inject_Z subdiv / 4) / 2 in
  Unbounded.genNotes buildBeatGrid freqToLane bpmEstimate subdiv duration onsets
    = None
  <->
  ((if (subdiv =? 0)%Z then 0 < bpm_or_default bpmEstimate else 999 <= sw) /\
   exists t, In t onsets /\ Forall (fun g => 999 <= Qabs (g - t)) grid).
Proof.
  intros grid sw. unfold Unbounded.genNotes. cbv zeta. fold grid.
  set (w := Unbounded.snapWindow bpmEstimate subdiv).
  assert (Hw : Unbounded.within 999 w <->
               if (subdiv =? 0)%Z then 0 < bpm_or_default bpmEstimate
               else 999 <= sw).
  { subst w. unfold Unbounded.snapWindow.
    pose proof (bpm_or_default_nonzero bpmEstimate) as Hb.
    destruct (subdiv =? 0)%Z; cbn [Unbounded.within]; [|tauto].
    split; intro H.
    - apply Qltb_ge in H. apply Qle_lt_or_eq in H.
      destruct H as [H|H]; [exact H|exfalso; apply Hb; symmetry; exact H].
    - destruct (Qltb _ 0) eqn:E; [apply Qltb_lt in E; lra|reflexivity]. }
  rewrite <- Hw. clear Hw.
  assert (Hm : merge (Unbounded.gen_candidates freqToLane grid w onsets []) [] = None
               <-> (Unbounded.within 999 w /\
                    exists t, In t onsets /\
                              Forall (fun g => 999 <= Qabs (g - t)) grid)).
  { rewrite merge_none, Exists_exists. split.
    - intros (c & Hc & Hnull). apply unbounded_gen_candidates_in in Hc.
      destruct Hc as (t & Ht & Hs).
      destruct (unbounded_snap_cases freqToLane grid w t)
        as [(Hfar & [(_ & E)|(Hsw & E)])|(g & _ & _ & [(_ & E)|(_ & E)])];
        rewrite E in Hs; try discriminate; injection Hs as <-;
        cbn [ctime] in Hnull; try discriminate.
      split; [exact Hsw|]. exists t. auto.
    - intros (Hsw & t & Ht & Hfar).
      exists (mkCandidate None (freqToLane t)). split; [|reflexivity].
      apply unbounded_gen_candidates_in. exists t. split; [exact Ht|].
      destruct (unbounded_snap_cases freqToLane grid w t)
        as [(_ & [(Hlt & _)|(_ & E)])|(g & [Hg _] & Hlt & _)].
      + contradiction.
      + exact E.
      + rewrite Forall_forall in Hfar. specialize (Hfar g Hg). exfalso. lra. }
  destruct (merge (Unbounded.gen_candidates freqToLane grid w onsets []) [])
    as [merged|].
  - split; [discriminate|]. intro H. apply Hm in H. discriminate.
  - split; [intros _; apply Hm; reflexivity|reflexivity].
Qed.

(** With a subdivision of 0 and no grid the first onset aborts the
    generation; with the usual subdivision of 4 every onset is skipped
    and the chart is empty. *)
Example zero_subdivision_aborts :
  Unbounded.genNotes Unbounded.no_beats (fun _ => 0%nat) None 0 2 [1] = None /\
  Unbounded.genNotes Unbounded.no_beats (fun _ => 0%nat) None 4 2 [1] = Some [].
Proof. split; reflexivity. Qed.

(** ** [clamp] *)

(** X19.  With [a <= b], [clamp(v,a,b)] lies between [a] and [b], is [v]
    when [v] does, and clamping twice is clamping once; with the bounds
    crossed ([b < a]) it is the lower bound [a] for every [v]. *)
Theorem clamp_range (v a b : Q) :
  (a <= b ->
   a <= clamp v a b /\ clamp v a b <= b /\
   (a <= v -> v <= b -> clamp v a b == v) /\
   (v <= a -> clamp v a b == a) /\
   (b <= v -> clamp v a b == b) /\
   clamp (clamp v a b) a b == clamp v a b) /\
  (b < a -> clamp v a b == a).
Proof.
  unfold clamp.
  assert (Hcl : forall x, a <= b ->
            a <= Qmax a (Qmin b x) /\ Qmax a (Qmin b x) <= b /\
            (a <= x -> x <= b -> Qmax a (Qmin b x) == x) /\
            (x <= a -> Qmax a (Qmin b x) == a) /\
            (b <= x -> Qmax a (Qmin b x) == b)).
  { intros x Hab.
    destruct (Q.min_spec b x) as [[H1 E1]|[H1 E1]];
      destruct (Q.max_spec a (Qmin b x)) as [[H2 E2]|[H2 E2]];
      rewrite E2; rewrite ?E1 in *; repeat split; intros; lra. }
  split.
  - intro Hab. destruct (Hcl v Hab) as (H1 & H2 & H3 & H4 & H5).
    repeat split; try assumption.
    destruct (Hcl (Qmax a (Qmin b v)) Hab) as (_ & _ & H6 & _).
    apply H6; assumption.
  - intro Hba.
    destruct (Q.min_spec b v) as [[H1 E1]|[H1 E1]];
      destruct (Q.max_spec a (Qmin b v)) as [[H2 E2]|[H2 E2]];
      rewrite E2; rewrite ?E1 in *; lra.
Qed.

(** ** The scan of [handleHit]: ties and empty lanes *)

Lemma scan_first (ln : nat) (now : Q) (rest : list Note) :
  forall i bestIdx bestDiff,
    let r := scan ln now rest i bestIdx bestDiff in
    r = (bestIdx, bestDiff) \/
    exists k n, fst r = Some k /\ (i <= k)%nat /\
      nth_error rest (k - i) = Some n /\
      snd r = Qabs (time n - now) /\ snd r < bestDiff /\
      forall j m, (j < k - i)%nat -> nth_error rest j = Some m -> lane m = ln ->
                  snd r < Qabs (time m - now).
Proof.
  induction rest as [|m0 rest IH]; intros i bestIdx bestDiff;
    cbn [scan]; cbv zeta.
  - left. reflexivity.
  - destruct (Nat.eqb (lane m0) ln) eqn:El; cbn [negb].
    + destruct (Qltb (Qabs (time m0 - now)) bestDiff) eqn:Ed; cbn [fst snd].
      * apply Qltb_lt in Ed.
        assert (Hhere : exists k n,
                  fst (Some i, Qabs (time m0 - now)) = Some k /\ (i <= k)%nat /\
                  nth_error (m0 :: rest) (k - i) = Some n /\
                  snd (Some i, Qabs (time m0 - now)) = Qabs (time n - now) /\
                  snd (Some i, Qabs (time m0 - now)) < bestDiff /\
                  forall j m, (j < k - i)%nat ->
                    nth_error (m0 :: rest) j = Some m -> lane m = ln ->
                    snd (Some i, Qabs (time m0 - now)) < Qabs (time m - now)).
        { exists i, m0. cbn [fst snd]. rewrite Nat.sub_diag.
          repeat split; auto. intros j m Hj. lia. }
        destruct (Qltb missWindow (time m0 - now)); [right; exact Hhere|].
        destruct (IH (S i) (Some i) (Qabs (time m0 - now)))
          as [E|(k & n & H1 & H2 & H3 & H4 & H5 & H6)]; cbv zeta in *.
        { rewrite E. right. exact Hhere. }
        { right. exists k, n. rewrite H1.
          replace (k - i)%nat with (S (k - S i)) by lia.
          repeat split; auto; try lia; try lra.
          intros [|j] m Hj Hm Hl.
          - cbn in Hm. injection Hm as <-. exact H5.
          - apply (H6 j m); [lia|exact Hm|exact Hl]. }
      * apply Qltb_ge in Ed.
        destruct (Qltb missWindow (time m0 - now)); [left; reflexivity|].
        destruct (IH (S i) bestIdx bestDiff)
          as [E|(k & n & H1 & H2 & H3 & H4 & H5 & H6)]; cbv zeta in *.
        { left. exact E. }
        { right. exists k, n. rewrite H1.
          replace (k - i)%nat with (S (k - S i)) by lia.
          repeat split; auto; try lia.
          intros [|j] m Hj Hm Hl.
          - cbn in Hm. injection Hm as <-. lra.
          - apply (H6 j m); [lia|exact Hm|exact Hl]. }
    + apply Nat.eqb_neq in El.
      destruct (IH (S i) bestIdx bestDiff)
        as [E|(k & n & H1 & H2 & H3 & H4 & H5 & H6)]; cbv zeta in *.
      { left. exact E. }
      { right. exists k, n. rewrite H1.
        replace (k - i)%nat with (S (k - S i)) by lia.
        repeat split; auto; try lia.
        intros [|j] m Hj Hm Hl.
        - cbn in Hm. injection Hm as <-. contradiction.
        - apply (H6 j m); [lia|exact Hm|exact Hl]. }
Qed.

(** X20.  Among notes of the pressed lane that are equally near, the
    press takes the one that comes first in the chart: every note of
    the lane between the cursor and the chosen one is strictly farther
    from the playback time. *)
Theorem press_prefers_earlier_note (ln : nat) (now : Q) (s : Player) (i : nat)
    (n : Note) :
  fst (find_best ln now s) = Some i -> nth_error (notes s) i = Some n ->
  forall k m, (idxNextNote s <= k < i)%nat ->
    nth_error (notes s) k = Some m -> lane m = ln ->
    Qabs (time n - now) < Qabs (time m - now).
Proof.
  unfold find_best. intros Hb Hn k m Hk Hm Hl.
  destruct (scan_first ln now (skipn (idxNextNote s) (notes s)) (idxNextNote s)
              None 999)
    as [E|(k' & n' & H1 & H2 & H3 & H4 & H5 & H6)]; cbv zeta in *.
  - rewrite E in Hb. discriminate.
  - rewrite H1 in Hb. injection Hb as ->.
    rewrite nth_error_skipn in H3.
    replace (idxNextNote s + (i - idxNextNote s))%nat with i in H3 by lia.
    assert (n' = n) by congruence. subst n'.
    rewrite <- H4.
    apply (H6 (k - idxNextNote s)%nat m); [lia| |exact Hl].
    rewrite nth_error_skipn.
    replace (idxNextNote s + (k - idxNextNote s))%nat with k by lia.
    exact Hm.
Qed.

Lemma press_prefers_earlier_note_witness :
  fst (find_best 0 1 around_one) = Some 0%nat /\
  nth_error (notes around_one) 0 = Some (mkNote 0.75 0) /\
  fst (find_best 0 1.25 around_one) = Some 1%nat /\
  Qabs (time (mkNote 1.25 0) - 1.25) < Qabs (time (mkNote 0.75 0) - 1.25).
Proof.
  split; [reflexivity|]. split; [reflexivity|]. split; [reflexivity|].
  apply (press_prefers_earlier_note 0 1.25 around_one 1 (mkNote 1.25 0)
           eq_refl eq_refl 0%nat (mkNote 0.75 0)
           (conj (le_n 0) (le_n 1)) eq_refl eq_refl).
Defined.

Lemma scan_no_lane (ln : nat) (now : Q) (rest : list Note) :
  Forall (fun n => lane n <> ln) rest ->
  forall i bestIdx bestDiff,
    scan ln now rest i bestIdx bestDiff = (bestIdx, bestDiff).
Proof.
  induction 1 as [|n rest Hn _ IH]; intros i bestIdx bestDiff; cbn [scan].
  - reflexivity.
  - apply Nat.eqb_neq in Hn. rewrite Hn. cbn [negb]. apply IH.
Qed.

(** X21.  A press on a lane that has no note from the cursor on, an
    empty or used-up chart included, is a Miss: it sets the combo to 0
    and changes nothing else. *)
Theorem press_on_empty_lane (ln : nat) (currentTime : Q) (s : Player) :
  Forall (fun n => lane n <> ln) (skipn (idxNextNote s) (notes s)) ->
  handleHit ln currentTime s = (with_combo 0 s, Miss).
Proof.
  intro H. unfold handleHit, find_best. cbv zeta.
  rewrite (scan_no_lane ln _ _ H). reflexivity.
Qed.

Lemma press_on_empty_lane_witness :
  Forall (fun n => lane n <> 1%nat) (skipn (idxNextNote one_note) (notes one_note)) /\
  handleHit 1 1 one_note = (with_combo 0 one_note, Miss).
Proof.
  assert (H : Forall (fun n => lane n <> 1%nat)
                (skipn (idxNextNote one_note) (notes one_note))).
  { repeat constructor. cbn. discriminate. }
  split; [exact H|].
  apply (press_on_empty_lane 1 1 one_note H).
Defined.

(** ** The argument of [Math.sqrt] *)

Lemma fold_squares_nonneg (raw : list Q) (i : nat) (js : list nat) :
  forall acc, 0 <= acc ->
    0 <= fold_left (fun sum j => let s := nth (i + j) raw 0 in sum + s * s) js acc.
Proof.
  induction js as [|j js IH]; intros acc Hacc; cbn [fold_left].
  - exact Hacc.
  - apply IH. cbv zeta.
    generalize (nth (i + j) raw 0). intro x. nra.
Qed.

(** X22.  Every frame of the envelope is [Math.sqrt] of a number that is
    not negative (a mean of squares), so the square root is never taken
    of a negative number. *)
Theorem sqrt_argument_nonneg (sqrt : Q -> Q) (raw : list Q) :
  exists means,
    analyze_env sqrt raw = map sqrt means /\
    Forall (fun x => 0 <= x) means.
Proof.
  assert (Hst : (0 < step)%nat) by (unfold step; lia).
  exists (map (fun k => window_sum raw (k * step) win / inject_Z (Z.of_nat win))
              (seq 0 (passes (length raw) win step 0))).
  split.
  - unfold analyze_env. rewrite energy_envelope_closed by exact Hst.
    rewrite map_map. reflexivity.
  - apply Forall_forall. intros x Hx. apply in_map_iff in Hx.
    destruct Hx as (k & <- & _).
    apply Qle_shift_div_l; [reflexivity|].
    rewrite Qmult_0_l. unfold window_sum.
    apply fold_squares_nonneg. lra.
Qed.
